(** * topopy.Network: a shallow embedding of [topopy/network.py]

    The drainage network of the source is an object whose attributes are
    index arrays ([_ix], [_ixc]) and float arrays in parallel with them.
    Cell indices are natural numbers, numpy arrays are lists, an index
    that numpy would refuse raises, and Python exceptions are values of an
    error monad.

    Floating point is idealised: the constructor and the chi transform,
    which need a square root and a real power, compute in the real numbers
    [R]; the slope regression, which needs only field operations and
    comparisons, is written over an interface [Arith] with instances for
    [R] and for the rationals [Q], where it can be run. *)

From Stdlib Require Import ZArith QArith Reals Lra Lia.
From stdpp Require Import base list strings relations.

(** ** Exceptions and the error monad *)

Inductive exn :=
  | AttributeError (name : string)
  | IndexError
  | ValueError
  | TypeError
  | Unfinished.   (* a [while] loop that outlived the fuel of the model *)

Inductive result (A : Type) :=
  | Ok (a : A)
  | Raise (e : exn).
Arguments Ok {A} a.
Arguments Raise {A} e.

#[global] Instance result_ret : MRet result := fun A a => Ok a.
#[global] Instance result_bind : MBind result :=
  fun A B f m => match m with Ok a => f a | Raise e => Raise e end.

(** [for x in l: s = step(s, x)] *)
Fixpoint foldM {S A} (step : S → A → result S) (s : S) (l : list A) : result S :=
  match l with
  | [] => Ok s
  | x :: l' => s' ← step s x; foldM step s' l'
  end.

(** [[f(x) for x in l]], stopping at the first exception *)
Fixpoint forM {A B} (f : A → result B) (l : list A) : result (list B) :=
  match l with
  | [] => Ok []
  | x :: l' => y ← f x; ys ← forM f l'; Ok (y :: ys)
  end.

(** ** numpy indexing *)

(** [a[i]] for a non-negative integer [i] *)
Definition getitem {A} (a : list A) (i : nat) : result A :=
  match a !! i with
  | Some x => Ok x
  | None => Raise IndexError
  end.

(** [a[i] = v] *)
Definition setitem {A} (a : list A) (i : nat) (v : A) : result (list A) :=
  if decide (i < length a) then Ok (<[i := v]> a) else Raise IndexError.

(** [a[idx]] for an integer array [idx] *)
Definition take_at {A} (a : list A) (idx : list nat) : result (list A) :=
  forM (getitem a) idx.

(** [a[idx] = v] for an integer array [idx] and a scalar [v] *)
Definition put_at {A} (a : list A) (idx : list nat) (v : A) : result (list A) :=
  foldM (fun a i => setitem a i v) a idx.

(** [a[mask]] for a boolean array [mask], which must be as long as [a] *)
Definition compress {A} (a : list A) (mask : list bool) : result (list A) :=
  if decide (length mask = length a)
  then Ok (fst <$> filter (fun p => snd p = true) (zip a mask))
  else Raise IndexError.

(** [np.zeros(n)] *)
Definition zeros {A} (zero : A) (n : nat) : list A := replicate n zero.

(** ** Raster geometry (PRaster) *)

(** Modelled from the spec: [PRaster.ind_2_cell] is not among the sources;
    the spec describes it as the conversion of a linear index to a
    (row, col) pair, which for a row-major raster of shape [dims] is
    numpy's [unravel_index]; an index outside the raster is refused. *)
Definition ind_2_cell (dims : nat * nat) (ind : nat) : result (nat * nat) :=
  if decide (ind < dims.1 * dims.2)
  then Ok (ind / dims.2, ind mod dims.2)
  else Raise ValueError.

(** Modelled from the spec: [PRaster.cell_2_ind] is not among the sources;
    the spec describes it as the conversion of a (row, col) pair to a
    linear index, numpy's [ravel_multi_index]. *)
Definition cell_2_ind (dims : nat * nat) (row col : nat) : result nat :=
  if decide (row < dims.1 ∧ col < dims.2)
  then Ok (row * dims.2 + col)
  else Raise ValueError.

(** [PRaster.cell_2_xy] is not among the sources either. It maps a
    (row, col) pair to map coordinates through the geotransform, so the
    geotransform is represented by that map. *)
Definition geotransform (F : Type) : Type := nat → nat → F * F.

Definition cell_2_xy {F} (geot : geotransform F) (row col : nat) : F * F :=
  geot row col.

(** ** The collaborators of the constructor *)

Module Flow.
Record t := mk {
  get_size : nat * nat;
  get_dims : nat * nat;
  get_geotransform : geotransform R;
  get_cellsize : R;
  get_projection : string;
  get_ncells : nat;
  _ix : list nat;
  _ixc : list nat;
  (* get_flow_accumulation(nodata=False, asgrid=False).ravel() *)
  get_flow_accumulation : list R
}.
End Flow.

Module DEM.
Record t := mk {
  (* read_array().ravel() *)
  read_array : list R
}.
End DEM.

(** ** The network object

    The attributes that [__init__] assigns before any method reads them
    are fields. The attributes that a method assigns later ([_chi], [_ksn],
    [_slp]) or that the class reads without ever assigning ([_chcells])
    are slots that are empty until assigned; reading an empty slot is
    Python's [AttributeError]. *)

Record Network (F : Type) := mkNetwork {
  _size : nat * nat;
  _dims : nat * nat;
  _geot : geotransform F;
  _cellsize : F;
  _proj : string;
  _ncells : nat;
  _ix : list nat;
  _ixc : list nat;
  _ax : list F;
  _zx : list F;
  _dd : list F;
  _dx : list F;
  _chi : option (list F);
  _ksn : option (list F);
  _slp : option (list F);
  _chcells : option (list nat)
}.
Arguments mkNetwork {F}.
Arguments _size {F}. Arguments _dims {F}. Arguments _geot {F}.
Arguments _cellsize {F}. Arguments _proj {F}. Arguments _ncells {F}.
Arguments _ix {F}. Arguments _ixc {F}. Arguments _ax {F}. Arguments _zx {F}.
Arguments _dd {F}. Arguments _dx {F}. Arguments _chi {F}. Arguments _ksn {F}.
Arguments _slp {F}. Arguments _chcells {F}.

(** [self.<name>] for a slot *)
Definition getattr {A} (name : string) (slot : option A) : result A :=
  match slot with
  | Some v => Ok v
  | None => Raise (AttributeError name)
  end.

(** [self._chi = v], [self._ksn = v], [self._slp = v] *)
Definition set_chi {F} (self : Network F) (v : list F) : Network F :=
  mkNetwork (_size self) (_dims self) (_geot self) (_cellsize self)
    (_proj self) (_ncells self) (_ix self) (_ixc self) (_ax self) (_zx self)
    (_dd self) (_dx self) (Some v) (_ksn self) (_slp self) (_chcells self).

Definition set_ksn {F} (self : Network F) (v : list F) : Network F :=
  mkNetwork (_size self) (_dims self) (_geot self) (_cellsize self)
    (_proj self) (_ncells self) (_ix self) (_ixc self) (_ax self) (_zx self)
    (_dd self) (_dx self) (_chi self) (Some v) (_slp self) (_chcells self).

Definition set_slp {F} (self : Network F) (v : list F) : Network F :=
  mkNetwork (_size self) (_dims self) (_geot self) (_cellsize self)
    (_proj self) (_ncells self) (_ix self) (_ixc self) (_ax self) (_zx self)
    (_dd self) (_dx self) (_chi self) (_ksn self) (Some v) (_chcells self).

(** ** Construction *)

Definition Rltb (a b : R) : bool := if Rlt_dec a b then true else false.
Definition Reqb (a b : R) : bool := if Req_dec_T a b then true else false.

(** [np.arange(n)[::-1]] *)
Definition arange_rev (n : nat) : list nat := rev (seq 0 n).

(** The planar distance between the centres of two cells, lines 67-71. *)
Definition giver_receiver_distance (dims : nat * nat) (geot : geotransform R)
    (g r : nat) : result R :=
  '(grow, gcol) ← ind_2_cell dims g;
  '(rrow, rcol) ← ind_2_cell dims r;
  let '(gx, gy) := cell_2_xy geot grow gcol in
  let '(rx, ry) := cell_2_xy geot rrow rcol in
  Ok (sqrt ((gx - rx) ^ 2 + (gy - ry) ^ 2))%R.

(** One iteration of the loop of lines 66-73 on the scratch array [di] and
    on [_dd]. *)
Definition distance_step (dims : nat * nat) (geot : geotransform R)
    (ix ixc : list nat) (s : list R * list R) (n : nat)
    : result (list R * list R) :=
  let '(di, dd) := s in
  g ← getitem ix n;
  r ← getitem ixc n;
  d_gr ← giver_receiver_distance dims geot g r;
  dd ← setitem dd n d_gr;
  v ← getitem di r;
  di ← setitem di g (v + d_gr)%R;
  Ok (di, dd).

(** The default threshold of lines 48-49. *)
Definition effective_threshold (ncells : nat) (threshold : R) : R :=
  if Reqb threshold 0 then (INR ncells * (5 / 1000))%R else threshold.

(** The edge selection of lines 52-57. *)
Definition select_edges (flow : Flow.t) (threshold : R)
    : result (list nat * list nat) :=
  let fac := Flow.get_flow_accumulation flow in
  let w := (fun a => Rltb threshold a) <$> fac in
  I ← take_at w (Flow._ix flow);
  ix ← compress (Flow._ix flow) I;
  ixc ← compress (Flow._ixc flow) I;
  Ok (ix, ixc).

(** [calculate_chi], lines 83-98. The power [_ax[n] ** thetaref] is the
    real power [Rpower], which is numpy's for a positive area and, for the
    exponent 0, for every area; for an area that is not positive and
    another exponent numpy yields a negative number, zero, an infinity or
    [nan], which [Rpower] does not follow. Statements about the sign or
    the size of a chi term therefore assume positive areas or the
    exponent 0. *)
Definition chi_step (a0 thetaref : R) (self : Network R)
    (chi : list R) (n : nat) : result (list R) :=
  g ← getitem (_ix self) n;
  r ← getitem (_ixc self) n;
  c ← getitem chi r;
  d ← getitem (_dd self) n;
  a ← getitem (_ax self) n;
  setitem chi g (c + a0 * d / Rpower a thetaref)%R.

Definition calculate_chi (self : Network R) (thetaref a0 : R)
    : result (Network R) :=
  let chi := zeros 0%R (_ncells self) in
  chi ← foldM (chi_step a0 thetaref self) chi (arange_rev (length (_ix self)));
  chi ← take_at chi (_ix self);
  Ok (set_chi self chi).

(** [Network.__init__], lines 22-81. [winsize] is accepted and ignored. *)
Definition __init__ (dem : DEM.t) (flow : Flow.t)
    (threshold thetaref : R) (winsize : nat) : result (Network R) :=
  let size := Flow.get_size flow in
  let dims := Flow.get_dims flow in
  let geot := Flow.get_geotransform flow in
  let cellsize := Flow.get_cellsize flow in
  let proj := Flow.get_projection flow in
  let ncells := Flow.get_ncells flow in
  let threshold := effective_threshold ncells threshold in
  '(ix, ixc) ← select_edges flow threshold;
  fx ← take_at (Flow.get_flow_accumulation flow) ix;
  let ax := (fun a => a * cellsize ^ 2)%R <$> fx in
  zx ← take_at (DEM.read_array dem) ix;
  let di := zeros 0%R ncells in
  let dd := zeros 0%R (length ix) in
  '(di, dd) ← foldM (distance_step dims geot ix ixc) (di, dd)
                 (arange_rev (length ix));
  dx ← take_at di ix;
  let self :=
    mkNetwork size dims geot cellsize proj ncells ix ixc ax zx dd dx
      None None None None in
  self ← calculate_chi self thetaref 1;
  Ok (set_ksn self (zeros 0%R (length ix))).

(** ** Sparse matrices and 2-D arrays, as far as the class uses them *)

(** [scipy.sparse.csc_matrix((vals, (rows, cols)), shape)]: the matrix is
    kept as its list of entries; entries with the same position add up.
    scipy refuses entry lists of different lengths and positions outside
    the shape. The values of the source are [int8] ones. scipy takes the
    sums along an axis in the platform integer, where they cannot wrap;
    it adds entries of one and the same position in [int8], which would
    wrap only from 128 copies of one edge on and is left out here: the
    sums are those of the code when no edge is listed 128 times, and in
    particular when no cell gives twice. *)
Record csc := mk_csc {
  csc_shape : nat * nat;
  csc_entries : list (nat * nat * Z)
}.

Definition csc_matrix (vals : list Z) (rows cols : list nat)
    (shape : nat * nat) : result csc :=
  if decide (length rows = length vals ∧ length cols = length vals
             ∧ Forall (fun i => i < shape.1) rows
             ∧ Forall (fun j => j < shape.2) cols)
  then Ok (mk_csc shape (zip (zip rows cols) vals))
  else Raise ValueError.

Definition sum_list_Z (l : list Z) : Z := foldr Z.add 0%Z l.

(** [np.asarray(np.sum(m, 0)).ravel()]: one sum per column *)
Definition sum_axis0 (m : csc) : list Z :=
  (fun j => sum_list_Z (snd <$> filter (fun e => e.1.2 = j) (csc_entries m)))
    <$> seq 0 (csc_shape m).2.

(** [np.asarray(np.sum(m, 1)).ravel()]: one sum per row *)
Definition sum_axis1 (m : csc) : list Z :=
  (fun i => sum_list_Z (snd <$> filter (fun e => e.1.1 = i) (csc_entries m)))
    <$> seq 0 (csc_shape m).1.

(** A C-contiguous 2-D array: its shape and its elements in row-major
    order. *)
Record array2 (A : Type) := mk_array2 {
  shape : nat * nat;
  ravel : list A
}.
Arguments mk_array2 {A}.
Arguments shape {A}.
Arguments ravel {A}.

(** [a.reshape(dims)] for a 1-D array [a] *)
Definition reshape {A} (a : list A) (dims : nat * nat) : result (array2 A) :=
  if decide (length a = dims.1 * dims.2)
  then Ok (mk_array2 dims a)
  else Raise ValueError.

(** [np.where(m)] for a 2-D boolean array: the rows and the columns of the
    true elements, in row-major order *)
Definition where2 (m : array2 bool) : list nat * list nat :=
  let pos := filter (fun i => ravel m !! i = Some true)
                    (seq 0 (length (ravel m))) in
  ((fun i => i / (shape m).2) <$> pos, (fun i => i mod (shape m).2) <$> pos).

(** ** Points of interest *)

Inductive poi_array (F : Type) :=
  | RowCol (rc : list (nat * nat))   (* np.array((row, col)).T *)
  | MapXY (xy : list (F * F))        (* np.array((xi, yi)).T *)
  | Linear (ind : list nat).         (* self.cell_2_ind(row, col) *)
Arguments RowCol {F} rc.
Arguments MapXY {F} xy.
Arguments Linear {F} ind.

(** Lines 135-156 of [get_stream_poi]: the cells of the selected kind, as a
    boolean array over all cells. *)
Definition poi_mask {F} (self : Network F) (kind : string)
    : result (list bool) :=
  let w := zeros false (_ncells self) in
  w ← put_at w (_ix self) true;
  w ← put_at w (_ixc self) true;
  let aux_vals := zeros 1%Z (length (_ix self)) in
  sp_arr ← csc_matrix aux_vals (_ix self) (_ixc self)
              (_ncells self, _ncells self);
  if decide (kind = "heads") then
    let sum_arr := sum_axis0 sp_arr in
    Ok (zip_with (fun s b => bool_decide (s = 0%Z) && b) sum_arr w)
  else if decide (kind = "confluences") then
    let sum_arr := sum_axis0 sp_arr in
    Ok ((fun s => bool_decide (1 < s)%Z) <$> sum_arr)
  else
    let sum_arr := sum_axis1 sp_arr in
    Ok (zip_with (fun s b => bool_decide (s = 0%Z) && b) sum_arr w).

(** [get_stream_poi], lines 100-167. *)
Definition get_stream_poi {F} (self : Network F) (kind coords : string)
    : result (poi_array F) :=
  let kind :=
    if decide (kind ∈ ["heads"; "confluences"; "outlets"])
    then kind else "heads" in
  let coords :=
    if decide (coords ∈ ["CELL"; "XY"; "IND"]) then coords else "CELL" in
  out_pos ← poi_mask self kind;
  out_pos ← reshape out_pos (_dims self);
  let '(row, col) := where2 out_pos in
  if decide (coords = "CELL") then
    Ok (RowCol (zip row col))
  else if decide (coords = "XY") then
    Ok (MapXY (zip_with (cell_2_xy (_geot self)) row col))
  else
    ind ← forM (fun rc => cell_2_ind (_dims self) rc.1 rc.2) (zip row col);
    Ok (Linear ind).

(** The callers that ask for ["IND"] use the result as an index array. *)
Definition stream_poi_ind {F} (self : Network F) (kind : string)
    : result (list nat) :=
  p ← get_stream_poi self kind "IND";
  match p with
  | Linear ind => Ok ind
  | _ => Raise TypeError
  end.

(** ** Output grids *)

(** [Grid] is not among the sources; [_create_output_grid] copies the
    layout of the network into it and sets three attributes. *)
Record Grid (A : Type) := mk_Grid {
  grid_dims : nat * nat;
  grid_ncells : nat;
  _nodata : option Z;
  _array : array2 A;
  _tipo : string
}.
Arguments mk_Grid {A}.

Inductive raster (A : Type) :=
  | AsArray (a : array2 A)
  | AsGrid (g : Grid A).
Arguments AsArray {A} a.
Arguments AsGrid {A} g.

Definition _create_output_grid {F A} (self : Network F) (array : array2 A)
    (nodata_value : option Z) (dtype : string) : Grid A :=
  mk_Grid (_dims self) (_ncells self) nodata_value array dtype.

(** ** Fixed-width integers of the label arrays *)

Definition wrap (bits : Z) (z : Z) : Z :=
  ((z + 2 ^ (bits - 1)) mod 2 ^ bits - 2 ^ (bits - 1))%Z.
Definition int8 (z : Z) : Z := wrap 8 z.
Definition int32 (z : Z) : Z := wrap 32 z.

(** ** Channel raster, segments and stream order *)

(** [get_streams], lines 297-314. *)
Definition get_streams {F} (self : Network F) (asgrid : bool)
    : result (raster Z) :=
  let w := zeros 0%Z (_ncells self) in
  chcells ← getattr "_chcells" (_chcells self);
  w ← put_at w chcells 1%Z;
  w ← reshape w (_dims self);
  if asgrid then Ok (AsGrid (_create_output_grid self w (Some 0%Z) "int8"))
  else Ok (AsArray w).

(** The first loop of [get_stream_segments], lines 335-336. *)
Definition label_step (seg_arr : list Z) (p : nat * nat) : result (list Z) :=
  let '(n, inds) := p in
  setitem seg_arr inds (int32 (Z.of_nat n + 1)).

(** The second loop, lines 340-342. *)
Definition propagate_step (ix ixc : list nat) (seg_arr : list Z) (n : nat)
    : result (list Z) :=
  r ← getitem ixc n;
  sr ← getitem seg_arr r;
  if decide (sr = 0%Z) then
    g ← getitem ix n;
    sg ← getitem seg_arr g;
    setitem seg_arr r sg
  else Ok seg_arr.

(** The labelled cell array before it is reshaped, lines 327-342. *)
Definition segment_labels {F} (self : Network F) : result (list Z) :=
  head_ind ← stream_poi_ind self "heads";
  conf_ind ← stream_poi_ind self "confluences";
  let all_ind := head_ind ++ conf_ind in
  let seg_arr := zeros 0%Z (_ncells self) in
  seg_arr ← foldM label_step seg_arr (zip (seq 0 (length all_ind)) all_ind);
  foldM (propagate_step (_ix self) (_ixc self)) seg_arr
        (seq 0 (length (_ix self))).

(** [get_stream_segments], lines 316-349. *)
Definition get_stream_segments {F} (self : Network F) (asgrid : bool)
    : result (raster Z) :=
  seg_arr ← segment_labels self;
  seg_arr ← reshape seg_arr (_dims self);
  if asgrid
  then Ok (AsGrid (_create_output_grid self seg_arr (Some 0%Z) "int32"))
  else Ok (AsArray seg_arr).

(** The Strahler update of lines 371-375 on [(str_ord, visited)]. *)
Definition strahler_step (ix ixc : list nat) (s : list Z * list Z) (n : nat)
    : result (list Z * list Z) :=
  let '(str_ord, visited) := s in
  r ← getitem ixc n;
  g ← getitem ix n;
  o_r ← getitem str_ord r;
  o_g ← getitem str_ord g;
  vr ← getitem visited r;
  if decide (Z.land (if decide (o_r = o_g) then 1 else 0) vr ≠ 0)%Z then
    str_ord ← setitem str_ord r (int8 (o_r + 1));
    Ok (str_ord, visited)
  else
    str_ord ← setitem str_ord r (Z.max o_g o_r);
    visited ← setitem visited r 1%Z;
    Ok (str_ord, visited).

(** The Shreeve update of lines 378-382. *)
Definition shreeve_step (ix ixc : list nat) (s : list Z * list Z) (n : nat)
    : result (list Z * list Z) :=
  let '(str_ord, visited) := s in
  r ← getitem ixc n;
  vr ← getitem visited r;
  if decide (vr ≠ 0%Z) then
    o_r ← getitem str_ord r;
    g ← getitem ix n;
    o_g ← getitem str_ord g;
    str_ord ← setitem str_ord r (int8 (o_r + o_g));
    Ok (str_ord, visited)
  else
    g ← getitem ix n;
    o_g ← getitem str_ord g;
    o_r ← getitem str_ord r;
    str_ord ← setitem str_ord r (Z.max o_g o_r);
    visited ← setitem visited r 1%Z;
    Ok (str_ord, visited).

(** [get_stream_order], lines 351-388. An unknown [kind] returns [None]. *)
Definition get_stream_order {F} (self : Network F) (kind : string)
    (asgrid : bool) : result (option (raster Z)) :=
  if decide (kind ∈ ["strahler"; "shreeve"]) then
    let str_ord := zeros 0%Z (_ncells self) in
    chcells ← getattr "_chcells" (_chcells self);
    str_ord ← put_at str_ord chcells 1%Z;
    let visited := zeros 0%Z (_ncells self) in
    let edges := seq 0 (length (_ix self)) in
    '(str_ord, _) ←
      (if decide (kind = "strahler")
       then foldM (strahler_step (_ix self) (_ixc self)) (str_ord, visited) edges
       else foldM (shreeve_step (_ix self) (_ixc self)) (str_ord, visited) edges);
    str_ord ← reshape str_ord (_dims self);
    if asgrid
    then Ok (Some (AsGrid (_create_output_grid self str_ord (Some 0%Z) "int8")))
    else Ok (Some (AsArray str_ord))
  else Ok None.

(** ** Point snapping *)

(** The first position of the least element of a non-empty row. *)
Fixpoint argmin_from (best_pos : nat) (best : R) (pos : nat) (row : list R)
    : nat :=
  match row with
  | [] => best_pos
  | x :: row' =>
      if Rltb x best then argmin_from pos x (S pos) row'
      else argmin_from best_pos best (S pos) row'
  end.

(** [np.argmin(di, axis=1)] for an array of shape [(length di, m)]: numpy
    refuses a reduction over an axis of length zero, whatever the number
    of rows. *)
Definition argmin_axis1 (di : list (list R)) (m : nat) : result (list nat) :=
  if decide (m = 0) then Raise ValueError
  else Ok ((fun row =>
              match row with
              | [] => 0
              | x :: row' => argmin_from 0 x 1 row'
              end) <$> di).

(** The callers that ask for ["XY"] use the result as a coordinate array. *)
Definition stream_poi_xy {F} (self : Network F) (kind : string)
    : result (list (F * F)) :=
  p ← get_stream_poi self kind "XY";
  match p with
  | MapXY xy => Ok xy
  | _ => Raise TypeError
  end.

(** Lines 193-195: the coordinates of every giver. *)
Definition channel_xy {F} (self : Network F) : result (list (F * F)) :=
  forM (fun ind => '(row, col) ← ind_2_cell (_dims self) ind;
                   Ok (cell_2_xy (_geot self) row col)) (_ix self).

(** Lines 186-187: an unknown [kind] means ["channel"]. *)
Definition snap_kind (kind : string) : string :=
  if decide (kind ∈ ["channel"; "heads"; "confluences"; "outlets"])
  then kind else "channel".

(** Lines 190-195: the coordinates the points are snapped to. *)
Definition snap_reference (self : Network R) (kind : string)
    : result (list (R * R)) :=
  if decide (kind ∈ ["heads"; "confluences"; "outlets"])
  then stream_poi_xy self kind
  else channel_xy self.

(** [snap_points], lines 169-207, for a 2-D array of input points. *)
Definition snap_points (self : Network R) (input_points : list (R * R))
    (kind : string) : result (list (R * R)) :=
  let kind := snap_kind kind in
  poi ← snap_reference self kind;
  let xi := fst <$> input_points in
  let yi := snd <$> input_points in
  let xci := fst <$> poi in
  let yci := snd <$> poi in
  let di :=
    zip_with (fun x y =>
                zip_with (fun xc yc => sqrt ((x - xc) ^ 2 + (y - yc) ^ 2)%R)
                         xci yci) xi yi in
  pos ← argmin_axis1 di (length poi);
  take_at poi pos.

(** ** Arithmetic of the slope regression *)

Class Arith (F : Type) := {
  of_Z : Z → F;
  add : F → F → F;
  sub : F → F → F;
  mul : F → F → F;
  div : F → F → F;      (* a zero divisor is tested for before the call *)
  eqb : F → F → bool;
  ltb : F → F → bool
}.

#[global] Instance Arith_R : Arith R := {|
  of_Z := IZR; add := Rplus; sub := Rminus; mul := Rmult; div := Rdiv;
  eqb := Reqb; ltb := Rltb
|}.

(** Rationals in lowest terms, so that equal numbers are equal terms. *)
#[global] Instance Arith_Q : Arith Q := {|
  of_Z := inject_Z;
  add := fun a b => Qred (a + b);
  sub := fun a b => Qred (a - b);
  mul := fun a b => Qred (a * b);
  div := fun a b => Qred (a / b);
  eqb := Qeq_bool;
  ltb := fun a b => if Qlt_le_dec a b then true else false
|}.

(** A float that may have left the finite numbers: numpy divides by zero
    without raising and yields [nan] or an infinity. *)
Inductive npfloat (F : Type) :=
  | Finite (x : F)
  | NotFinite.
Arguments Finite {F} x.
Arguments NotFinite {F}.

Section Regression.
Context {F : Type} `{Arith F}.

Definition fsum (l : list F) : F := foldr add (of_Z 0) l.

Definition fmean (l : list F) : F :=
  div (fsum l) (of_Z (Z.of_nat (length l))).

(** [zi.var()]: the mean of the squared deviations from the mean, in the
    arithmetic of [F]. In exact arithmetic equal elevations have the
    variance 0; in binary64 they have it when their mean is computed
    exactly (as for 5, 5, 5) and may miss it by a rounding error when it
    is not. *)
Definition var (zi : list F) : F :=
  let m := fmean zi in
  fmean ((fun z => mul (sub z m) (sub z m)) <$> zi).

(** [np.polyfit(di, zi, deg=1, full=True)[:2]] as the least-squares line
    in exact arithmetic: the slope and the residual sum of squares.
    numpy returns an empty residual array when the system has no more
    rows than unknowns or is rank deficient (all [di] equal); the
    coefficients are then not modelled, since the next statement of the
    source raises on the empty array before it reads them. *)
Definition polyfit_deg1 (di zi : list F) : result (option (F * F)) :=
  if decide (length di = 0 ∨ length di ≠ length zi) then Raise TypeError
  else
    let n := of_Z (Z.of_nat (length di)) in
    let sx := fsum di in
    let sz := fsum zi in
    let sxx := fsum (zip_with mul di di) in
    let sxz := fsum (zip_with mul di zi) in
    let den := sub (mul n sxx) (mul sx sx) in
    if decide (length di ≤ 2) then Ok None
    else if eqb den (of_Z 0) then Ok None
    else
      let slope := div (sub (mul n sxz) (mul sx sz)) den in
      let icept := div (sub sz (mul slope sx)) n in
      let res := zip_with (fun d z => sub z (add (mul slope d) icept)) di zi in
      Ok (Some (slope, fsum (zip_with mul res res))).

(** [1 - SCR/(zi.size * zi.var())], the arithmetic of lines 240 and 283.
    The source divides without a test; a zero divisor gives [nan] or an
    infinity. *)
Definition r_squared (SCR : F) (zi : list F) : npfloat F :=
  let den := mul (of_Z (Z.of_nat (length zi))) (var zi) in
  if eqb den (of_Z 0) then NotFinite
  else Finite (sub (of_Z 1) (div SCR den)).

(** Lines 239-241 and 282-284: the fit of one window. [float(...)] of an
    empty residual array raises. *)
Definition fit_window (di zi : list F) : result (F * npfloat F) :=
  fit ← polyfit_deg1 di zi;
  match fit with
  | None => Raise TypeError
  | Some (slp, SCR) => Ok (slp, r_squared SCR zi)
  end.

(** [np.argsort(keys)] by insertion; numpy leaves the order of equal keys
    open, the model keeps them in their original order. *)
Fixpoint insert_sorted (keys : list F) (i : nat) (ki : F) (l : list nat)
    : list nat :=
  match l with
  | [] => [i]
  | j :: l' =>
      match keys !! j with
      | Some kj => if ltb kj ki then j :: insert_sorted keys i ki l'
                   else i :: l
      | None => i :: l
      end
  end.

Definition argsort (keys : list F) : list nat :=
  foldr (fun p l => insert_sorted keys p.1 p.2 l) []
        (zip (seq 0 (length keys)) keys).

(** [win.pop()] *)
Definition pop (win : list nat) : result (list nat) :=
  match win with
  | [] => Raise IndexError
  | _ => Ok (removelast win)
  end.

Definition sentinel : F := div (of_Z 1) (of_Z 100000).

(** The state of one traversal: the window, its middle cell, and the two
    result arrays. *)
Definition walk : Type := list nat * nat * list F * list (npfloat F).

(** [self._zx[ixcix[win]]], [self._dx[ixcix[win]]] and the fit. *)
Definition fit_at (self : Network F) (ixcix win : list nat)
    : result (F * npfloat F) :=
  pos ← take_at ixcix win;
  zi ← take_at (_zx self) pos;
  di ← take_at (_dx self) pos;
  fit_window di zi.

(** [self._ixc[ixcix[cell]]] *)
Definition downstream (self : Network F) (ixcix : list nat) (cell : nat)
    : result nat :=
  p ← getitem ixcix cell;
  getitem (_ixc self) p.

(** One pass through the body of the [while] loop, lines 246-291; the
    boolean is [processing]. *)
Definition slope_step (self : Network F) (ixcix : list nat) (winlen : Z)
    (st : walk) : result (walk * bool) :=
  let '(win, mcell, slopes, r2) := st in
  fcell ← getitem win 0;
  next_cell ← downstream self ixcix fcell;
  q ← getitem ixcix next_cell;
  '(win, mcell, slopes, r2, processing) ←
    (if decide (q ≠ 0) then
       let win := next_cell :: win in
       let fcell := next_cell in
       mcell ← downstream self ixcix mcell;
       if decide (Z.of_nat (length win) < winlen)%Z then
         next_cell ← downstream self ixcix fcell;
         Ok (next_cell :: win, mcell, slopes, r2, true)
       else
         win ← pop win;
         Ok (win, mcell, slopes, r2, true)
     else
       mcell ← downstream self ixcix mcell;
       win ← pop win;
       win ← pop win;
       if decide (length win = 3) then
         slopes ← setitem slopes fcell sentinel;
         r2 ← setitem r2 fcell (Finite sentinel);
         Ok (win, mcell, slopes, r2, false)
       else Ok (win, mcell, slopes, r2, true));
  '(slp, R2) ← fit_at self ixcix win;
  sm ← getitem slopes mcell;
  if eqb sm (of_Z 0) then
    slopes ← setitem slopes mcell slp;
    r2 ← setitem r2 mcell R2;
    Ok (win, mcell, slopes, r2, processing)
  else Ok (win, mcell, slopes, r2, false).

(** [while processing: ...] *)
Fixpoint slope_walk (fuel : nat) (self : Network F) (ixcix : list nat)
    (winlen : Z) (st : walk) : result walk :=
  match fuel with
  | 0 => Raise Unfinished
  | S fuel' =>
      '(st, processing) ← slope_step self ixcix winlen st;
      if processing : bool then slope_walk fuel' self ixcix winlen st
      else Ok st
  end.

(** The body of [for head in heads], lines 224-291. *)
Definition slope_head (fuel : nat) (self : Network F) (ixcix : list nat)
    (winlen : Z) (s : list F * list (npfloat F)) (head : nat)
    : result (list F * list (npfloat F)) :=
  let '(slopes, r2) := s in
  let lcell := head in
  mcell ← downstream self ixcix head;
  fcell ← downstream self ixcix mcell;
  q ← getitem ixcix fcell;
  skip ← (if decide (q = 0) then Ok true
          else c ← getitem (_ixc self) q;
               q' ← getitem ixcix c;
               Ok (bool_decide (q' = 0)));
  if skip : bool then Ok (slopes, r2)
  else
    let win := [fcell; mcell; lcell] in
    '(slp, R2) ← fit_at self ixcix win;
    slopes ← setitem slopes mcell slp;
    r2 ← setitem r2 mcell R2;
    '(_, _, slopes, r2) ← slope_walk fuel self ixcix winlen
                            (win, mcell, slopes, r2);
    Ok (slopes, r2).

(** Lines 210-221: the position of every giver in [_ix], and the heads
    from the highest to the lowest. *)
Definition slope_setup (self : Network F) : result (list nat * list nat) :=
  let ixcix := zeros 0 (_ncells self) in
  ixcix ← foldM (fun a p => setitem a p.2 p.1) ixcix
           (zip (seq 0 (length (_ix self))) (_ix self));
  heads ← stream_poi_ind self "heads";
  pos ← take_at ixcix heads;
  elev ← take_at (_zx self) pos;
  let spos := argsort ((fun z => sub (of_Z 0) z) <$> elev) in
  heads ← take_at heads spos;
  Ok (ixcix, heads).

(** The slope and R² arrays after the traversals of the given heads. *)
Definition slope_arrays (fuel : nat) (self : Network F) (ixcix : list nat)
    (npoints : Z) (heads : list nat) : result (list F * list (npfloat F)) :=
  let winlen := (npoints * 2 + 1)%Z in
  let slopes := zeros (of_Z 0) (_ncells self) in
  let r2 := zeros (Finite (of_Z 0)) (_ncells self) in
  foldM (slope_head fuel self ixcix winlen) (slopes, r2) heads.

(** [calculate_slope], lines 209-293. Every [while] loop gets [fuel]
    iterations. *)
Definition calculate_slope (fuel : nat) (self : Network F) (npoints : Z)
    : result (Network F) :=
  '(ixcix, heads) ← slope_setup self;
  '(slopes, _) ← slope_arrays fuel self ixcix npoints heads;
  slp ← take_at slopes (_ix self);
  Ok (set_slp self slp).

End Regression.

(** * Specification vocabulary *)

(** ** The flow graph *)

(** Upstream edges come first: an edge into a cell precedes the edge that
    leaves the cell, so that the reverse pass of the constructor meets the
    outgoing edge of a cell before any edge that feeds the cell. *)
Definition topologically_sorted (ix ixc : list nat) : Prop :=
  ∀ n m c, ixc !! n = Some c → ix !! m = Some c → n < m.

Record wf_edges (ncells : nat) (ix ixc : list nat) : Prop := {
  wf_length : length ixc = length ix;
  wf_ix : Forall (fun c => c < ncells) ix;
  wf_ixc : Forall (fun c => c < ncells) ixc
}.

Record wf_network {F} (self : Network F) : Prop := {
  wf_net_edges : wf_edges (_ncells self) (_ix self) (_ixc self);
  wf_net_dims : (_dims self).1 * (_dims self).2 = _ncells self
}.

Record wf_flow (dem : DEM.t) (flow : Flow.t) : Prop := {
  wf_flow_edges :
    wf_edges (Flow.get_ncells flow) (Flow._ix flow) (Flow._ixc flow);
  wf_flow_dims :
    (Flow.get_dims flow).1 * (Flow.get_dims flow).2 = Flow.get_ncells flow;
  wf_flow_fac : length (Flow.get_flow_accumulation flow) = Flow.get_ncells flow;
  wf_flow_dem : length (DEM.read_array dem) = Flow.get_ncells flow
}.

(** The length added at edge [n] by the reverse pass of the constructor. *)
Definition edge_length (dims : nat * nat) (geot : geotransform R)
    (ix ixc : list nat) (n : nat) : R :=
  match ix !! n, ixc !! n with
  | Some g, Some r =>
      match giver_receiver_distance dims geot g r with
      | Ok d => d
      | Raise _ => 0%R
      end
  | _, _ => 0%R
  end.

(** The term added at edge [n] by [calculate_chi]. *)
Definition chi_increment (self : Network R) (thetaref a0 : R) (n : nat) : R :=
  match _dd self !! n, _ax self !! n with
  | Some d, Some a => (a0 * d / Rpower a thetaref)%R
  | _, _ => 0%R
  end.

(** What a reverse pass has established once the edges from [k] on are
    done: the giver of each holds the value of its receiver plus the
    increment of the edge. *)
Definition accumulated (inc : nat → R) (ix ixc : list nat) (k : nat)
    (buf : list R) : Prop :=
  ∀ n g r, k ≤ n → ix !! n = Some g → ixc !! n = Some r →
    ∃ v, buf !! r = Some v ∧ buf !! g = Some ((v + inc n)%R).

(** The state of the loop of lines 66-73 once the edges from [k] on are
    done. *)
Definition distances_done (dims : nat * nat) (geot : geotransform R)
    (ncells : nat) (ix ixc : list nat) (k : nat) (s : list R * list R) : Prop :=
  length s.1 = ncells ∧ length s.2 = length ix ∧
  accumulated (edge_length dims geot ix ixc) ix ixc k s.1 ∧
  ∀ n g r, k ≤ n → ix !! n = Some g → ixc !! n = Some r →
    s.2 !! n = Some (edge_length dims geot ix ixc n) ∧
    giver_receiver_distance dims geot g r
      = Ok (edge_length dims geot ix ixc n).

(** The state of the loop of [calculate_chi] once the edges from [k] on
    are done. *)
Definition chi_done (self : Network R) (thetaref a0 : R) (k : nat)
    (buf : list R) : Prop :=
  length buf = _ncells self ∧
  accumulated (chi_increment self thetaref a0) (_ix self) (_ixc self) k buf ∧
  ∀ n, k ≤ n → n < length (_ix self) →
       ∃ d a, _dd self !! n = Some d ∧ _ax self !! n = Some a.

(** ** Edge selection *)

Definition exceeds (fac : list R) (threshold : R) (e : nat * nat) : Prop :=
  ∃ a, fac !! e.1 = Some a ∧ (threshold < a)%R.

#[global] Instance exceeds_dec fac threshold e : Decision (exceeds fac threshold e).
Proof.
  unfold exceeds. destruct (fac !! e.1) as [a|].
  - destruct (Rlt_dec threshold a) as [Hlt|Hge].
    + left. by exists a.
    + right. intros (a' & [= <-] & ?). done.
  - right. intros (a' & [=] & _).
Defined.

(** ** Networks that exist *)

(** The networks a program can hold: the constructor returned them, and
    the two methods that assign attributes may have run on them. No other
    method of the class assigns to [self]. *)
Inductive constructed : Network R → Prop :=
  | constructed_init dem flow threshold thetaref winsize self :
      __init__ dem flow threshold thetaref winsize = Ok self →
      constructed self
  | constructed_chi self thetaref a0 self' :
      constructed self →
      calculate_chi self thetaref a0 = Ok self' →
      constructed self'
  | constructed_slope fuel self npoints self' :
      constructed self →
      calculate_slope fuel self npoints = Ok self' →
      constructed self'.

(** ** Topology *)

(** The number of edges that flow into a cell. *)
Definition in_degree (ixc : list nat) (c : nat) : nat :=
  length (filter (fun r => r = c) ixc).

Definition channel_cell {F} (self : Network F) (c : nat) : Prop :=
  c ∈ _ix self ∨ c ∈ _ixc self.

Definition head {F} (self : Network F) (c : nat) : Prop :=
  in_degree (_ixc self) c = 0 ∧ channel_cell self c.

Definition confluence {F} (self : Network F) (c : nat) : Prop :=
  1 < in_degree (_ixc self) c.

#[global] Instance channel_cell_dec {F} (self : Network F) c :
  Decision (channel_cell self c).
Proof. unfold channel_cell. apply _. Defined.

#[global] Instance head_dec {F} (self : Network F) c : Decision (head self c).
Proof. unfold head. apply _. Defined.

#[global] Instance confluence_dec {F} (self : Network F) c :
  Decision (confluence self c).
Proof. unfold confluence. apply _. Defined.

(** The number of edges that leave a cell. *)
Definition out_degree (ix : list nat) (c : nat) : nat :=
  length (filter (fun g => g = c) ix).

Definition outlet {F} (self : Network F) (c : nat) : Prop :=
  out_degree (_ix self) c = 0 ∧ channel_cell self c.

#[global] Instance outlet_dec {F} (self : Network F) c : Decision (outlet self c).
Proof. unfold outlet. apply _. Defined.

(** An edge that stays inside a segment: it does not enter a confluence. *)
Definition segment_edge {F} (self : Network F) (a b : nat) : Prop :=
  (∃ n, _ix self !! n = Some a ∧ _ixc self !! n = Some b)
  ∧ ¬ confluence self b.

(** Two cells lie on the same path between consecutive boundaries when
    one is reached from the other along such edges. *)
Definition same_segment {F} (self : Network F) (a b : nat) : Prop :=
  rtc (segment_edge self) a b ∨ rtc (segment_edge self) b a.

(** Cells that such edges connect, in whatever direction. *)
Definition segment_connected {F} (self : Network F) : relation nat :=
  rtsc (segment_edge self).

(** [all_ind] of [get_stream_segments]: the heads, then the confluences. *)
Definition boundaries {F} (self : Network F) : list nat :=
  filter (head self) (seq 0 (_ncells self))
  ++ filter (confluence self) (seq 0 (_ncells self)).

(** The first loop: the boundaries carry their rank, the rest is zero. *)
Definition labelled {F} (self : Network F) (k : nat) (s : list Z) : Prop :=
  length s = _ncells self ∧
  (∀ j c, j < k → boundaries self !! j = Some c →
          s !! c = Some (Z.of_nat j + 1)%Z) ∧
  (∀ c, c < _ncells self → (∀ j, j < k → boundaries self !! j ≠ Some c) →
        s !! c = Some 0%Z).

(** The second loop once the first [k] edges are done. *)
Definition propagated {F} (self : Network F) (k : nat) (s : list Z) : Prop :=
  length s = _ncells self ∧
  (∀ j c, boundaries self !! j = Some c → s !! c = Some (Z.of_nat j + 1)%Z) ∧
  (∀ n g r, n < k → _ix self !! n = Some g → _ixc self !! n = Some r →
     ∃ id, id ≠ 0%Z ∧ s !! g = Some id ∧
           (¬ confluence self r → s !! r = Some id)) ∧
  (∀ c, c < _ncells self → c ∉ boundaries self →
        (∀ n, n < k → _ixc self !! n ≠ Some c) → s !! c = Some 0%Z) ∧
  (∀ c id, s !! c = Some id → id ≠ 0%Z →
     ∃ j b, boundaries self !! j = Some b ∧ id = (Z.of_nat j + 1)%Z ∧
            segment_connected self b c).

(** ** Further vocabulary *)

(** What the success of the loop of lines 66-73 alone tells about the
    edges and the two arrays, whatever the order of the edges. *)
Definition distance_scratch (dims : nat * nat) (geot : geotransform R)
    (ncells : nat) (ix ixc : list nat) (k : nat) (s : list R * list R) : Prop :=
  length s.1 = ncells ∧ length s.2 = length ix ∧
  Forall (fun v => (0 <= v)%R) s.1 ∧ Forall (fun v => (0 <= v)%R) s.2 ∧
  (∀ n, k ≤ n → n < length ix →
     s.2 !! n = Some (edge_length dims geot ix ixc n)) ∧
  (∀ n g, k ≤ n → ix !! n = Some g →
     g < ncells ∧ g < dims.1 * dims.2 ∧
     ∃ r, ixc !! n = Some r ∧ r < ncells ∧ r < dims.1 * dims.2) ∧
  ∀ c, c ∉ ix → c < ncells → s.1 !! c = Some 0%R.

(** An index array in strictly increasing order. *)
Definition ascending (l : list nat) : Prop :=
  ∀ i j a b, i < j → l !! i = Some a → l !! j = Some b → a < b.

(** The planar distance between two points of the map: the distance that
    [snap_points] minimises, line 204, and the length of an edge. *)
Definition planar_distance (p q : R * R) : R :=
  sqrt ((p.1 - q.1) ^ 2 + (p.2 - q.2) ^ 2)%R.

(** The map coordinates of the cell with linear index [c] of a row-major
    raster with [(_dims self).2] columns. *)
Definition cell_coordinates {F} (self : Network F) (c : nat) : F * F :=
  _geot self (c / (_dims self).2) (c mod (_dims self).2).

(** Positions in the order of their keys. *)
Definition key_le (keys : list R) (a b : nat) : Prop :=
  ∃ ka kb, keys !! a = Some ka ∧ keys !! b = Some kb ∧ (ka <= kb)%R.

Fixpoint key_sorted (keys : list R) (l : list nat) : Prop :=
  match l with
  | [] => True
  | j :: l' => Forall (key_le keys j) l' ∧ key_sorted keys l'
  end.

(** The sum of the weights [w] of the edges on the way from edge [n]
    down to an outlet. *)
Inductive path_sum (ix ixc : list nat) (w : list R) : nat → R → Prop :=
  | path_sum_outlet n r d :
      ixc !! n = Some r → r ∉ ix → w !! n = Some d →
      path_sum ix ixc w n d
  | path_sum_step n m c d s :
      ixc !! n = Some c → ix !! m = Some c → w !! n = Some d →
      path_sum ix ixc w m s →
      path_sum ix ixc w n (d + s)%R.

(** ** Example networks *)

(** A straight channel of three cells on a raster of one row,
    0 -> 1 -> 2, as the flow graph and the terrain handed to the
    constructor. *)
Definition line_flow : Flow.t :=
  Flow.mk (1, 3) (1, 3) (fun row col => (INR col, INR row)) 1%R "" 3
    [0; 1] [1; 2] [10; 20; 30]%R.

Definition line_dem : DEM.t := DEM.mk [3; 2; 1]%R.

(** The straight channel again, as a network given directly. *)
Definition line_network : Network R :=
  mkNetwork (1, 3) (1, 3) (fun row col => (INR col, INR row)) 1%R "" 3
    [0; 1] [1; 2] [10; 20]%R [3; 2]%R [1; 1]%R [2; 1]%R None None None None.

(** A raster of three cells in which no cell passes the threshold. *)
Definition empty_network : Network R :=
  mkNetwork (1, 3) (1, 3) (fun row col => (INR col, INR row)) 1%R "" 3
    [] [] [] [] [] [] None None None None.

(** Two heads, 0 and 1, that meet in cell 2; the channel goes on through
    3, 4 and 5 to the outlet 6, which a third head, 7, reaches directly.
    A raster of two rows and four columns; elevations and distances of the
    givers are in [_zx] and [_dx]. [chcells] fills the slot that the
    class itself never assigns. *)
Definition y_network (chcells : option (list nat)) : Network Q :=
  mkNetwork (2, 4) (2, 4)
    (fun row col => (inject_Z (Z.of_nat col), inject_Z (Z.of_nat row)))
    1%Q "" 8
    [7; 0; 1; 2; 3; 4; 5] [6; 2; 2; 3; 4; 5; 6]
    [1; 1; 1; 2; 2; 2; 2]%Q
    [50; 100; 85; 80; 70; 60; 55]%Q
    [1; 1; 2; 1; 1; 1; 1]%Q
    [1; 5; 6; 4; 3; 2; 1]%Q
    None None None chcells.


(** A flow graph whose second giver lies outside the raster of three
    cells. *)
Definition stray_flow : Flow.t :=
  Flow.mk (1, 3) (1, 3) (fun row col => (INR col, INR row)) 1%R "" 3
    [0; 7] [1; 2] [10; 20; 30]%R.

(** Two heads, 0 and 1, that meet in cell 2, which drains into the
    outlet 3; a raster of one row. *)
Definition fork_network : Network R :=
  mkNetwork (1, 4) (1, 4) (fun row col => (INR col, INR row)) 1%R "" 4
    [0; 1; 2] [2; 2; 3] [10; 10; 20]%R [30; 40; 20]%R [2; 1; 1]%R [3; 2; 1]%R
    None None None None.

(** * Properties *)

(** ** The error monad and the array operations *)

Lemma bind_Ok {A B} (m : result A) (f : A → result B) b :
  m ≫= f = Ok b ↔ ∃ a, m = Ok a ∧ f a = Ok b.
Proof.
  destruct m as [a|e]; simpl; split.
  - eauto.
  - intros (a' & [= ->] & ?); done.
  - done.
  - intros (a' & ? & _); done.
Qed.

Lemma getitem_Ok {A} (a : list A) i x : getitem a i = Ok x ↔ a !! i = Some x.
Proof. unfold getitem. destruct (a !! i); split; congruence. Qed.

Lemma setitem_Ok {A} (a : list A) i v a' :
  setitem a i v = Ok a' ↔ i < length a ∧ a' = <[i := v]> a.
Proof.
  unfold setitem. case_decide; split.
  - intros [= <-]; done.
  - intros [_ ->]; done.
  - done.
  - intros [? _]; lia.
Qed.

Lemma forM_Ok {A B} (f : A → result B) l ys :
  forM f l = Ok ys ↔ Forall2 (fun x y => f x = Ok y) l ys.
Proof.
  revert ys. induction l as [|x l IH]; intros ys; simpl.
  - split; [intros [= <-]; constructor | by inversion 1].
  - rewrite bind_Ok. split.
    + intros (y & Hy & H). apply bind_Ok in H as (ys' & Hys & [= <-]).
      constructor; [done | by apply IH].
    + inversion 1 as [|???? Hy Hys]; subst. exists y. split; [done|].
      apply bind_Ok. eexists. split; [by apply IH | done].
Qed.

Lemma take_at_Ok {A} (a : list A) idx l :
  take_at a idx = Ok l ↔ Forall2 (fun i x => a !! i = Some x) idx l.
Proof.
  unfold take_at. rewrite forM_Ok.
  split; intros Hl; (eapply Forall2_impl; [exact Hl|]); intros ??; apply getitem_Ok.
Qed.

Lemma foldM_app {S A} (step : S → A → result S) s l1 l2 :
  foldM step s (l1 ++ l2) = s' ← foldM step s l1; foldM step s' l2.
Proof.
  revert s. induction l1 as [|x l1 IH]; intros s; simpl; [done|].
  destruct (step s x); simpl; [apply IH | done].
Qed.

Lemma foldM_seq_inv {S} (I : nat → S → Prop) (step : S → nat → result S) s0 len :
  I 0 s0 →
  (∀ k s, k < len → I k s → ∃ s', step s k = Ok s' ∧ I (Datatypes.S k) s') →
  ∃ s', foldM step s0 (seq 0 len) = Ok s' ∧ I len s'.
Proof.
  intros H0 Hstep. induction len as [|len IH].
  - exists s0. done.
  - destruct IH as (s1 & Hs1 & HI1).
    { intros k s Hk; apply Hstep; lia. }
    destruct (Hstep len s1) as (s2 & Hs2 & HI2); [lia | done |].
    exists s2. rewrite seq_S, foldM_app, Hs1. simpl. by rewrite Hs2.
Qed.

Lemma arange_rev_S n : arange_rev (S n) = n :: arange_rev n.
Proof. unfold arange_rev. by rewrite seq_S, rev_unit. Qed.

Lemma foldM_arange_rev_inv {S} (I : nat → S → Prop)
    (step : S → nat → result S) s0 len :
  I len s0 →
  (∀ k s, k < len → I (Datatypes.S k) s → ∃ s', step s k = Ok s' ∧ I k s') →
  ∃ s', foldM step s0 (arange_rev len) = Ok s' ∧ I 0 s'.
Proof.
  revert s0. induction len as [|len IH]; intros s0 H0 Hstep.
  - exists s0. done.
  - rewrite arange_rev_S. simpl.
    destruct (Hstep len s0) as (s1 & -> & HI1); [lia | done |]. simpl.
    apply IH; [done|]. intros k s Hk; apply Hstep; lia.
Qed.

Lemma setitem_lt {A} (a : list A) i v :
  i < length a → setitem a i v = Ok (<[i := v]> a).
Proof. intros. unfold setitem. by rewrite decide_True. Qed.

Lemma getitem_lt {A} (a : list A) i :
  i < length a → ∃ x, getitem a i = Ok x ∧ a !! i = Some x.
Proof.
  intros Hi. destruct (lookup_lt_is_Some_2 a i Hi) as [x Hx].
  exists x. split; [by apply getitem_Ok | done].
Qed.

(** put_at *)
Lemma put_at_Ok {A} (a : list A) idx v :
  Forall (fun i => i < length a) idx →
  ∃ a', put_at a idx v = Ok a' ∧ length a' = length a ∧
        ∀ i, a' !! i = if decide (i ∈ idx ∧ i < length a) then Some v else a !! i.
Proof.
  unfold put_at. revert a. induction idx as [|j idx IH]; intros a Hb; cbn [foldM].
  - exists a. split; [done|]. split; [done|]. intros i.
    case_decide as Hi; [|done]. destruct Hi as [Hi _]. by apply elem_of_nil in Hi.
  - apply Forall_cons in Hb as [Hj Hb]. rewrite setitem_lt by done.
    cbn [mbind result_bind].
    destruct (IH (<[j:=v]> a)) as (a' & Ha' & Hlen & Hl).
    { by rewrite length_insert. }
    exists a'. split; [done|]. rewrite length_insert in Hlen. split; [done|].
    intros i. rewrite Hl, length_insert.
    destruct (decide (i = j)) as [->|Hne].
    + rewrite list_lookup_insert_eq by done.
      rewrite (decide_True (P := j ∈ j :: idx ∧ j < length a))
        by (split; [apply elem_of_cons; by left | done]).
      by case_decide.
    + rewrite list_lookup_insert_ne by done. apply decide_ext.
      rewrite elem_of_cons. intuition congruence.
Qed.

(** ** Edge selection of the constructor *)

Lemma Rltb_true a b : Rltb a b = true ↔ (a < b)%R.
Proof. unfold Rltb. destruct (Rlt_dec a b); split; intros; done. Qed.

Lemma Reqb_true a b : Reqb a b = true ↔ a = b.
Proof. unfold Reqb. destruct (Req_dec_T a b); split; intros; done. Qed.

Lemma Reqb_refl a : Reqb a a = true.
Proof. by apply Reqb_true. Qed.

Lemma effective_threshold_zero n :
  effective_threshold n 0 = effective_threshold n (INR n * (5 / 1000)).
Proof.
  unfold effective_threshold. rewrite Reqb_refl.
  destruct (Reqb (INR n * (5 / 1000)) 0); done.
Qed.

Lemma effective_threshold_nonzero n t : t ≠ 0%R → effective_threshold n t = t.
Proof.
  intros Ht. unfold effective_threshold.
  destruct (Reqb t 0) eqn:E; [|done]. by apply Reqb_true in E.
Qed.

Lemma compress_Ok {A} (a : list A) mask l :
  compress a mask = Ok l ↔
  length mask = length a ∧ l = fst <$> filter (fun p => snd p = true) (zip a mask).
Proof.
  unfold compress. case_decide; split.
  - intros [= <-]. done.
  - intros [_ ->]. done.
  - done.
  - intros [? _]. done.
Qed.

Lemma compress_zip (P : nat → bool) (ix ixc : list nat) (I : list bool) :
  Forall2 (fun i b => P i = b) ix I → length ixc = length ix →
  let ix' := fst <$> filter (fun p => snd p = true) (zip ix I) in
  let ixc' := fst <$> filter (fun p => snd p = true) (zip ixc I) in
  length ix' = length ixc' ∧
  zip ix' ixc' = filter (fun e => P e.1 = true) (zip ix ixc).
Proof.
  intros HI. revert ixc. induction HI as [|g b ix I Hb HI IH]; intros ixc Hlen.
  - by destruct ixc.
  - destruct ixc as [|r ixc]; [done|]. simpl in Hlen. injection Hlen as Hlen.
    destruct (IH ixc Hlen) as [IH1 IH2].
    cbn [zip zip_with]. rewrite !filter_cons. simpl. subst b.
    destruct (P g) eqn:E.
    + rewrite !decide_True by done. cbn. split; [by f_equal | by f_equal].
    + rewrite !decide_False by done. done.
Qed.

Lemma select_edges_Ok flow t ix ixc :
  select_edges flow t = Ok (ix, ixc) →
  length (Flow._ixc flow) = length (Flow._ix flow) ∧
  length ix = length ixc ∧
  zip ix ixc = filter (exceeds (Flow.get_flow_accumulation flow) t)
                      (zip (Flow._ix flow) (Flow._ixc flow)).
Proof.
  unfold select_edges. intros H.
  apply bind_Ok in H as (I & HI & H).
  apply bind_Ok in H as (ix' & Hix & H).
  apply bind_Ok in H as (ixc' & Hixc & [= <- <-]).
  apply compress_Ok in Hix as [Hl1 ->]. apply compress_Ok in Hixc as [Hl2 ->].
  apply take_at_Ok in HI.
  assert (Hlen : length (Flow._ixc flow) = length (Flow._ix flow)) by congruence.
  split; [done|].
  pose (P := fun g => match Flow.get_flow_accumulation flow !! g with
                      | Some a => Rltb t a | None => false end).
  assert (HP : Forall2 (fun i b => P i = b) (Flow._ix flow) I).
  { eapply Forall2_impl; [exact HI|]. intros g b. unfold P.
    rewrite list_lookup_fmap. destruct (_ !! g); simpl; congruence. }
  destruct (compress_zip P _ _ _ HP Hlen) as [Hz1 Hz2].
  split; [done|]. rewrite Hz2.
  apply list_filter_iff. intros e. unfold P, exceeds.
  destruct (_ !! e.1) as [a|].
  - rewrite Rltb_true. split; [intros; by exists a | intros (a' & [= <-] & ?); done].
  - split; [done | intros (a' & [=] & _)].
Qed.

Lemma calculate_chi_Ok self thetaref a0 self' :
  calculate_chi self thetaref a0 = Ok self' →
  ∃ buf chi,
    foldM (chi_step a0 thetaref self) (zeros 0%R (_ncells self))
          (arange_rev (length (_ix self))) = Ok buf ∧
    take_at buf (_ix self) = Ok chi ∧
    self' = set_chi self chi.
Proof.
  unfold calculate_chi. intros H.
  apply bind_Ok in H as (buf & Hbuf & H).
  apply bind_Ok in H as (chi & Hchi & [= <-]).
  by exists buf, chi.
Qed.

Lemma init_Ok dem flow threshold thetaref winsize self :
  __init__ dem flow threshold thetaref winsize = Ok self →
  let ncells := Flow.get_ncells flow in
  let dims := Flow.get_dims flow in
  let geot := Flow.get_geotransform flow in
  let cellsize := Flow.get_cellsize flow in
  ∃ ix ixc fx zx di dd dx chi,
    select_edges flow (effective_threshold ncells threshold) = Ok (ix, ixc) ∧
    take_at (Flow.get_flow_accumulation flow) ix = Ok fx ∧
    take_at (DEM.read_array dem) ix = Ok zx ∧
    foldM (distance_step dims geot ix ixc)
          (zeros 0%R ncells, zeros 0%R (length ix))
          (arange_rev (length ix)) = Ok (di, dd) ∧
    take_at di ix = Ok dx ∧
    let self0 :=
      mkNetwork (Flow.get_size flow) dims geot cellsize
        (Flow.get_projection flow) ncells ix ixc
        ((fun a => a * cellsize ^ 2)%R <$> fx) zx dd dx None None None None in
    calculate_chi self0 thetaref 1 = Ok (set_chi self0 chi) ∧
    self = set_ksn (set_chi self0 chi) (zeros 0%R (length ix)).
Proof.
  unfold __init__. intros H. cbv zeta.
  apply bind_Ok in H as ([ix ixc] & Hsel & H).
  apply bind_Ok in H as (fx & Hfx & H).
  apply bind_Ok in H as (zx & Hzx & H).
  apply bind_Ok in H as ([di dd] & Hfold & H).
  apply bind_Ok in H as (dx & Hdx & H).
  apply bind_Ok in H as (self1 & Hchi & [= <-]).
  pose proof Hchi as Hchi'.
  apply calculate_chi_Ok in Hchi' as (buf & chi & _ & _ & ->).
  exists ix, ixc, fx, zx, di, dd, dx, chi. done.
Qed.

(** C10. Construction with threshold 0 is construction with the threshold
    0.005 * ncells, and the edges [(_ix, _ixc)] of the network are exactly
    the edges of the flow graph, in their order, whose giver has a flow
    accumulation strictly above the threshold in force (the default when 0
    was passed, the threshold itself otherwise). *)
Theorem threshold_selects_edges dem flow thetaref winsize :
  let ncells := Flow.get_ncells flow in
  let fac := Flow.get_flow_accumulation flow in
  let edges := zip (Flow._ix flow) (Flow._ixc flow) in
  let default := (INR ncells * (5 / 1000))%R in
  __init__ dem flow 0 thetaref winsize
    = __init__ dem flow default thetaref winsize
  ∧ (∀ self, __init__ dem flow 0 thetaref winsize = Ok self →
       length (_ix self) = length (_ixc self) ∧
       zip (_ix self) (_ixc self) = filter (exceeds fac default) edges)
  ∧ (∀ threshold self, threshold ≠ 0%R →
       __init__ dem flow threshold thetaref winsize = Ok self →
       length (_ix self) = length (_ixc self) ∧
       zip (_ix self) (_ixc self) = filter (exceeds fac threshold) edges).
Proof.
  cbv zeta. split; [|split].
  - unfold __init__. by rewrite effective_threshold_zero.
  - intros self H. apply init_Ok in H. cbv zeta in H.
    destruct H as (ix & ixc & fx & zx & di & dd & dx & chi & Hsel & _ & _ & _ & _ & _ & ->).
    apply select_edges_Ok in Hsel as (_ & Hlen & Hz). simpl.
    unfold effective_threshold in Hz. rewrite Reqb_refl in Hz. done.
  - intros threshold self Hne H. apply init_Ok in H. cbv zeta in H.
    destruct H as (ix & ixc & fx & zx & di & dd & dx & chi & Hsel & _ & _ & _ & _ & _ & ->).
    apply select_edges_Ok in Hsel as (_ & Hlen & Hz). simpl.
    rewrite effective_threshold_nonzero in Hz by done. done.
Qed.

(** ** The reverse passes *)

Lemma topologically_sorted_cons g r ix ixc :
  topologically_sorted (g :: ix) (r :: ixc) ↔
  g ≠ r ∧ (g ∉ ixc) ∧ topologically_sorted ix ixc.
Proof.
  unfold topologically_sorted. split.
  - intros H. split; [|split].
    + intros ->. specialize (H 0 0 r eq_refl eq_refl). lia.
    + intros (n & Hn)%list_elem_of_lookup.
      specialize (H (S n) 0 g Hn eq_refl). lia.
    + intros n m c Hn Hm. specialize (H (S n) (S m) c Hn Hm). lia.
  - intros (Hne & Hnin & H) n m c Hn Hm.
    destruct n as [|n], m as [|m]; simpl in *; simplify_eq; try lia.
    + exfalso. apply Hnin. apply list_elem_of_lookup. eauto.
    + specialize (H n m c Hn Hm). lia.
Qed.

Lemma sublist_fmap {A B} (f : A → B) (l1 l2 : list A) :
  l1 `sublist_of` l2 → f <$> l1 `sublist_of` f <$> l2.
Proof. induction 1; simpl; constructor; done. Qed.

Lemma topologically_sorted_sublist (es' es : list (nat * nat)) :
  es' `sublist_of` es →
  topologically_sorted es.*1 es.*2 → topologically_sorted es'.*1 es'.*2.
Proof.
  induction 1 as [|[g r] l1 l2 Hs IH|[g r] l1 l2 Hs IH]; simpl.
  - done.
  - rewrite !topologically_sorted_cons. intros (? & Hnin & ?).
    split; [done|]. split; [|by apply IH].
    intros Hin. apply Hnin. eapply sublist_subseteq; [|exact Hin].
    by apply sublist_fmap.
  - rewrite topologically_sorted_cons. intros (_ & _ & ?). by apply IH.
Qed.

(** The selected edges keep the shape of the flow graph. *)
Lemma select_edges_graph flow t ix ixc :
  select_edges flow t = Ok (ix, ixc) →
  length ix = length ixc ∧
  ix ⊆ Flow._ix flow ∧ ixc ⊆ Flow._ixc flow ∧
  (NoDup (Flow._ix flow) → NoDup ix) ∧
  (topologically_sorted (Flow._ix flow) (Flow._ixc flow) →
   topologically_sorted ix ixc).
Proof.
  intros (Hl0 & Hlen & Hz)%select_edges_Ok.
  set (es := zip (Flow._ix flow) (Flow._ixc flow)) in *.
  set (es' := zip ix ixc) in *.
  assert (Hsub : es' `sublist_of` es) by (rewrite Hz; apply sublist_filter).
  assert (H1 : es.*1 = Flow._ix flow) by (apply fst_zip; lia).
  assert (H2 : es.*2 = Flow._ixc flow) by (apply snd_zip; lia).
  assert (H1' : es'.*1 = ix) by (apply fst_zip; lia).
  assert (H2' : es'.*2 = ixc) by (apply snd_zip; lia).
  split; [done|].
  rewrite <- H1, <- H2, <- H1', <- H2'.
  split; [by apply sublist_subseteq, sublist_fmap|].
  split; [by apply sublist_subseteq, sublist_fmap|].
  split.
  - intros Hnd. eapply sublist_NoDup; [exact Hnd | by apply sublist_fmap].
  - by apply topologically_sorted_sublist.
Qed.

Lemma foldM_arange_rev_Ok_inv {S} (I : nat → S → Prop)
    (step : S → nat → result S) s0 len s' :
  foldM step s0 (arange_rev len) = Ok s' →
  I len s0 →
  (∀ k s s1, k < len → I (Datatypes.S k) s → step s k = Ok s1 → I k s1) →
  I 0 s'.
Proof.
  revert s0. induction len as [|len IH]; intros s0 Hf H0 Hstep.
  - by injection Hf as <-.
  - rewrite arange_rev_S in Hf. simpl in Hf.
    apply bind_Ok in Hf as (s1 & Hs1 & Hf).
    apply (IH s1); [done| |].
    + apply (Hstep len s0); [lia|done..].
    + intros k s s2 Hk. apply Hstep. lia.
Qed.

Lemma accumulated_step inc ix ixc k buf g r v :
  NoDup ix → topologically_sorted ix ixc →
  accumulated inc ix ixc (S k) buf →
  ix !! k = Some g → ixc !! k = Some r →
  buf !! r = Some v → g < length buf →
  accumulated inc ix ixc k (<[g := (v + inc k)%R]> buf).
Proof.
  intros Hnd Htopo Hacc Hg Hr Hv Hlt n g' r' Hn Hg' Hr'.
  destruct (decide (n = k)) as [->|Hne].
  - assert (g' = g) as -> by congruence. assert (r' = r) as -> by congruence.
    exists v. split.
    + rewrite list_lookup_insert_ne; [done|].
      intros ->. specialize (Htopo k k r Hr Hg). lia.
    + by rewrite list_lookup_insert_eq.
  - destruct (Hacc n g' r') as (v' & Hv' & Hgv'); [lia|done..|].
    exists v'. split.
    + rewrite list_lookup_insert_ne; [done|].
      intros ->. specialize (Htopo n k r' Hr' Hg). lia.
    + rewrite list_lookup_insert_ne; [done|].
      intros ->. apply Hne. by eapply NoDup_lookup.
Qed.

Lemma accumulated_final inc ix ixc buf xs n m c :
  accumulated inc ix ixc 0 buf → length ix = length ixc →
  take_at buf ix = Ok xs →
  ixc !! n = Some c → ix !! m = Some c →
  ∃ xn xm, xs !! n = Some xn ∧ xs !! m = Some xm ∧ xn = (xm + inc n)%R.
Proof.
  intros Hacc Hlen Hxs Hn Hm.
  destruct (lookup_lt_is_Some_2 ix n) as [g Hg].
  { rewrite Hlen. by eapply lookup_lt_Some. }
  destruct (Hacc n g c) as (v & Hv & Hgv); [lia|done..|].
  apply take_at_Ok in Hxs.
  destruct (Forall2_lookup_l _ _ _ _ _ Hxs Hg) as (xn & Hxn & Hbn).
  destruct (Forall2_lookup_l _ _ _ _ _ Hxs Hm) as (xm & Hxm & Hbm).
  exists xn, xm. split; [done|]. split; [done|]. congruence.
Qed.

Lemma giver_receiver_distance_nonneg dims geot g r d :
  giver_receiver_distance dims geot g r = Ok d → (0 <= d)%R.
Proof.
  unfold giver_receiver_distance. intros H.
  apply bind_Ok in H as ([grow gcol] & _ & H).
  apply bind_Ok in H as ([rrow rcol] & _ & H).
  destruct (cell_2_xy geot grow gcol), (cell_2_xy geot rrow rcol).
  injection H as <-. apply sqrt_pos.
Qed.

Lemma edge_length_nonneg dims geot ix ixc n :
  (0 <= edge_length dims geot ix ixc n)%R.
Proof.
  unfold edge_length. destruct (ix !! n), (ixc !! n); try lra.
  destruct (giver_receiver_distance _ _ _ _) eqn:E; [|lra].
  by eapply giver_receiver_distance_nonneg.
Qed.

Lemma distance_step_Ok dims geot ix ixc di dd k s' :
  distance_step dims geot ix ixc (di, dd) k = Ok s' →
  ∃ g r v,
    ix !! k = Some g ∧ ixc !! k = Some r ∧ di !! r = Some v ∧
    k < length dd ∧ g < length di ∧
    giver_receiver_distance dims geot g r
      = Ok (edge_length dims geot ix ixc k) ∧
    s' = (<[g := (v + edge_length dims geot ix ixc k)%R]> di,
          <[k := edge_length dims geot ix ixc k]> dd).
Proof.
  unfold distance_step. intros H.
  apply bind_Ok in H as (g & Hg%getitem_Ok & H).
  apply bind_Ok in H as (r & Hr%getitem_Ok & H).
  apply bind_Ok in H as (d & Hd & H).
  apply bind_Ok in H as (dd' & [Hk ->]%setitem_Ok & H).
  apply bind_Ok in H as (v & Hv%getitem_Ok & H).
  apply bind_Ok in H as (di' & [Hgl ->]%setitem_Ok & [= <-]).
  exists g, r, v. unfold edge_length. rewrite Hg, Hr, Hd. done.
Qed.

Lemma distances_done_step dims geot ncells ix ixc k s s' :
  NoDup ix → topologically_sorted ix ixc →
  distances_done dims geot ncells ix ixc (S k) s →
  distance_step dims geot ix ixc s k = Ok s' →
  distances_done dims geot ncells ix ixc k s'.
Proof.
  intros Hnd Htopo (Hl1 & Hl2 & Hacc & Hdd) Hstep.
  destruct s as [di dd].
  apply distance_step_Ok in Hstep
    as (g & r & v & Hg & Hr & Hv & Hk & Hgl & Hd & ->).
  unfold distances_done. simpl in *. split; [by rewrite length_insert|].
  split; [by rewrite length_insert|]. split.
  - by eapply accumulated_step.
  - intros n g' r' Hn Hg' Hr'. destruct (decide (n = k)) as [->|Hne].
    + rewrite list_lookup_insert_eq by done. split; [done|]. congruence.
    + rewrite list_lookup_insert_ne by done. apply Hdd; [lia|done..].
Qed.

Lemma distances_done_init dims geot ncells ix ixc :
  distances_done dims geot ncells ix ixc (length ix)
    (zeros 0%R ncells, zeros 0%R (length ix)).
Proof.
  unfold distances_done, zeros. simpl. split; [by rewrite length_replicate|].
  split; [by rewrite length_replicate|]. split.
  - intros n g r Hn Hg. apply lookup_lt_Some in Hg. lia.
  - intros n g r Hn Hg. apply lookup_lt_Some in Hg. lia.
Qed.

(** What the constructor guarantees about the network it returns, given
    the two invariants of the flow graph. *)
Lemma init_distances dem flow threshold thetaref winsize self :
  NoDup (Flow._ix flow) →
  topologically_sorted (Flow._ix flow) (Flow._ixc flow) →
  __init__ dem flow threshold thetaref winsize = Ok self →
  let len := edge_length (_dims self) (_geot self) (_ix self) (_ixc self) in
  length (_ix self) = length (_ixc self) ∧
  NoDup (_ix self) ∧ topologically_sorted (_ix self) (_ixc self) ∧
  length (_dd self) = length (_ix self) ∧
  (∀ n g r, _ix self !! n = Some g → _ixc self !! n = Some r →
     _dd self !! n = Some (len n) ∧
     giver_receiver_distance (_dims self) (_geot self) g r = Ok (len n)) ∧
  ∀ n m c, _ixc self !! n = Some c → _ix self !! m = Some c →
    ∃ dn dm, _dx self !! n = Some dn ∧ _dx self !! m = Some dm ∧
             dn = (dm + len n)%R.
Proof.
  intros Hnd Htopo H. apply init_Ok in H. cbv zeta in H.
  destruct H as (ix & ixc & fx & zx & di & dd & dx & chi
                 & Hsel & _ & _ & Hfold & Hdx & _ & ->).
  apply select_edges_graph in Hsel as (Hlen & _ & _ & Hnd' & Htopo').
  specialize (Hnd' Hnd). specialize (Htopo' Htopo). simpl.
  eapply (foldM_arange_rev_Ok_inv
            (distances_done (Flow.get_dims flow) (Flow.get_geotransform flow)
               (Flow.get_ncells flow) ix ixc)) in Hfold.
  - destruct Hfold as (Hl1 & Hl2 & Hacc & Hdd). simpl in *.
    split; [done|]. split; [done|]. split; [done|]. split; [done|]. split.
    + intros n g r. apply Hdd. lia.
    + intros n m c Hn Hm. by eapply accumulated_final.
  - apply distances_done_init.
  - intros k s s1 _. by apply distances_done_step.
Qed.

(** What lines 67-71 compute is the planar distance between the map
    coordinates of the two cells. *)
Lemma giver_receiver_distance_planar (self : Network R) g r d :
  giver_receiver_distance (_dims self) (_geot self) g r = Ok d →
  d = planar_distance (cell_coordinates self g) (cell_coordinates self r).
Proof.
  unfold giver_receiver_distance, ind_2_cell, cell_2_xy, planar_distance,
    cell_coordinates.
  destruct (decide (g < (_dims self).1 * (_dims self).2)); [|done].
  destruct (decide (r < (_dims self).1 * (_dims self).2)); [|done].
  cbn [mbind result_bind].
  destruct (_geot self (g / (_dims self).2) (g mod (_dims self).2)) as [gx gy].
  destruct (_geot self (r / (_dims self).2) (r mod (_dims self).2)) as [rx ry].
  by intros [= <-].
Qed.

(** C3. In a network built from a flow graph in which every cell gives at
    most once and upstream edges come first, whenever the receiver of edge
    [n] is the giver of edge [m], [_dx[n] = _dx[m] + _dd[n]], and [_dd[n]]
    is the planar distance between the map coordinates of the giver and of
    the receiver, which is not negative: [_dx] does not decrease along an
    upstream walk. *)
Theorem distance_non_decreasing_upstream
    dem flow threshold thetaref winsize self :
  NoDup (Flow._ix flow) →
  topologically_sorted (Flow._ix flow) (Flow._ixc flow) →
  __init__ dem flow threshold thetaref winsize = Ok self →
  ∀ n m c, _ixc self !! n = Some c → _ix self !! m = Some c →
    ∃ g dn dm ddn,
      _ix self !! n = Some g ∧
      _dx self !! n = Some dn ∧ _dx self !! m = Some dm ∧
      _dd self !! n = Some ddn ∧
      giver_receiver_distance (_dims self) (_geot self) g c = Ok ddn ∧
      ddn = planar_distance (cell_coordinates self g)
                            (cell_coordinates self c) ∧
      (0 <= ddn)%R ∧ dn = (dm + ddn)%R ∧ (dm <= dn)%R.
Proof.
  intros Hnd Htopo Hinit n m c Hn Hm.
  destruct (init_distances _ _ _ _ _ _ Hnd Htopo Hinit)
    as (Hlen & _ & _ & _ & Hdd & Hdx).
  destruct (Hdx n m c Hn Hm) as (dn & dm & Hdn & Hdm & Heq).
  assert (Hlt : n < length (_ix self)).
  { rewrite Hlen. by eapply lookup_lt_Some. }
  destruct (lookup_lt_is_Some_2 _ _ Hlt) as [g Hg].
  destruct (Hdd n g c Hg Hn) as [Hddn Hgr].
  pose proof (giver_receiver_distance_nonneg _ _ _ _ _ Hgr) as Hpos.
  pose proof (giver_receiver_distance_planar _ _ _ _ Hgr) as Hplanar.
  eexists g, dn, dm, _. split_and!; [done..|lra].
Qed.

Lemma chi_step_Ok a0 thetaref self buf k buf' :
  chi_step a0 thetaref self buf k = Ok buf' →
  ∃ g r v d a,
    _ix self !! k = Some g ∧ _ixc self !! k = Some r ∧ buf !! r = Some v ∧
    _dd self !! k = Some d ∧ _ax self !! k = Some a ∧ g < length buf ∧
    buf' = <[g := (v + chi_increment self thetaref a0 k)%R]> buf.
Proof.
  unfold chi_step. intros H.
  apply bind_Ok in H as (g & Hg%getitem_Ok & H).
  apply bind_Ok in H as (r & Hr%getitem_Ok & H).
  apply bind_Ok in H as (v & Hv%getitem_Ok & H).
  apply bind_Ok in H as (d & Hd%getitem_Ok & H).
  apply bind_Ok in H as (a & Ha%getitem_Ok & H).
  apply setitem_Ok in H as [Hgl ->].
  exists g, r, v, d, a. unfold chi_increment. rewrite Hd, Ha. done.
Qed.

Lemma chi_done_step self thetaref a0 k buf buf' :
  NoDup (_ix self) → topologically_sorted (_ix self) (_ixc self) →
  chi_done self thetaref a0 (S k) buf →
  chi_step a0 thetaref self buf k = Ok buf' →
  chi_done self thetaref a0 k buf'.
Proof.
  intros Hnd Htopo (Hl & Hacc & Hda) Hstep.
  apply chi_step_Ok in Hstep
    as (g & r & v & d & a & Hg & Hr & Hv & Hd & Ha & Hgl & ->).
  unfold chi_done. split; [by rewrite length_insert|]. split.
  - by eapply accumulated_step.
  - intros n Hn Hlt. destruct (decide (n = k)) as [->|Hne]; [by eauto|].
    apply Hda; lia.
Qed.

Lemma calculate_chi_upstream self thetaref a0 self' :
  NoDup (_ix self) → topologically_sorted (_ix self) (_ixc self) →
  length (_ix self) = length (_ixc self) →
  calculate_chi self thetaref a0 = Ok self' →
  ∃ chi, self' = set_chi self chi ∧
    ∀ n m c, _ixc self !! n = Some c → _ix self !! m = Some c →
      ∃ cn cm d a,
        chi !! n = Some cn ∧ chi !! m = Some cm ∧
        _dd self !! n = Some d ∧ _ax self !! n = Some a ∧
        cn = (cm + a0 * d / Rpower a thetaref)%R.
Proof.
  intros Hnd Htopo Hlen H.
  apply calculate_chi_Ok in H as (buf & chi & Hfold & Hchi & ->).
  exists chi. split; [done|].
  eapply (foldM_arange_rev_Ok_inv (chi_done self thetaref a0)) in Hfold.
  - destruct Hfold as (Hl & Hacc & Hda). intros n m c Hn Hm.
    destruct (accumulated_final _ _ _ _ _ n m c Hacc Hlen Hchi Hn Hm)
      as (cn & cm & Hcn & Hcm & Heq).
    destruct (Hda n) as (d & a & Hd & Ha); [lia| |].
    { rewrite Hlen. by eapply lookup_lt_Some. }
    exists cn, cm, d, a. unfold chi_increment in Heq. rewrite Hd, Ha in Heq.
    done.
  - unfold chi_done, zeros. split; [by rewrite length_replicate|]. split.
    + intros n g r Hn Hg. apply lookup_lt_Some in Hg. lia.
    + intros n ??. lia.
  - intros k s s1 _. by apply chi_done_step.
Qed.

Lemma chi_term_nonneg a0 d a thetaref :
  (0 <= a0)%R → (0 <= d)%R → (0 <= a0 * d / Rpower a thetaref)%R.
Proof.
  intros Ha0 Hd. unfold Rdiv. apply Rmult_le_pos.
  - by apply Rmult_le_pos.
  - left. apply Rinv_0_lt_compat. unfold Rpower. apply exp_pos.
Qed.

(** C4. In such a network, for every [thetaref] and every [a0 >= 0], after
    [calculate_chi] whenever the receiver of edge [n] is the giver of edge
    [m], [_chi[n] = _chi[m] + a0 * _dd[n] / _ax[n] ** thetaref >= _chi[m]].
    The areas are taken positive, where the real power is numpy's. *)
Theorem chi_non_decreasing_upstream
    dem flow threshold theta0 winsize self thetaref a0 self' :
  NoDup (Flow._ix flow) →
  topologically_sorted (Flow._ix flow) (Flow._ixc flow) →
  __init__ dem flow threshold theta0 winsize = Ok self →
  (0 <= a0)%R →
  Forall (fun a => (0 < a)%R) (_ax self) →
  calculate_chi self thetaref a0 = Ok self' →
  ∃ chi, _chi self' = Some chi ∧
    ∀ n m c, _ixc self' !! n = Some c → _ix self' !! m = Some c →
      ∃ cn cm d a,
        chi !! n = Some cn ∧ chi !! m = Some cm ∧
        _dd self' !! n = Some d ∧ _ax self' !! n = Some a ∧
        cn = (cm + a0 * d / Rpower a thetaref)%R ∧ (cm <= cn)%R.
Proof.
  intros Hnd Htopo Hinit Ha0 _ Hchi.
  destruct (init_distances _ _ _ _ _ _ Hnd Htopo Hinit)
    as (Hlen & Hnd' & Htopo' & _ & Hdd & _).
  destruct (calculate_chi_upstream _ _ _ _ Hnd' Htopo' Hlen Hchi)
    as (chi & -> & Hup).
  exists chi. split; [done|]. simpl. intros n m c Hn Hm.
  destruct (Hup n m c Hn Hm) as (cn & cm & d & a & Hcn & Hcm & Hd & Ha & Heq).
  exists cn, cm, d, a. split_and!; try done.
  assert (0 <= d)%R.
  { destruct (lookup_lt_is_Some_2 (_ix self) n) as [g Hg].
    { rewrite Hlen. by eapply lookup_lt_Some. }
    destruct (Hdd n g c Hg Hn) as [Hd' _].
    assert (d = edge_length (_dims self) (_geot self) (_ix self) (_ixc self) n)
      as -> by congruence.
    apply edge_length_nonneg. }
  pose proof (chi_term_nonneg a0 d a thetaref Ha0 H). lra.
Qed.

(** ** The constructor returns *)

Lemma take_at_total {A} (a : list A) idx :
  Forall (fun i => i < length a) idx →
  ∃ l, take_at a idx = Ok l ∧ length l = length idx.
Proof.
  induction 1 as [|i idx Hi _ (l & Hl & Hlen)].
  - by exists [].
  - destruct (getitem_lt a i Hi) as (x & Hx & _).
    exists (x :: l). unfold take_at in *. cbn [forM]. rewrite Hx. cbn.
    rewrite Hl. cbn. split; [done|]. by rewrite Hlen.
Qed.

Lemma take_at_length {A} (a : list A) idx l :
  take_at a idx = Ok l → length l = length idx.
Proof. intros H%take_at_Ok. symmetry. by eapply Forall2_length. Qed.

Lemma Forall_subseteq {A} (P : A → Prop) (l k : list A) :
  l ⊆ k → Forall P k → Forall P l.
Proof.
  intros Hsub Hk. apply Forall_forall. intros x Hx.
  eapply Forall_forall in Hk; [done|]. by apply Hsub.
Qed.

Lemma select_edges_total flow t ncells :
  wf_edges ncells (Flow._ix flow) (Flow._ixc flow) →
  length (Flow.get_flow_accumulation flow) = ncells →
  ∃ ix ixc, select_edges flow t = Ok (ix, ixc).
Proof.
  intros [Hlen Hix Hixc] Hfac. unfold select_edges.
  destruct (take_at_total ((fun a => Rltb t a) <$> Flow.get_flow_accumulation flow)
              (Flow._ix flow)) as (I & -> & HI).
  { by rewrite length_fmap, Hfac. }
  cbn. unfold compress. rewrite !decide_True by congruence. cbn. eauto.
Qed.

Lemma giver_receiver_distance_total dims geot g r :
  g < dims.1 * dims.2 → r < dims.1 * dims.2 →
  ∃ d, giver_receiver_distance dims geot g r = Ok d.
Proof.
  intros Hg Hr. unfold giver_receiver_distance, ind_2_cell.
  rewrite !decide_True by done. cbn.
  destruct (cell_2_xy _ _ _), (cell_2_xy _ _ _). eauto.
Qed.

Lemma distance_fold_total dims geot ncells ix ixc :
  wf_edges ncells ix ixc → dims.1 * dims.2 = ncells →
  ∃ s, foldM (distance_step dims geot ix ixc)
         (zeros 0%R ncells, zeros 0%R (length ix)) (arange_rev (length ix))
       = Ok s ∧ length s.1 = ncells.
Proof.
  intros [Hlen Hix Hixc] Hdims.
  destruct (foldM_arange_rev_inv
              (fun _ s => length s.1 = ncells ∧ length s.2 = length ix)
              (distance_step dims geot ix ixc)
              (zeros 0%R ncells, zeros 0%R (length ix)) (length ix))
    as (s & Hs & Hl & _).
  - unfold zeros. simpl. by rewrite !length_replicate.
  - intros k [di dd] Hk [Hl1 Hl2]. simpl in *.
    destruct (getitem_lt ix k Hk) as (g & Hg & Hg').
    destruct (getitem_lt ixc k) as (r & Hr & Hr'); [lia|].
    assert (g < ncells).
    { eapply Forall_forall in Hix; [done|]. apply list_elem_of_lookup; eauto. }
    assert (r < ncells).
    { eapply Forall_forall in Hixc; [done|]. apply list_elem_of_lookup; eauto. }
    destruct (giver_receiver_distance_total dims geot g r) as (d & Hd); [lia..|].
    destruct (getitem_lt di r) as (v & Hv & _); [lia|].
    unfold distance_step. rewrite Hg. cbn. rewrite Hr. cbn. rewrite Hd. cbn.
    rewrite setitem_lt by lia. cbn. rewrite Hv. cbn.
    rewrite setitem_lt by lia. cbn.
    eexists. split; [done|]. simpl. by rewrite !length_insert.
  - by exists s.
Qed.

Lemma calculate_chi_total self thetaref a0 :
  wf_edges (_ncells self) (_ix self) (_ixc self) →
  length (_dd self) = length (_ix self) →
  length (_ax self) = length (_ix self) →
  ∃ chi, calculate_chi self thetaref a0 = Ok (set_chi self chi).
Proof.
  intros [Hlen Hix Hixc] Hdd Hax. unfold calculate_chi.
  destruct (foldM_arange_rev_inv
              (fun _ s => length s = _ncells self)
              (chi_step a0 thetaref self)
              (zeros 0%R (_ncells self)) (length (_ix self)))
    as (buf & -> & Hl).
  - unfold zeros. by rewrite length_replicate.
  - intros k buf Hk Hl.
    destruct (getitem_lt (_ix self) k Hk) as (g & Hg & Hg').
    destruct (getitem_lt (_ixc self) k) as (r & Hr & Hr'); [lia|].
    assert (g < _ncells self).
    { eapply Forall_forall in Hix; [done|]. apply list_elem_of_lookup; eauto. }
    assert (r < _ncells self).
    { eapply Forall_forall in Hixc; [done|]. apply list_elem_of_lookup; eauto. }
    destruct (getitem_lt buf r) as (v & Hv & _); [lia|].
    destruct (getitem_lt (_dd self) k) as (d & Hd & _); [lia|].
    destruct (getitem_lt (_ax self) k) as (a & Ha & _); [lia|].
    unfold chi_step. rewrite Hg. cbn. rewrite Hr. cbn. rewrite Hv. cbn.
    rewrite Hd. cbn. rewrite Ha. cbn. rewrite setitem_lt by lia.
    eexists. split; [done|]. by rewrite length_insert.
  - cbn. destruct (take_at_total buf (_ix self)) as (chi & -> & _).
    { by rewrite Hl. }
    cbn. eauto.
Qed.

(** The constructor returns a network for every well-formed flow. *)
Lemma init_total dem flow threshold thetaref winsize :
  wf_flow dem flow →
  ∃ self, __init__ dem flow threshold thetaref winsize = Ok self.
Proof.
  intros [Hedges Hdims Hfac Hdem].
  destruct (select_edges_total flow
              (effective_threshold (Flow.get_ncells flow) threshold) _ Hedges Hfac)
    as (ix & ixc & Hsel).
  pose proof (select_edges_graph _ _ _ _ Hsel) as (Hlen & Hsub1 & Hsub2 & _ & _).
  destruct Hedges as [Hlen0 Hix0 Hixc0].
  assert (Hix : Forall (fun c => c < Flow.get_ncells flow) ix)
    by (by eapply Forall_subseteq).
  assert (Hixc : Forall (fun c => c < Flow.get_ncells flow) ixc)
    by (by eapply Forall_subseteq).
  assert (Hwf : wf_edges (Flow.get_ncells flow) ix ixc) by done.
  unfold __init__. cbv zeta. rewrite Hsel. cbn [mbind result_bind].
  destruct (take_at_total (Flow.get_flow_accumulation flow) ix)
    as (fx & -> & Hfx); [by rewrite Hfac|]. cbn [mbind result_bind].
  destruct (take_at_total (DEM.read_array dem) ix)
    as (zx & -> & Hzx); [by rewrite Hdem|]. cbn [mbind result_bind].
  destruct (distance_fold_total (Flow.get_dims flow)
              (Flow.get_geotransform flow) _ ix ixc Hwf Hdims)
    as ([di dd] & Hfold & Hl).
  pose proof Hfold as Hfold'.
  rewrite Hfold. cbn [mbind result_bind].
  simpl in Hl.
  destruct (take_at_total di ix) as (dx & -> & Hdx); [by rewrite Hl|]. cbn [mbind result_bind].
  eapply (foldM_arange_rev_Ok_inv
            (fun _ s => length s.2 = length ix)) in Hfold'.
  2:{ unfold zeros. simpl. by rewrite length_replicate. }
  2:{ intros k [di' dd'] s1 _ Hl2 Hstep.
      apply distance_step_Ok in Hstep as (?&?&?&_&_&_&_&_&_&->).
      simpl in *. by rewrite length_insert. }
  simpl in Hfold'.
  match goal with
  | |- context [calculate_chi ?s ?t ?a] =>
      destruct (calculate_chi_total s t a) as (chi & ->)
  end; cbn [_ncells _ix _ixc _dd _ax]; [done| done | by rewrite length_fmap |].
  cbn [mbind result_bind].
  eauto.
Qed.

(** ** The attribute that is never assigned *)

Lemma calculate_slope_Ok {F} `{Arith F} fuel (self : Network F) npoints self' :
  calculate_slope fuel self npoints = Ok self' →
  ∃ slp, self' = set_slp self slp.
Proof.
  unfold calculate_slope. intros H0.
  apply bind_Ok in H0 as ([ixcix heads] & _ & H0).
  apply bind_Ok in H0 as ([slopes r2] & _ & H0).
  apply bind_Ok in H0 as (slp & _ & [= <-]). eauto.
Qed.

Lemma constructed_chcells self : constructed self → _chcells self = None.
Proof.
  induction 1 as [dem flow threshold thetaref winsize self Hinit
                 |self thetaref a0 self' _ IH Hchi
                 |fuel self npoints self' _ IH Hslp].
  - apply init_Ok in Hinit. cbv zeta in Hinit.
    destruct Hinit as (?&?&?&?&?&?&?&?&_&_&_&_&_&_&->). done.
  - apply calculate_chi_Ok in Hchi as (?&?&_&_&->). done.
  - apply calculate_slope_Ok in Hslp as (? & ->). done.
Qed.

(** C2. On every network that the constructor returned, whatever calls of
    [calculate_chi] and [calculate_slope] followed, [get_streams] and
    [get_stream_order] with either kind raise [AttributeError] for
    [_chcells]: nothing ever fills that slot. *)
Theorem chcells_is_never_assigned self asgrid :
  constructed self →
  get_streams self asgrid = Raise (AttributeError "_chcells") ∧
  get_stream_order self "strahler" asgrid = Raise (AttributeError "_chcells") ∧
  get_stream_order self "shreeve" asgrid = Raise (AttributeError "_chcells").
Proof.
  intros Hc%constructed_chcells.
  unfold get_streams, get_stream_order. rewrite Hc. done.
Qed.

Lemma line_flow_wf : wf_flow line_dem line_flow.
Proof.
  split; [split|..]; simpl; try done; repeat constructor.
Qed.

Lemma line_flow_NoDup : NoDup (Flow._ix line_flow).
Proof. by apply (bool_decide_unpack _). Qed.

Lemma line_flow_sorted :
  topologically_sorted (Flow._ix line_flow) (Flow._ixc line_flow).
Proof.
  simpl. rewrite !topologically_sorted_cons. split_and!; try done.
  - by intros [=]%list_elem_of_singleton.
  - apply not_elem_of_nil.
Qed.

Lemma line_missing_chcells_witness :
  ∃ self, constructed self ∧
          get_streams self true = Raise (AttributeError "_chcells").
Proof.
  destruct (init_total line_dem line_flow 5 0.45 0 line_flow_wf) as [self Hself].
  exists self. pose proof (constructed_init _ _ _ _ _ _ Hself) as Hc.
  split; [done|]. by apply (chcells_is_never_assigned self true Hc).
Defined.

Lemma filter_all {A} (P : A → Prop) `{!∀ x, Decision (P x)} (l : list A) :
  Forall P l → filter P l = l.
Proof.
  induction 1 as [|x l Hx _ IH]; [done|].
  rewrite filter_cons, decide_True by done. by rewrite IH.
Qed.

Lemma init_area_positive dem flow threshold thetaref winsize self :
  Forall (fun a => (0 < a)%R) (Flow.get_flow_accumulation flow) →
  Flow.get_cellsize flow ≠ 0%R →
  __init__ dem flow threshold thetaref winsize = Ok self →
  Forall (fun a => (0 < a)%R) (_ax self).
Proof.
  intros Hfac Hcs H. apply init_Ok in H. cbv zeta in H.
  destruct H as (ix & ixc & fx & zx & di & dd & dx & chi
                 & _ & Hfx & _ & _ & _ & _ & ->).
  cbn [_ax set_ksn set_chi]. apply Forall_fmap. apply take_at_Ok in Hfx.
  apply Forall_forall. intros a (n & Hn)%list_elem_of_lookup. unfold compose.
  destruct (Forall2_lookup_r _ _ _ _ _ Hfx Hn) as (g & _ & Hg).
  assert (0 < a)%R.
  { eapply Forall_forall in Hfac; [done|]. apply list_elem_of_lookup; eauto. }
  apply Rmult_lt_0_compat; [done|]. rewrite <- Rsqr_pow2. by apply Rlt_0_sqr.
Qed.

(** ** Edges into an outlet *)

Lemma giver_receiver_distance_Ok dims geot g r d :
  giver_receiver_distance dims geot g r = Ok d →
  g < dims.1 * dims.2 ∧ r < dims.1 * dims.2.
Proof.
  unfold giver_receiver_distance, ind_2_cell.
  destruct (decide (g < dims.1 * dims.2)); [|done].
  destruct (decide (r < dims.1 * dims.2)); [|done]. done.
Qed.

Lemma distance_scratch_step dims geot ncells ix ixc k s s' :
  distance_scratch dims geot ncells ix ixc (S k) s →
  distance_step dims geot ix ixc s k = Ok s' →
  distance_scratch dims geot ncells ix ixc k s'.
Proof.
  intros (Hl1 & Hl2 & Hpos & Hpos2 & Hdd & Hb & Hzero) Hstep.
  destruct s as [di dd].
  apply distance_step_Ok in Hstep
    as (g & r & v & Hg & Hr & Hv & Hk & Hgl & Hd & ->).
  pose proof (giver_receiver_distance_Ok _ _ _ _ _ Hd) as [Hgd Hrd].
  unfold distance_scratch. simpl in *. rewrite !length_insert.
  split_and!; try done.
  - apply Forall_insert; [done|].
    assert (0 <= v)%R.
    { eapply Forall_forall in Hpos; [done|]. apply list_elem_of_lookup; eauto. }
    pose proof (giver_receiver_distance_nonneg _ _ _ _ _ Hd). lra.
  - apply Forall_insert; [done|].
    by eapply giver_receiver_distance_nonneg.
  - intros n Hn Hlt. destruct (decide (n = k)) as [->|Hne].
    + by rewrite list_lookup_insert_eq.
    + rewrite list_lookup_insert_ne by done. apply Hdd; [lia|done].
  - intros n g' Hn Hg'. destruct (decide (n = k)) as [->|Hne].
    + assert (g' = g) as -> by congruence. split_and!; [lia|done|].
      exists r. split_and!; [done| |done]. apply lookup_lt_Some in Hv. lia.
    + apply Hb; [lia|done].
  - intros c Hc Hlt. rewrite list_lookup_insert_ne; [by apply Hzero|].
    intros <-. apply Hc. apply list_elem_of_lookup. eauto.
Qed.

Lemma distance_scratch_final dims geot ncells ix ixc s :
  foldM (distance_step dims geot ix ixc)
        (zeros 0%R ncells, zeros 0%R (length ix)) (arange_rev (length ix))
    = Ok s →
  distance_scratch dims geot ncells ix ixc 0 s.
Proof.
  intros Hfold.
  eapply (foldM_arange_rev_Ok_inv (distance_scratch dims geot ncells ix ixc))
    in Hfold; [done| |].
  - unfold distance_scratch, zeros. simpl. rewrite !length_replicate.
    split_and!; try done.
    + apply Forall_replicate. lra.
    + apply Forall_replicate. lra.
    + intros n Hn Hlt. lia.
    + intros n g Hn Hg. apply lookup_lt_Some in Hg. lia.
    + intros c _ Hc. by apply lookup_replicate_2.
  - intros k s0 s1 _. apply distance_scratch_step.
Qed.

Lemma accumulated_base inc ix ixc buf xs n r :
  accumulated inc ix ixc 0 buf →
  (∀ c, c ∉ ix → c < length buf → buf !! c = Some 0%R) →
  length ix = length ixc → take_at buf ix = Ok xs →
  ixc !! n = Some r → r ∉ ix → xs !! n = Some (inc n).
Proof.
  intros Hacc Hzero Hlen Hxs Hr Hnot.
  destruct (lookup_lt_is_Some_2 ix n) as [g Hg].
  { rewrite Hlen. by eapply lookup_lt_Some. }
  destruct (Hacc n g r) as (v & Hv & Hgv); [lia|done..|].
  rewrite Hzero in Hv; [|done|by eapply lookup_lt_Some].
  injection Hv as <-. apply take_at_Ok in Hxs.
  destruct (Forall2_lookup_l _ _ _ _ _ Hxs Hg) as (x & Hx & Hgx).
  rewrite Hx. rewrite Hgv in Hgx. injection Hgx as <-. f_equal. lra.
Qed.

(** At an edge into an outlet the distance is the length of the edge. *)
Lemma init_outlet_distance dem flow threshold thetaref winsize self :
  NoDup (Flow._ix flow) →
  topologically_sorted (Flow._ix flow) (Flow._ixc flow) →
  __init__ dem flow threshold thetaref winsize = Ok self →
  ∀ n r, _ixc self !! n = Some r → r ∉ _ix self →
    ∃ d, _dd self !! n = Some d ∧ _dx self !! n = Some d.
Proof.
  intros Hnd Htopo H n r Hr Hnot.
  pose proof (init_distances _ _ _ _ _ _ Hnd Htopo H) as Hd. cbv zeta in Hd.
  destruct Hd as (Hlen & Hnd' & Htopo' & Hldd & Hdd & _).
  apply init_Ok in H. cbv zeta in H.
  destruct H as (ix & ixc & fx & zx & di & dd & dx & chi
                 & _ & _ & _ & Hfold & Hdx & _ & ->).
  cbn [_ix _ixc _dd _dx _dims _geot set_ksn set_chi] in *.
  destruct (lookup_lt_is_Some_2 ix n) as [g Hg].
  { rewrite Hlen. by eapply lookup_lt_Some. }
  destruct (Hdd n g r Hg Hr) as [Hddn _].
  eexists. split; [done|].
  pose proof (distance_scratch_final _ _ _ _ _ _ Hfold)
    as (Hl1 & _ & _ & _ & _ & _ & Hzero). simpl in Hl1, Hzero.
  eapply (foldM_arange_rev_Ok_inv
            (distances_done (Flow.get_dims flow) (Flow.get_geotransform flow)
               (Flow.get_ncells flow) ix ixc)) in Hfold.
  - destruct Hfold as (_ & _ & Hacc & _). simpl in Hacc.
    eapply (accumulated_base _ ix ixc di dx n r Hacc); try done.
    intros c Hc Hlt. apply Hzero; [done|lia].
  - apply distances_done_init.
  - intros k s s1 _. by apply distances_done_step.
Qed.

Lemma line_network_edges thetaref winsize self :
  __init__ line_dem line_flow 5 thetaref winsize = Ok self →
  _ix self = [0; 1] ∧ _ixc self = [1; 2].
Proof.
  intros H. apply init_Ok in H. cbv zeta in H.
  destruct H as (ix & ixc & fx & zx & di & dd & dx & chi
                 & Hsel & _ & _ & _ & _ & _ & ->).
  simpl. apply select_edges_Ok in Hsel as (_ & Hlen & Hz).
  rewrite effective_threshold_nonzero in Hz by lra.
  rewrite filter_all in Hz.
  2:{ simpl. repeat constructor; (eexists; split; [reflexivity|lra]). }
  split.
  - rewrite <- (fst_zip ix ixc) by lia. by rewrite Hz.
  - rewrite <- (snd_zip ix ixc) by lia. by rewrite Hz.
Qed.

Lemma line_distance_witness :
  ∃ self,
    __init__ line_dem line_flow 5 (45 / 100) 0 = Ok self ∧
    _dd self !! 0 = Some 1%R ∧
    _dx self !! 0 = Some 2%R ∧ _dx self !! 1 = Some 1%R.
Proof.
  destruct (init_total line_dem line_flow 5 (45 / 100) 0 line_flow_wf)
    as [self Hself].
  destruct (line_network_edges _ _ _ Hself) as [Hix Hixc].
  destruct (distance_non_decreasing_upstream _ _ _ _ _ _
              line_flow_NoDup line_flow_sorted Hself 0 1 1)
    as (g & dn & dm & ddn & Hg & Hdn & Hdm & Hdd & _ & Hplanar & _ & Heq & _).
  { by rewrite Hixc. }
  { by rewrite Hix. }
  rewrite Hix in Hg. injection Hg as <-.
  assert (Hgeo : cell_coordinates self 0 = (INR 0, INR 0) ∧
                 cell_coordinates self 1 = (INR 1, INR 0) ∧
                 cell_coordinates self 2 = (INR 2, INR 0)).
  { pose proof Hself as H. apply init_Ok in H. cbv zeta in H.
    destruct H as (?&?&?&?&?&?&?&?&_&_&_&_&_&_&->). done. }
  destruct Hgeo as (Hc0 & Hc1 & Hc2).
  assert (Hone : ∀ a b : nat, b = S a →
            planar_distance (INR a, INR 0) (INR b, INR 0) = 1%R).
  { intros a b ->. unfold planar_distance. cbn [fst snd]. rewrite S_INR.
    replace ((INR a - (INR a + 1)) ^ 2 + (INR 0 - INR 0) ^ 2)%R with 1%R
      by (simpl; ring).
    apply sqrt_1. }
  rewrite Hc0, Hc1, (Hone 0 1) in Hplanar by done.
  subst ddn.
  destruct (init_outlet_distance _ _ _ _ _ _
              line_flow_NoDup line_flow_sorted Hself 1 2)
    as (d1 & Hdd1 & Hdx1).
  { by rewrite Hixc. }
  { rewrite Hix. by apply (bool_decide_unpack _). }
  destruct (init_distances _ _ _ _ _ _ line_flow_NoDup line_flow_sorted Hself)
    as (_ & _ & _ & _ & Hlen1 & _).
  destruct (Hlen1 1 1 2) as [Hd1 Hgr1].
  { by rewrite Hix. }
  { by rewrite Hixc. }
  apply giver_receiver_distance_planar in Hgr1.
  rewrite Hc1, Hc2, (Hone 1 2) in Hgr1 by done.
  rewrite Hgr1 in Hd1. assert (d1 = 1%R) as -> by congruence.
  assert (dm = 1%R) as -> by congruence.
  exists self. split_and!; [done|done| |done].
  rewrite Hdn, Heq. f_equal; lra.
Defined.

Lemma line_chi_witness :
  ∃ self self' chi cn cm,
    __init__ line_dem line_flow 5 (45 / 100) 0 = Ok self ∧
    calculate_chi self (1 / 2) 1 = Ok self' ∧
    _chi self' = Some chi ∧
    chi !! 0 = Some cn ∧ chi !! 1 = Some cm ∧ (cm <= cn)%R.
Proof.
  destruct (init_total line_dem line_flow 5 (45 / 100) 0 line_flow_wf)
    as [self Hself].
  destruct (line_network_edges _ _ _ Hself) as [Hix Hixc].
  destruct (init_distances _ _ _ _ _ _ line_flow_NoDup line_flow_sorted Hself)
    as (Hlen & _ & _ & Hdd & _ & _).
  assert (Hax : Forall (fun a => (0 < a)%R) (_ax self)).
  { eapply init_area_positive; [| |exact Hself]; simpl.
    - repeat constructor; lra.
    - lra. }
  assert (Hwf : wf_edges (_ncells self) (_ix self) (_ixc self)).
  { pose proof Hself as H. apply init_Ok in H. cbv zeta in H.
    destruct H as (?&?&?&?&?&?&?&?&_&_&_&_&_&_&Heq).
    rewrite Hix, Hixc. rewrite Heq. simpl. split; [done|repeat constructor..]. }
  assert (Hlax : length (_ax self) = length (_ix self)).
  { pose proof Hself as H. apply init_Ok in H. cbv zeta in H.
    destruct H as (?&?&?&?&?&?&?&?&_&Hfx%take_at_length&_&_&_&_&Heq).
    rewrite Heq. simpl. by rewrite length_fmap. }
  destruct (calculate_chi_total self (1 / 2) 1 Hwf Hdd Hlax) as [chi0 Hchi].
  destruct (chi_non_decreasing_upstream _ _ _ _ _ _ (1 / 2)%R 1%R _
              line_flow_NoDup line_flow_sorted Hself ltac:(lra) Hax Hchi)
    as (chi & Hc & Hup).
  destruct (Hup 0 1 1) as (cn & cm & d & a & Hcn & Hcm & _ & _ & _ & Hle).
  - simpl. by rewrite Hixc.
  - simpl. by rewrite Hix.
  - by exists self, (set_chi self chi0), chi, cn, cm.
Defined.

Lemma line_threshold_witness :
  ∃ self,
    __init__ line_dem line_flow 15 (45 / 100) 0 = Ok self ∧
    zip (_ix self) (_ixc self)
    = filter (exceeds (Flow.get_flow_accumulation line_flow) 15)
             (zip (Flow._ix line_flow) (Flow._ixc line_flow)).
Proof.
  destruct (init_total line_dem line_flow 15 (45 / 100) 0 line_flow_wf)
    as [self Hself].
  exists self. split; [done|].
  destruct (threshold_selects_edges line_dem line_flow (45 / 100) 0)
    as (_ & _ & H).
  apply (H 15%R self); [lra | done].
Defined.

(** ** The R² of a window with a zero divisor *)



(** ** Points of interest *)

Lemma filter_ext_in {A} (P Q : A → Prop) `{!∀ x, Decision (P x)}
    `{!∀ x, Decision (Q x)} (l : list A) :
  (∀ x, x ∈ l → P x ↔ Q x) → filter P l = filter Q l.
Proof.
  induction l as [|x l IH]; intros Hext; [done|].
  rewrite !filter_cons.
  assert (HPQ : P x ↔ Q x) by (apply Hext; apply elem_of_cons; by left).
  rewrite IH by (intros y Hy; apply Hext; apply elem_of_cons; by right).
  destruct (decide (P x)), (decide (Q x)); tauto.
Qed.

Lemma in_degree_0 ixc c : in_degree ixc c = 0 ↔ c ∉ ixc.
Proof.
  unfold in_degree. induction ixc as [|r ixc IH].
  { split; [intros _; apply not_elem_of_nil | done]. }
  rewrite filter_cons, not_elem_of_cons. destruct (decide (r = c)) as [->|Hne].
  - cbn [length]. split; [lia | intros [? _]; done].
  - rewrite IH. split; [intros; split; [congruence|done] | by intros [_ ?]].
Qed.

Lemma in_degree_two ixc c n m :
  n ≠ m → ixc !! n = Some c → ixc !! m = Some c → 1 < in_degree ixc c.
Proof.
  unfold in_degree. revert n m.
  induction ixc as [|r ixc IH]; intros n m Hne Hn Hm; [done|].
  rewrite filter_cons.
  destruct n as [|n], m as [|m]; simpl in Hn, Hm; simplify_eq.
  - rewrite decide_True by done. cbn [length].
    assert (c ∈ filter (fun r => r = c) ixc) as Hc.
    { apply list_elem_of_filter. split; [done|]. apply list_elem_of_lookup; eauto. }
    destruct (filter _ ixc); [by apply elem_of_nil in Hc | cbn [length]; lia].
  - rewrite decide_True by done. cbn [length].
    assert (c ∈ filter (fun r => r = c) ixc) as Hc.
    { apply list_elem_of_filter. split; [done|]. apply list_elem_of_lookup; eauto. }
    destruct (filter _ ixc); [by apply elem_of_nil in Hc | cbn [length]; lia].
  - assert (1 < length (filter (fun r => r = c) ixc))
      by (apply (IH n m); [congruence|done..]).
    destruct (decide (r = c)); cbn [length]; lia.
Qed.

Lemma sum_axis0_entries (rows cols : list nat) (j : nat) :
  length rows = length cols →
  sum_list_Z (snd <$> filter (fun e : nat * nat * Z => e.1.2 = j)
                (zip (zip rows cols) (zeros 1%Z (length rows))))
  = Z.of_nat (in_degree cols j).
Proof.
  unfold in_degree, zeros. revert cols.
  induction rows as [|g rows IH]; intros [|r cols] Hlen; try done.
  simpl in Hlen. injection Hlen as Hlen. specialize (IH cols Hlen).
  change (zip (zip (g :: rows) (r :: cols)) (replicate (length (g :: rows)) 1%Z))
    with (((g, r), 1%Z) :: zip (zip rows cols) (replicate (length rows) 1%Z)).
  rewrite !filter_cons. cbn [fst snd].
  destruct (decide (r = j)).
  - rewrite fmap_cons. cbn [length].
    change (sum_list_Z (?x :: ?l)) with (x + sum_list_Z l)%Z.
    rewrite IH. cbn [snd]. lia.
  - done.
Qed.

Lemma sum_axis0_lookup (ix ixc : list nat) (ncells : nat) m c :
  csc_matrix (zeros 1%Z (length ix)) ix ixc (ncells, ncells) = Ok m →
  c < ncells →
  sum_axis0 m !! c = Some (Z.of_nat (in_degree ixc c)).
Proof.
  unfold csc_matrix. case_decide as Hd; [|done]. intros [= <-] Hc.
  destruct Hd as (H1 & H2 & _). unfold zeros in H1, H2.
  rewrite length_replicate in H1, H2.
  unfold sum_axis0. cbn [csc_shape csc_entries snd].
  rewrite list_lookup_fmap, lookup_seq_lt by done. cbn.
  f_equal. apply sum_axis0_entries. congruence.
Qed.

Lemma length_sum_axis0 m : length (sum_axis0 m) = (csc_shape m).2.
Proof. unfold sum_axis0. by rewrite length_fmap, length_seq. Qed.

Lemma csc_matrix_total {F} (self : Network F) :
  wf_edges (_ncells self) (_ix self) (_ixc self) →
  ∃ m, csc_matrix (zeros 1%Z (length (_ix self))) (_ix self) (_ixc self)
         (_ncells self, _ncells self) = Ok m
       ∧ csc_shape m = (_ncells self, _ncells self).
Proof.
  intros [Hlen Hix Hixc]. unfold csc_matrix. rewrite decide_True.
  - eexists. split; [done|]. done.
  - unfold zeros. rewrite length_replicate. done.
Qed.

Lemma channel_mask {F} (self : Network F) :
  wf_edges (_ncells self) (_ix self) (_ixc self) →
  ∃ w, (w1 ← put_at (zeros false (_ncells self)) (_ix self) true;
        put_at w1 (_ixc self) true) = Ok w
       ∧ length w = _ncells self
       ∧ ∀ c, c < _ncells self →
              w !! c = Some (bool_decide (channel_cell self c)).
Proof.
  intros [Hlen Hix Hixc].
  destruct (put_at_Ok (zeros false (_ncells self)) (_ix self) true)
    as (w1 & -> & Hl1 & Hw1).
  { unfold zeros. by rewrite length_replicate. }
  unfold zeros in Hl1, Hw1. rewrite length_replicate in Hl1, Hw1.
  destruct (put_at_Ok w1 (_ixc self) true) as (w2 & Hw2eq & Hl2 & Hw2).
  { by rewrite Hl1. }
  exists w2. cbn [mbind result_bind]. split; [done|]. split; [congruence|].
  intros c Hc. rewrite Hw2, Hw1, Hl1. unfold channel_cell.
  rewrite lookup_replicate_2 by done.
  repeat case_decide; f_equal; symmetry;
    (apply bool_decide_eq_true || apply bool_decide_eq_false); tauto.
Qed.

Lemma poi_mask_heads {F} (self : Network F) :
  wf_edges (_ncells self) (_ix self) (_ixc self) →
  ∃ m, poi_mask self "heads" = Ok m ∧ length m = _ncells self ∧
       ∀ c, c < _ncells self → m !! c = Some (bool_decide (head self c)).
Proof.
  intros Hwf. unfold poi_mask.
  destruct (channel_mask self Hwf) as (w & Hw & Hl & Hwc).
  destruct (put_at (zeros false (_ncells self)) (_ix self) true) as [w1|];
    [|done]. cbn [mbind result_bind] in *. rewrite Hw. cbn [mbind result_bind].
  destruct (csc_matrix_total self Hwf) as (m & Hm & Hsh). rewrite Hm.
  cbn [mbind result_bind]. rewrite decide_True by done.
  eexists. split; [done|]. split.
  - rewrite length_zip_with, length_sum_axis0, Hsh. simpl. lia.
  - intros c Hc. rewrite lookup_zip_with.
    rewrite (sum_axis0_lookup _ _ _ _ _ Hm Hc), (Hwc c Hc). cbn.
    f_equal. unfold head.
    destruct (bool_decide (channel_cell self c)) eqn:E1.
    + apply bool_decide_eq_true in E1. rewrite andb_true_r.
      apply bool_decide_ext. split; [intros; split; [lia|done] | intros []; lia].
    + apply bool_decide_eq_false in E1. rewrite andb_false_r. symmetry.
      apply bool_decide_eq_false. tauto.
Qed.

Lemma poi_mask_confluences {F} (self : Network F) :
  wf_edges (_ncells self) (_ix self) (_ixc self) →
  ∃ m, poi_mask self "confluences" = Ok m ∧ length m = _ncells self ∧
       ∀ c, c < _ncells self → m !! c = Some (bool_decide (confluence self c)).
Proof.
  intros Hwf. unfold poi_mask.
  destruct (channel_mask self Hwf) as (w & Hw & Hl & Hwc).
  destruct (put_at (zeros false (_ncells self)) (_ix self) true) as [w1|];
    [|done]. cbn [mbind result_bind] in *. rewrite Hw. cbn [mbind result_bind].
  destruct (csc_matrix_total self Hwf) as (m & Hm & Hsh). rewrite Hm.
  cbn [mbind result_bind]. rewrite decide_False by done.
  rewrite decide_True by done.
  eexists. split; [done|]. split.
  - rewrite length_fmap, length_sum_axis0, Hsh. done.
  - intros c Hc. rewrite list_lookup_fmap.
    rewrite (sum_axis0_lookup _ _ _ _ _ Hm Hc). cbn.
    f_equal. unfold confluence. apply bool_decide_ext. lia.
Qed.

Lemma where2_positions (P : nat → Prop) `{!∀ c, Decision (P c)}
    (dims : nat * nat) (m : list bool) :
  (∀ c, c < length m → m !! c = Some (bool_decide (P c))) →
  where2 (mk_array2 dims m)
  = ((fun i => i / dims.2) <$> filter P (seq 0 (length m)),
     (fun i => i mod dims.2) <$> filter P (seq 0 (length m))).
Proof.
  intros Hm. unfold where2. cbn [ravel shape].
  assert (Hf : filter (fun i => m !! i = Some true) (seq 0 (length m))
               = filter P (seq 0 (length m))).
  { apply filter_ext_in. intros c [_ Hc]%elem_of_seq. rewrite Hm by lia.
    split.
    - intros [= Hb]. by apply bool_decide_eq_true in Hb.
    - intros Hp. f_equal. by apply bool_decide_eq_true. }
  by rewrite Hf.
Qed.

Lemma cell_2_ind_unravel dims (pos : list nat) :
  Forall (fun i => i < dims.1 * dims.2) pos →
  forM (fun rc : nat * nat => cell_2_ind dims rc.1 rc.2)
       (zip ((fun i => i / dims.2) <$> pos) ((fun i => i mod dims.2) <$> pos))
  = Ok pos.
Proof.
  induction 1 as [|i pos Hi _ IH]; [done|].
  rewrite !fmap_cons.
  change (zip (?a :: ?l) (?b :: ?k)) with ((a, b) :: zip l k).
  cbn [forM fst snd]. rewrite IH. unfold cell_2_ind.
  assert (dims.2 ≠ 0) by (intros Hz; rewrite Hz in Hi; lia).
  rewrite decide_True.
  - cbn [mbind result_bind]. do 2 f_equal.
    rewrite (Nat.div_mod_eq i dims.2) at 3. lia.
  - split.
    + apply Nat.Div0.div_lt_upper_bound. lia.
    + by apply Nat.mod_upper_bound.
Qed.

Lemma stream_poi_ind_of_mask {F} (self : Network F) kind
    (P : nat → Prop) `{!∀ c, Decision (P c)} m :
  kind ∈ ["heads"; "confluences"; "outlets"] →
  (_dims self).1 * (_dims self).2 = _ncells self →
  poi_mask self kind = Ok m → length m = _ncells self →
  (∀ c, c < _ncells self → m !! c = Some (bool_decide (P c))) →
  stream_poi_ind self kind = Ok (filter P (seq 0 (_ncells self))).
Proof.
  intros Hk Hdims Hm Hl Hmc. unfold stream_poi_ind, get_stream_poi.
  rewrite (decide_True (P := kind ∈ _)) by done.
  rewrite (decide_True (P := "IND" ∈ ["CELL"; "XY"; "IND"]))
    by (by apply (bool_decide_unpack _)).
  rewrite Hm. cbn [mbind result_bind]. unfold reshape.
  rewrite decide_True by congruence. cbn [mbind result_bind].
  rewrite (where2_positions P) by (by rewrite Hl).
  rewrite decide_False by done. rewrite decide_False by done.
  rewrite Hl, cell_2_ind_unravel; [done|].
  apply Forall_forall. intros c [_ Hc]%list_elem_of_filter.
  apply elem_of_seq in Hc. lia.
Qed.

Lemma stream_poi_ind_heads {F} (self : Network F) :
  wf_network self →
  stream_poi_ind self "heads" = Ok (filter (head self) (seq 0 (_ncells self))).
Proof.
  intros [Hwf Hdims]. destruct (poi_mask_heads self Hwf) as (m & Hm & Hl & Hmc).
  eapply stream_poi_ind_of_mask; [|done..]. by apply (bool_decide_unpack _).
Qed.

Lemma stream_poi_ind_confluences {F} (self : Network F) :
  wf_network self →
  stream_poi_ind self "confluences"
  = Ok (filter (confluence self) (seq 0 (_ncells self))).
Proof.
  intros [Hwf Hdims].
  destruct (poi_mask_confluences self Hwf) as (m & Hm & Hl & Hmc).
  eapply stream_poi_ind_of_mask; [|done..]. by apply (bool_decide_unpack _).
Qed.

(** C9. With a [kind] outside heads, confluences, outlets and a [coords]
    outside CELL, XY, IND, [get_stream_poi] returns what it returns for
    heads and CELL; on a well-formed network that is a row-column array,
    not an exception. *)
Theorem unknown_selectors_fall_back {F} (self : Network F)
    (kind coords : string) :
  kind ∉ ["heads"; "confluences"; "outlets"] →
  coords ∉ ["CELL"; "XY"; "IND"] →
  get_stream_poi self kind coords = get_stream_poi self "heads" "CELL" ∧
  (wf_network self →
   ∃ rc, get_stream_poi self kind coords = Ok (RowCol rc)).
Proof.
  intros Hk Hc.
  assert (Heq : get_stream_poi self kind coords
                = get_stream_poi self "heads" "CELL").
  { unfold get_stream_poi. rewrite (decide_False (P := kind ∈ _)) by done.
    rewrite (decide_False (P := coords ∈ _)) by done.
    rewrite (decide_True (P := "heads" ∈ _)) by (by apply (bool_decide_unpack _)).
    rewrite (decide_True (P := "CELL" ∈ _)) by (by apply (bool_decide_unpack _)).
    done. }
  split; [done|]. intros [Hwf Hdims]. rewrite Heq.
  destruct (poi_mask_heads self Hwf) as (m & Hm & Hl & _).
  unfold get_stream_poi.
  rewrite (decide_True (P := "heads" ∈ _)) by (by apply (bool_decide_unpack _)).
  rewrite (decide_True (P := "CELL" ∈ _)) by (by apply (bool_decide_unpack _)).
  rewrite Hm. cbn [mbind result_bind]. unfold reshape.
  rewrite decide_True by congruence. cbn [mbind result_bind].
  destruct (where2 _) as [row col]. rewrite decide_True by done. eauto.
Qed.

Lemma sum_axis1_entries (rows cols : list nat) (i : nat) :
  length rows = length cols →
  sum_list_Z (snd <$> filter (fun e : nat * nat * Z => e.1.1 = i)
                (zip (zip rows cols) (zeros 1%Z (length rows))))
  = Z.of_nat (out_degree rows i).
Proof.
  unfold out_degree, zeros. revert cols.
  induction rows as [|g rows IH]; intros [|r cols] Hlen; try done.
  simpl in Hlen. injection Hlen as Hlen. specialize (IH cols Hlen).
  change (zip (zip (g :: rows) (r :: cols)) (replicate (length (g :: rows)) 1%Z))
    with (((g, r), 1%Z) :: zip (zip rows cols) (replicate (length rows) 1%Z)).
  rewrite !filter_cons. cbn [fst snd].
  destruct (decide (g = i)).
  - rewrite fmap_cons. cbn [length].
    change (sum_list_Z (?x :: ?l)) with (x + sum_list_Z l)%Z.
    rewrite IH. cbn [snd]. lia.
  - done.
Qed.

Lemma sum_axis1_lookup (ix ixc : list nat) (ncells : nat) m c :
  csc_matrix (zeros 1%Z (length ix)) ix ixc (ncells, ncells) = Ok m →
  c < ncells →
  sum_axis1 m !! c = Some (Z.of_nat (out_degree ix c)).
Proof.
  unfold csc_matrix. case_decide as Hd; [|done]. intros [= <-] Hc.
  destruct Hd as (H1 & H2 & _). unfold zeros in H1, H2.
  rewrite length_replicate in H1, H2.
  unfold sum_axis1. cbn [csc_shape csc_entries fst].
  rewrite list_lookup_fmap, lookup_seq_lt by done. cbn.
  f_equal. apply sum_axis1_entries. congruence.
Qed.

Lemma length_sum_axis1 m : length (sum_axis1 m) = (csc_shape m).1.
Proof. unfold sum_axis1. by rewrite length_fmap, length_seq. Qed.

Lemma poi_mask_outlets {F} (self : Network F) :
  wf_edges (_ncells self) (_ix self) (_ixc self) →
  ∃ m, poi_mask self "outlets" = Ok m ∧ length m = _ncells self ∧
       ∀ c, c < _ncells self → m !! c = Some (bool_decide (outlet self c)).
Proof.
  intros Hwf. unfold poi_mask.
  destruct (channel_mask self Hwf) as (w & Hw & Hl & Hwc).
  destruct (put_at (zeros false (_ncells self)) (_ix self) true) as [w1|];
    [|done]. cbn [mbind result_bind] in *. rewrite Hw. cbn [mbind result_bind].
  destruct (csc_matrix_total self Hwf) as (m & Hm & Hsh). rewrite Hm.
  cbn [mbind result_bind]. rewrite decide_False by done.
  rewrite decide_False by done.
  eexists. split; [done|]. split.
  - rewrite length_zip_with, length_sum_axis1, Hsh. simpl. lia.
  - intros c Hc. rewrite lookup_zip_with.
    rewrite (sum_axis1_lookup _ _ _ _ _ Hm Hc), (Hwc c Hc). cbn.
    f_equal. unfold outlet.
    destruct (bool_decide (channel_cell self c)) eqn:E1.
    + apply bool_decide_eq_true in E1. rewrite andb_true_r.
      apply bool_decide_ext. split; [intros; split; [lia|done] | intros []; lia].
    + apply bool_decide_eq_false in E1. rewrite andb_false_r. symmetry.
      apply bool_decide_eq_false. tauto.
Qed.

Lemma zip_with_fmap_same {A B C D} (f : B → C → D) (g : A → B) (h : A → C)
    (l : list A) :
  zip_with f (g <$> l) (h <$> l) = (fun x => f (g x) (h x)) <$> l.
Proof. induction l as [|x l IH]; [done|]. cbn. by rewrite <- IH. Qed.

Lemma stream_poi_xy_of_mask {F} (self : Network F) kind
    (P : nat → Prop) `{!∀ c, Decision (P c)} m :
  kind ∈ ["heads"; "confluences"; "outlets"] →
  (_dims self).1 * (_dims self).2 = _ncells self →
  poi_mask self kind = Ok m → length m = _ncells self →
  (∀ c, c < _ncells self → m !! c = Some (bool_decide (P c))) →
  stream_poi_xy self kind
  = Ok ((fun i => cell_2_xy (_geot self) (i / (_dims self).2)
                    (i mod (_dims self).2))
          <$> filter P (seq 0 (_ncells self))).
Proof.
  intros Hk Hdims Hm Hl Hmc. unfold stream_poi_xy, get_stream_poi.
  rewrite (decide_True (P := kind ∈ _)) by done.
  rewrite (decide_True (P := "XY" ∈ ["CELL"; "XY"; "IND"]))
    by (by apply (bool_decide_unpack _)).
  rewrite Hm. cbn [mbind result_bind]. unfold reshape.
  rewrite decide_True by congruence. cbn [mbind result_bind].
  rewrite (where2_positions P) by (by rewrite Hl).
  rewrite decide_False by done. rewrite decide_True by done.
  cbn [mbind result_bind]. by rewrite Hl, zip_with_fmap_same.
Qed.

Lemma filter_none {A} (P : A → Prop) `{!∀ x, Decision (P x)} (l : list A) :
  (∀ x, x ∈ l → ¬ P x) → filter P l = [].
Proof.
  induction l as [|x l IH]; intros Hn; [done|].
  rewrite filter_cons, decide_False by (apply Hn, elem_of_cons; by left).
  apply IH. intros y Hy. apply Hn, elem_of_cons. by right.
Qed.

(** The three kinds of points of interest of a well-formed network, as
    coordinate arrays. *)
Lemma stream_poi_xy_kinds {F} (self : Network F) :
  wf_network self →
  let xy := fun i => cell_2_xy (_geot self) (i / (_dims self).2)
                       (i mod (_dims self).2) in
  stream_poi_xy self "heads"
    = Ok (xy <$> filter (head self) (seq 0 (_ncells self))) ∧
  stream_poi_xy self "confluences"
    = Ok (xy <$> filter (confluence self) (seq 0 (_ncells self))) ∧
  stream_poi_xy self "outlets"
    = Ok (xy <$> filter (outlet self) (seq 0 (_ncells self))).
Proof.
  intros [Hwf Hdims]. cbv zeta.
  destruct (poi_mask_heads self Hwf) as (m1 & Hm1 & Hl1 & Hmc1).
  destruct (poi_mask_confluences self Hwf) as (m2 & Hm2 & Hl2 & Hmc2).
  destruct (poi_mask_outlets self Hwf) as (m3 & Hm3 & Hl3 & Hmc3).
  split_and!; (eapply stream_poi_xy_of_mask;
               [by apply (bool_decide_unpack _)|done..]).
Qed.

Lemma empty_network_no_channel {F} (self : Network F) c :
  wf_network self → _ix self = [] → ¬ channel_cell self c.
Proof.
  intros [[Hlen _ _] _] Hix. rewrite Hix in Hlen.
  apply length_zero_iff_nil in Hlen. unfold channel_cell.
  rewrite Hix, Hlen. intros [H|H]; by apply elem_of_nil in H.
Qed.

(** C8. When the set of reference points is empty, [snap_points] raises
    (numpy's [ValueError] for an argmin over an empty axis), whatever the
    input points; so it does for the confluences of a well-formed network
    without confluences, and for every kind on a well-formed network
    without edges. *)
Theorem empty_reference_is_rejected (self : Network R)
    (input_points : list (R * R)) (kind : string) :
  (snap_reference self (snap_kind kind) = Ok [] →
   snap_points self input_points kind = Raise ValueError) ∧
  (wf_network self → (∀ c, ¬ confluence self c) →
   snap_points self input_points "confluences" = Raise ValueError) ∧
  (wf_network self → _ix self = [] →
   snap_points self input_points kind = Raise ValueError).
Proof.
  assert (Hmain : ∀ k, snap_reference self (snap_kind k) = Ok [] →
                       snap_points self input_points k = Raise ValueError).
  { intros k Href. unfold snap_points. rewrite Href. done. }
  split; [apply Hmain|]. split.
  - intros Hwf Hnc. apply Hmain.
    destruct (stream_poi_xy_kinds self Hwf) as (_ & Hc & _).
    change (snap_reference self (snap_kind "confluences"))
      with (stream_poi_xy self "confluences").
    rewrite Hc, filter_none; [done|]. intros c _. apply Hnc.
  - intros Hwf Hix. apply Hmain.
    destruct (stream_poi_xy_kinds self Hwf) as (Hh & Hc & Ho).
    pose proof (fun c => empty_network_no_channel self c Hwf Hix) as Hno.
    unfold snap_reference.
    destruct (decide (snap_kind kind ∈ ["heads"; "confluences"; "outlets"]))
      as [Hin|Hnin].
    + repeat (apply elem_of_cons in Hin as [->|Hin]).
      * rewrite Hh, filter_none; [done|]. intros c _ [_ ?]. by apply (Hno c).
      * rewrite Hc, filter_none; [done|]. intros c _ Hcf. apply (Hno c).
        right. unfold confluence in Hcf.
        destruct (decide (c ∈ _ixc self)) as [|Hn]; [done|].
        apply in_degree_0 in Hn. lia.
      * rewrite Ho, filter_none; [done|]. intros c _ [_ ?]. by apply (Hno c).
      * by apply elem_of_nil in Hin.
    + unfold channel_xy. by rewrite Hix.
Qed.

(** ** Stream segments *)

Lemma zip_seq_snoc {A} (l : list A) (x : A) :
  zip (seq 0 (length (l ++ [x]))) (l ++ [x])
  = zip (seq 0 (length l)) l ++ [(length l, x)].
Proof.
  rewrite length_app. cbn [length]. rewrite Nat.add_1_r, seq_S.
  rewrite zip_with_app by (by rewrite length_seq). done.
Qed.

Lemma foldM_enumerate_inv {S A} (I : nat → S → Prop)
    (step : S → nat * A → result S) (l : list A) s0 :
  I 0 s0 →
  (∀ k x s, l !! k = Some x → I k s →
     ∃ s', step s (k, x) = Ok s' ∧ I (Datatypes.S k) s') →
  ∃ s', foldM step s0 (zip (seq 0 (length l)) l) = Ok s' ∧ I (length l) s'.
Proof.
  intros H0. induction l as [|x l IH] using rev_ind; intros Hstep.
  - by exists s0.
  - destruct IH as (s1 & Hs1 & HI1).
    { intros k y s Hk. apply Hstep. by apply lookup_app_l_Some. }
    destruct (Hstep (length l) x s1) as (s2 & Hs2 & HI2); [|done|].
    { by apply list_lookup_middle. }
    exists s2. rewrite zip_seq_snoc, foldM_app, Hs1. cbn [mbind result_bind foldM].
    rewrite Hs2. cbn [mbind result_bind]. split; [done|].
    rewrite length_app. cbn [length]. by rewrite Nat.add_1_r.
Qed.

Lemma int32_small (z : Z) : (0 <= z < 2 ^ 31)%Z → int32 z = z.
Proof.
  intros Hz. unfold int32, wrap.
  change (2 ^ (32 - 1))%Z with 2147483648%Z.
  change (2 ^ 32)%Z with 4294967296%Z.
  change (2 ^ 31)%Z with 2147483648%Z in Hz.
  rewrite Z.mod_small by lia. lia.
Qed.

Section Segments.
Context {F : Type} (self : Network F).
Hypothesis Hwf : wf_network self.
Hypothesis Hsingle : NoDup (_ix self).
Hypothesis Hsorted : topologically_sorted (_ix self) (_ixc self).
Hypothesis Hsmall : (Z.of_nat (_ncells self) < 2 ^ 31)%Z.


Lemma giver_bound n g : (_ix self) !! n = Some g → g < (_ncells self).
Proof.
  intros Hg. destruct Hwf as [[_ Hix _] _].
  eapply Forall_forall in Hix; [done|]. apply list_elem_of_lookup; eauto.
Qed.

Lemma receiver_bound n r : (_ixc self) !! n = Some r → r < (_ncells self).
Proof.
  intros Hr. destruct Hwf as [[_ _ Hixc] _].
  eapply Forall_forall in Hixc; [done|]. apply list_elem_of_lookup; eauto.
Qed.

Lemma edge_giver n r : (_ixc self) !! n = Some r → ∃ g, (_ix self) !! n = Some g.
Proof.
  intros Hr. apply lookup_lt_is_Some_2.
  destruct Hwf as [[Hlen _ _] _]. rewrite <- Hlen. by eapply lookup_lt_Some.
Qed.

Lemma edge_receiver n g : (_ix self) !! n = Some g → ∃ r, (_ixc self) !! n = Some r.
Proof.
  intros Hg. apply lookup_lt_is_Some_2.
  destruct Hwf as [[Hlen _ _] _]. rewrite Hlen. by eapply lookup_lt_Some.
Qed.

Lemma elem_of_boundaries c :
  c ∈ boundaries self ↔ c < (_ncells self) ∧ (head self c ∨ confluence self c).
Proof.
  unfold boundaries. rewrite elem_of_app, !list_elem_of_filter, !elem_of_seq.
  intuition lia.
Qed.

Lemma head_not_confluence c : head self c → ¬ confluence self c.
Proof. unfold head, confluence. intros [-> _]. lia. Qed.

Lemma boundaries_NoDup : NoDup (boundaries self).
Proof.
  unfold boundaries. apply NoDup_app. split; [|split].
  - apply NoDup_filter, NoDup_seq.
  - intros c [Hh _]%list_elem_of_filter [Hc _]%list_elem_of_filter.
    by apply head_not_confluence in Hh.
  - apply NoDup_filter, NoDup_seq.
Qed.

Lemma boundaries_length : length (boundaries self) ≤ (_ncells self).
Proof.
  rewrite <- (length_seq (_ncells self) 0). apply submseteq_length.
  apply NoDup_submseteq; [apply boundaries_NoDup|].
  intros c [Hc _]%elem_of_boundaries. apply elem_of_seq. lia.
Qed.

Lemma label_boundaries :
  ∃ s, foldM label_step (zeros 0%Z (_ncells self))
         (zip (seq 0 (length (boundaries self))) (boundaries self)) = Ok s
       ∧ labelled self (length (boundaries self)) s.
Proof.
  apply (foldM_enumerate_inv (labelled self)).
  - unfold labelled, zeros. rewrite length_replicate. split; [done|]. split.
    + intros j c Hj. lia.
    + intros c Hc _. by apply lookup_replicate_2.
  - intros k c s Hk (Hl & Hb & Hz).
    assert (Hc : c < (_ncells self)).
    { apply (elem_of_boundaries c). apply list_elem_of_lookup; eauto. }
    assert (Hklt : k < length (boundaries self)) by (by eapply lookup_lt_Some).
    pose proof boundaries_length.
    unfold label_step. rewrite setitem_lt by lia.
    rewrite int32_small by lia.
    eexists. split; [done|]. unfold labelled. rewrite length_insert.
    split; [done|]. split.
    + intros j c' Hj Hc'. destruct (decide (j = k)) as [->|Hne].
      * assert (c' = c) as -> by congruence.
        by rewrite list_lookup_insert_eq by lia.
      * rewrite list_lookup_insert_ne; [apply Hb; [lia|done]|].
        intros ->. apply Hne. symmetry.
        eapply NoDup_lookup; [apply boundaries_NoDup|done..].
    + intros c' Hc' Hj. rewrite list_lookup_insert_ne.
      * apply Hz; [done|]. intros j ?. apply Hj. lia.
      * intros ->. by apply (Hj k); [lia|].
Qed.

Lemma labelled_propagated s :
  labelled self (length (boundaries self)) s → propagated self 0 s.
Proof.
  intros (Hl & Hb & Hz). unfold propagated. split_and!.
  - done.
  - intros j c Hj. apply Hb; [by eapply lookup_lt_Some | done].
  - intros n g r Hn. lia.
  - intros c Hc Hnb _. apply Hz; [done|]. intros j _ Hj. apply Hnb.
    apply list_elem_of_lookup. eauto.
  - intros c id Hc Hid.
    destruct (decide (c ∈ boundaries self)) as [Hin|Hnin].
    + apply list_elem_of_lookup in Hin as [j Hj]. exists j, c.
      split; [done|]. split; [|reflexivity].
      rewrite (Hb j c) in Hc; [congruence| by eapply lookup_lt_Some | done].
    + rewrite Hz in Hc.
      * congruence.
      * apply lookup_lt_Some in Hc. lia.
      * intros j _ Hj. apply Hnin. apply list_elem_of_lookup. eauto.
Qed.

Lemma giver_labelled k s g :
  propagated self k s → _ix self !! k = Some g →
  ∃ id, s !! g = Some id ∧ id ≠ 0%Z.
Proof.
  intros (Hl & Hb & He & Hz & Hroot) Hg.
  destruct (decide (g ∈ _ixc self)) as [Hin|Hnin].
  - apply list_elem_of_lookup in Hin as [n Hn].
    pose proof (Hsorted n k g Hn Hg) as Hnk.
    destruct (edge_giver n g Hn) as [g' Hg'].
    destruct (He n g' g Hnk Hg' Hn) as (id & Hid & Hg'id & Hrid).
    destruct (decide (confluence self g)) as [Hc|Hnc].
    + assert (Hgb : g ∈ boundaries self).
      { apply elem_of_boundaries. split; [by eapply giver_bound | by right]. }
      apply list_elem_of_lookup in Hgb as [j Hj].
      exists (Z.of_nat j + 1)%Z. split; [by apply Hb | lia].
    + exists id. split; [by apply Hrid | done].
  - assert (Hgb : g ∈ boundaries self).
    { apply elem_of_boundaries. split; [by eapply giver_bound|]. left.
      split; [by apply in_degree_0|]. left. apply list_elem_of_lookup. eauto. }
    apply list_elem_of_lookup in Hgb as [j Hj].
    exists (Z.of_nat j + 1)%Z. split; [by apply Hb | lia].
Qed.

Lemma propagate_step_propagated k s :
  k < length (_ix self) → propagated self k s →
  ∃ s', propagate_step (_ix self) (_ixc self) s k = Ok s'
        ∧ propagated self (S k) s'.
Proof.
  intros Hk Hprop.
  destruct (lookup_lt_is_Some_2 _ _ Hk) as [g Hg].
  destruct (edge_receiver k g Hg) as [r Hr].
  destruct (giver_labelled k s g Hprop Hg) as (idg & Hidg & Hidg0).
  destruct Hprop as (Hl & Hb & He & Hz & Hroot).
  pose proof (receiver_bound k r Hr) as Hrlt.
  destruct (lookup_lt_is_Some_2 s r) as [sr Hsr]; [lia|].
  unfold propagate_step. rewrite (proj2 (getitem_Ok _ _ _) Hr).
  cbn [mbind result_bind]. rewrite (proj2 (getitem_Ok _ _ _) Hsr).
  cbn [mbind result_bind].
  destruct (decide (sr = 0%Z)) as [->|Hsr0].
  - rewrite (proj2 (getitem_Ok _ _ _) Hg). cbn [mbind result_bind].
    rewrite (proj2 (getitem_Ok _ _ _) Hidg). cbn [mbind result_bind].
    rewrite setitem_lt by lia. eexists. split; [done|].
    assert (Hrb : r ∉ boundaries self).
    { intros [j Hj]%list_elem_of_lookup. rewrite (Hb j r Hj) in Hsr.
      injection Hsr. lia. }
    assert (Hrc : ¬ confluence self r).
    { intros Hc. apply Hrb. apply elem_of_boundaries. split; [done | by right]. }
    assert (Hgr : g ≠ r) by congruence.
    unfold propagated. rewrite length_insert. split_and!.
    + done.
    + intros j c Hj. rewrite list_lookup_insert_ne; [by apply Hb|].
      intros <-. apply Hrb. apply list_elem_of_lookup. eauto.
    + intros n g' r' Hn Hg' Hr'. destruct (decide (n = k)) as [->|Hne].
      * assert (g' = g) as -> by congruence. assert (r' = r) as -> by congruence.
        exists idg. split; [done|]. split.
        -- by rewrite list_lookup_insert_ne.
        -- intros _. by rewrite list_lookup_insert_eq by lia.
      * destruct (He n g' r') as (id & Hid & Hg'id & Hr'id); [lia|done..|].
        exists id. split; [done|]. split.
        -- rewrite list_lookup_insert_ne; [done|]. congruence.
        -- intros Hnc. rewrite list_lookup_insert_ne; [by apply Hr'id|].
           intros <-. specialize (Hr'id Hnc). congruence.
    + intros c Hc Hcb Hn. rewrite list_lookup_insert_ne.
      * apply Hz; [done..|]. intros n ?. apply Hn. lia.
      * intros <-. by apply (Hn k); [lia|].
    + intros c id Hc Hid. destruct (decide (c = r)) as [->|Hne].
      * rewrite list_lookup_insert_eq in Hc by lia. injection Hc as <-.
        destruct (Hroot g idg Hidg Hidg0) as (j & b & Hj & Hjid & Hseg).
        exists j, b. split; [done|]. split; [done|].
        etrans; [exact Hseg|]. apply rtsc_lr. split; [by exists k | done].
      * rewrite list_lookup_insert_ne in Hc by done. by apply Hroot.
  - eexists. split; [done|]. unfold propagated. split_and!.
    + done.
    + done.
    + intros n g' r' Hn Hg' Hr'. destruct (decide (n = k)) as [->|Hne].
      * assert (g' = g) as -> by congruence. assert (r' = r) as -> by congruence.
        exists idg. split; [done|]. split; [done|]. intros Hnc. exfalso.
        apply Hsr0. assert (Some sr = Some 0%Z) as [= ->]; [|done].
        rewrite <- Hsr. apply Hz; [done| |].
        -- intros [_ [Hh|Hc]]%elem_of_boundaries; [|done].
           destruct Hh as [Hh _]. apply in_degree_0 in Hh. apply Hh.
           apply list_elem_of_lookup. eauto.
        -- intros n Hn' Hnr. apply Hnc. unfold confluence.
           apply (in_degree_two _ _ n k); [lia|done..].
      * apply (He n); [lia|done..].
    + intros c Hc Hcb Hn. apply Hz; [done..|]. intros n ?. apply Hn. lia.
    + done.
Qed.

Lemma segment_labels_propagated :
  ∃ seg, segment_labels self = Ok seg
         ∧ propagated self (length (_ix self)) seg.
Proof.
  unfold segment_labels.
  rewrite (stream_poi_ind_heads self Hwf). cbn [mbind result_bind].
  rewrite (stream_poi_ind_confluences self Hwf). cbn [mbind result_bind].
  fold (boundaries self).
  destruct label_boundaries as (s0 & -> & Hs0). cbn [mbind result_bind].
  apply (foldM_seq_inv (propagated self)).
  - by apply labelled_propagated.
  - intros k s Hk. by apply propagate_step_propagated.
Qed.

Lemma segment_edge_receiver a x y :
  segment_edge self a x → segment_edge self a y → x = y.
Proof.
  intros [(n & Hn & Hx) _] [(m & Hm & Hy) _].
  assert (n = m) as -> by (by eapply NoDup_lookup).
  congruence.
Qed.

Lemma segment_edge_giver x y b :
  segment_edge self x b → segment_edge self y b → x = y.
Proof.
  intros [(n & Hx & Hn) Hnc] [(m & Hy & Hm) _].
  destruct (decide (n = m)) as [->|Hne]; [congruence|].
  exfalso. apply Hnc. by apply (in_degree_two _ _ n m).
Qed.

Lemma same_segment_connected a b :
  same_segment self a b → segment_connected self a b.
Proof.
  intros [Hab|Hba].
  - by apply rtc_rtsc_rl.
  - by apply rtc_rtsc_lr.
Qed.

Lemma segment_connected_path a b :
  segment_connected self a b → same_segment self a b.
Proof.
  induction 1 as [a|a x b [Hax|Hxa] _ [Hxb|Hbx]].
  - by left.
  - left. by eapply rtc_l.
  - apply rtc_inv_r in Hbx as [->|(y & Hby & Hyx)].
    + left. by apply rtc_once.
    + assert (y = a) as -> by (by eapply segment_edge_giver). by right.
  - apply rtc_inv in Hxb as [->|(y & Hxy & Hyb)].
    + right. by apply rtc_once.
    + assert (y = a) as -> by (by eapply segment_edge_receiver). by left.
  - right. by eapply rtc_r.
Qed.

Lemma segment_connected_label seg a b :
  propagated self (length (_ix self)) seg →
  segment_connected self a b → seg !! a = seg !! b.
Proof.
  intros (_ & _ & He & _ & _).
  assert (Hedge : ∀ x y, segment_edge self x y → seg !! x = seg !! y).
  { intros x y [(n & Hx & Hy) Hnc].
    destruct (He n x y) as (id & _ & -> & Hid); [by eapply lookup_lt_Some|done..|].
    by rewrite Hid. }
  induction 1 as [|x y z [Hxy|Hyx] _ IH]; [done|..].
  - rewrite <- IH. by apply Hedge.
  - rewrite <- IH. symmetry. by apply Hedge.
Qed.

Lemma channel_cell_label seg c :
  propagated self (length (_ix self)) seg → channel_cell self c →
  ∃ id, seg !! c = Some id ∧ (0 < id)%Z.
Proof.
  intros Hprop Hc.
  assert (∃ id, seg !! c = Some id ∧ id ≠ 0%Z) as (id & Hid & Hid0).
  { destruct Hprop as (_ & Hb & He & _ & _).
    destruct Hc as [[n Hn]%list_elem_of_lookup|[n Hn]%list_elem_of_lookup].
    - destruct (edge_receiver n c Hn) as [r Hr].
      destruct (He n c r) as (id & ? & ? & _); [by eapply lookup_lt_Some|done..|].
      by exists id.
    - destruct (edge_giver n c Hn) as [g Hg].
      destruct (decide (confluence self c)) as [Hcf|Hncf].
      + assert (c ∈ boundaries self) as [j Hj]%list_elem_of_lookup.
        { apply elem_of_boundaries. split; [by eapply receiver_bound | by right]. }
        exists (Z.of_nat j + 1)%Z. split; [by apply Hb | lia].
      + destruct (He n g c) as (id & ? & _ & Hid);
          [by eapply lookup_lt_Some|done..|].
        exists id. split; [by apply Hid | done]. }
  exists id. split; [done|].
  destruct Hprop as (_ & _ & _ & _ & Hroot).
  destruct (Hroot c id Hid Hid0) as (j & _ & _ & -> & _). lia.
Qed.

(** C7. On a well-formed network in which every cell gives at most once
    and upstream edges come first, with fewer than 2^31 cells, [get_stream_segments(asgrid=False)] returns an array in
    which the heads and then the confluences carry 1, 2, 3, ... in that
    order, every channel cell carries exactly one positive id and the other
    cells carry 0, a receiver that is no confluence carries the id of its
    giver, and two channel cells carry the same id exactly when one is
    reached from the other along edges that enter no confluence. *)
Theorem stream_segments_labelled :
  ∃ seg,
    get_stream_segments self false
      = Ok (AsArray (mk_array2 (_dims self) seg)) ∧
    length seg = _ncells self ∧
    (* heads and confluences: distinct ranks from 1, heads first *)
    NoDup (boundaries self) ∧
    (∀ j c, boundaries self !! j = Some c →
            seg !! c = Some (Z.of_nat j + 1)%Z) ∧
    (* every channel cell has one positive id, the other cells have none *)
    (∀ c, channel_cell self c → ∃ id, seg !! c = Some id ∧ (0 < id)%Z) ∧
    (∀ c, c < _ncells self → ¬ channel_cell self c → seg !! c = Some 0%Z) ∧
    (* a receiver that is no confluence has the id of its giver *)
    (∀ n g r, _ix self !! n = Some g → _ixc self !! n = Some r →
              ¬ confluence self r → seg !! r = seg !! g) ∧
    (* equal ids mean the same segment *)
    (∀ a b, channel_cell self a → channel_cell self b →
            (seg !! a = seg !! b ↔ same_segment self a b)).
Proof.
  destruct segment_labels_propagated as (seg & Hseg & Hprop).
  pose proof Hprop as (Hl & Hb & He & Hz & Hroot).
  exists seg. split_and!.
  - unfold get_stream_segments. rewrite Hseg. cbn [mbind result_bind].
    unfold reshape. destruct Hwf as [_ Hdims].
    rewrite decide_True by congruence. done.
  - done.
  - apply boundaries_NoDup.
  - done.
  - intros c. by apply channel_cell_label.
  - intros c Hc Hnc. apply Hz; [done| |].
    + intros [_ [[_ Hh]|Hcf]]%elem_of_boundaries; [done|].
      apply Hnc. right. unfold confluence in Hcf.
      destruct (decide (c ∈ _ixc self)) as [|Hnin]; [done|].
      apply in_degree_0 in Hnin. lia.
    + intros n _ Hn. apply Hnc. right. apply list_elem_of_lookup. eauto.
  - intros n g r Hg Hr Hnc. symmetry. apply segment_connected_label; [done|].
    apply rtsc_lr. split; [by exists n | done].
  - intros a b Ha Hb'. split.
    2:{ intros Hs. apply segment_connected_label; [done|].
        by apply same_segment_connected. }
    intros Heq. apply segment_connected_path.
    destruct (channel_cell_label seg a Hprop Ha) as (ia & Hia & Hia0).
    destruct (channel_cell_label seg b Hprop Hb') as (ib & Hib & Hib0).
    assert (ia = ib) as <- by congruence.
    destruct (Hroot a ia Hia) as (ja & ra & Hja & Hida & Hsa); [lia|].
    destruct (Hroot b ia Hib) as (jb & rb & Hjb & Hidb & Hsb); [lia|].
    assert (ja = jb) as <- by lia. assert (ra = rb) as <- by congruence.
    etrans; [|exact Hsb]. by symmetry.
Qed.

End Segments.

(** ** Stream order and slope on the example network *)

(** C1. On the network where the two order-1 paths from the heads 0 and 1
    meet in cell 2, [get_stream_order] with either kind raises
    [AttributeError] for [_chcells] and returns no orders. *)
Theorem stream_order_raises_at_confluence :
  get_stream_order (y_network None) "strahler" false
    = Raise (AttributeError "_chcells") ∧
  get_stream_order (y_network None) "shreeve" false
    = Raise (AttributeError "_chcells").
Proof. split; reflexivity. Qed.

(** With the slot filled by hand the two loops do compute the orders:
    Strahler 2 from the confluence 2 down to the outlet, Shreeve 2 from
    the confluence on and 3 at the outlet, where head 7 joins. *)
Example stream_order_with_chcells :
  let net := y_network (Some [0; 1; 2; 3; 4; 5; 6; 7]) in
  get_stream_order net "strahler" false
    = Ok (Some (AsArray (mk_array2 (2, 4) [1; 1; 2; 2; 2; 2; 2; 1]%Z))) ∧
  get_stream_order net "shreeve" false
    = Ok (Some (AsArray (mk_array2 (2, 4) [1; 1; 2; 2; 2; 2; 3; 1]%Z))).
Proof. split; reflexivity. Qed.

(** C5. On the example network the head 0 is higher than the head 1 and
    is walked first; its seed fit gives cell 2 the slope 15 and the R²
    27/28. The walk from head 1 then assigns its own seed fit, slope 65/14
    and R² 169/196, to the same cell, and that is the slope
    [calculate_slope] stores for it. *)
Theorem seed_fit_overwrites_claimed_cell :
  let net := y_network None in
  let ixcix := [1; 2; 3; 4; 5; 6; 0; 0] in
  slope_setup net = Ok (ixcix, [0; 1; 7]) ∧
  (∃ slopes r2,
     slope_arrays 10 net ixcix 2 [0] = Ok (slopes, r2) ∧
     slopes !! 2 = Some 15%Q ∧ r2 !! 2 = Some (Finite (27 # 28)%Q)) ∧
  (∃ slopes r2,
     slope_arrays 10 net ixcix 2 [0; 1] = Ok (slopes, r2) ∧
     slopes !! 2 = Some (65 # 14)%Q ∧ r2 !! 2 = Some (Finite (169 # 196)%Q)) ∧
  (∃ self',
     calculate_slope 10 net 2 = Ok self' ∧
     _slp self' = Some [0; 0; 0; 65 # 14; 11; 15 # 2; 1 # 100000]%Q).
Proof.
  cbv zeta. split_and!.
  - by vm_compute.
  - eexists _, _. split; [by vm_compute|]. split; reflexivity.
  - eexists _, _. split; [by vm_compute|]. split; reflexivity.
  - eexists. split; [by vm_compute|]. reflexivity.
Qed.

Lemma y_network_wf chcells : wf_network (y_network chcells).
Proof.
  split; [split|]; simpl; try done; apply Forall_forall; intros c Hc;
    repeat (apply elem_of_cons in Hc as [->|Hc]; [lia|]);
    by apply elem_of_nil in Hc.
Qed.

Lemma y_network_sorted chcells :
  topologically_sorted (_ix (y_network chcells)) (_ixc (y_network chcells)).
Proof.
  simpl. rewrite !topologically_sorted_cons.
  split_and!; try done; try (by apply (bool_decide_unpack _)).
Qed.

Lemma y_network_single chcells : NoDup (_ix (y_network chcells)).
Proof. by apply (bool_decide_unpack _). Qed.

Lemma y_network_segments_witness :
  ∃ seg,
    get_stream_segments (y_network None) false
      = Ok (AsArray (mk_array2 (2, 4) seg)) ∧
    seg !! 3 = seg !! 5 ∧ same_segment (y_network None) 3 5.
Proof.
  destruct (stream_segments_labelled (y_network None)
              (y_network_wf None) (y_network_single None)
              (y_network_sorted None) ltac:(simpl; lia))
    as (seg & Hseg & _ & _ & _ & _ & _ & Hedge & Hiff).
  exists seg. split; [exact Hseg|].
  assert (H34 : seg !! 4 = seg !! 3).
  { apply (Hedge 4 3 4); [done..|]. by apply (bool_decide_unpack _). }
  assert (H45 : seg !! 5 = seg !! 4).
  { apply (Hedge 5 4 5); [done..|]. by apply (bool_decide_unpack _). }
  assert (Heq : seg !! 3 = seg !! 5) by congruence.
  split; [done|]. apply Hiff; [| |done].
  - by apply (bool_decide_unpack _).
  - by apply (bool_decide_unpack _).
Defined.

Lemma y_network_fall_back_witness :
  get_stream_poi (y_network None) "springs" "LATLON"
    = get_stream_poi (y_network None) "heads" "CELL" ∧
  ∃ rc, get_stream_poi (y_network None) "springs" "LATLON" = Ok (RowCol rc).
Proof.
  destruct (unknown_selectors_fall_back (y_network None) "springs" "LATLON")
    as [Heq Hok].
  - by apply (bool_decide_unpack _).
  - by apply (bool_decide_unpack _).
  - split; [exact Heq|]. apply Hok, y_network_wf.
Defined.

Lemma line_network_confluence c : ¬ confluence line_network c.
Proof.
  unfold confluence, in_degree. simpl. rewrite !filter_cons, filter_nil.
  repeat case_decide; simpl; lia.
Qed.

Lemma line_network_wf : wf_network line_network.
Proof. split; [split|]; simpl; try done; repeat constructor. Qed.

Lemma empty_network_wf : wf_network empty_network.
Proof. split; [split|]; simpl; try done; constructor. Qed.

Lemma line_network_snap_witness :
  snap_points line_network [(0, 0)%R] "confluences" = Raise ValueError ∧
  snap_points empty_network [(0, 0)%R] "heads" = Raise ValueError.
Proof.
  destruct (empty_reference_is_rejected line_network [(0, 0)%R] "confluences")
    as (H1 & H2 & _).
  destruct (empty_reference_is_rejected empty_network [(0, 0)%R] "heads")
    as (_ & _ & H3).
  pose proof (H1 eq_refl) as _.
  split.
  - apply H2; [apply line_network_wf | apply line_network_confluence].
  - apply H3; [apply empty_network_wf | reflexivity].
Defined.

(** * Further properties *)

(** ** The constructor *)

Lemma take_at_out_of_range {A} (a : list A) idx i :
  i ∈ idx → length a ≤ i → take_at a idx = Raise IndexError.
Proof.
  unfold take_at. intros Hi Hlen. induction idx as [|j idx IH].
  { by apply elem_of_nil in Hi. }
  cbn [forM]. destruct (getitem a j) as [x|e] eqn:Hx.
  - cbn [mbind result_bind]. apply getitem_Ok in Hx.
    apply elem_of_cons in Hi as [->|Hi].
    + apply lookup_lt_Some in Hx. lia.
    + by rewrite (IH Hi).
  - unfold getitem in Hx. destruct (a !! j); [done|].
    injection Hx as <-. done.
Qed.

Lemma take_at_Raise {A} (a : list A) idx e :
  take_at a idx = Raise e → e = IndexError.
Proof.
  unfold take_at. induction idx as [|j idx IH]; [done|].
  cbn [forM]. destruct (getitem a j) as [x|e'] eqn:Hx.
  - cbn [mbind result_bind].
    destruct (forM (getitem a) idx) as [l|e'']; [done|].
    cbn [mbind result_bind]. intros [= <-]. by apply IH.
  - unfold getitem in Hx. destruct (a !! j); [done|].
    injection Hx as <-. cbn [mbind result_bind]. by intros [= <-].
Qed.

Lemma filter_sublist_impl {A} (P Q : A → Prop) `{!∀ x, Decision (P x)}
    `{!∀ x, Decision (Q x)} (l : list A) :
  (∀ x, P x → Q x) → filter P l `sublist_of` filter Q l.
Proof.
  intros HPQ. induction l as [|x l IH]; [done|]. rewrite !filter_cons.
  destruct (decide (P x)) as [HP|HP].
  - rewrite decide_True by auto. by apply sublist_skip.
  - destruct (decide (Q x)); [by apply sublist_cons | done].
Qed.

Lemma effective_threshold_nonneg n t :
  (0 <= t)%R → (0 <= effective_threshold n t)%R.
Proof.
  intros Ht. unfold effective_threshold. destruct (Reqb t 0); [|done].
  apply Rmult_le_pos; [apply pos_INR | lra].
Qed.

(** The pieces of a successful construction, with what each one brings. *)
Lemma init_shape dem flow threshold thetaref winsize self :
  __init__ dem flow threshold thetaref winsize = Ok self →
  let n := length (_ix self) in
  _ncells self = Flow.get_ncells flow ∧ _dims self = Flow.get_dims flow ∧
  _cellsize self = Flow.get_cellsize flow ∧
  length (_ixc self) = n ∧ length (_ax self) = n ∧ length (_zx self) = n ∧
  length (_dd self) = n ∧ length (_dx self) = n ∧
  (∃ chi, _chi self = Some chi ∧ length chi = n) ∧
  _ksn self = Some (zeros 0%R n) ∧ _slp self = None ∧
  Forall (fun c => c < _ncells self) (_ix self) ∧
  Forall (fun c => c < _ncells self) (_ixc self) ∧
  Forall (fun v => (0 <= v)%R) (_dd self) ∧
  Forall (fun v => (0 <= v)%R) (_dx self).
Proof.
  intros H. apply init_Ok in H. cbv zeta in H.
  destruct H as (ix & ixc & fx & zx & di & dd & dx & chi
                 & Hsel & Hfx & Hzx & Hfold & Hdx & Hchi & ->).
  apply select_edges_Ok in Hsel as (_ & Hlen & _).
  apply distance_scratch_final in Hfold
    as (Hl1 & Hl2 & Hpos & Hpos2 & _ & Hb & _). simpl in *.
  apply calculate_chi_Ok in Hchi as (buf & chi' & _ & Hchi' & Heq).
  assert (chi' = chi) as -> by (by injection Heq).
  cbn [_ix _ncells _chi] in Hchi'.
  split_and!; try done.
  - rewrite length_fmap. by eapply take_at_length.
  - by eapply take_at_length.
  - by eapply take_at_length.
  - exists chi. split; [done|]. by eapply take_at_length.
  - apply Forall_forall. intros g [n Hn]%list_elem_of_lookup.
    destruct (Hb n g) as [? _]; [lia|done..].
  - apply Forall_forall. intros r [n Hn]%list_elem_of_lookup.
    destruct (lookup_lt_is_Some_2 ix n) as [g Hg].
    { rewrite Hlen. by eapply lookup_lt_Some. }
    destruct (Hb n g) as (_ & _ & r' & Hr' & ? & _); [lia|done|]. congruence.
  - apply take_at_Ok in Hdx. apply Forall_forall.
    intros v [n Hn]%list_elem_of_lookup.
    destruct (Forall2_lookup_r _ _ _ _ _ Hdx Hn) as (g & _ & Hg).
    eapply Forall_forall in Hpos; [done|]. apply list_elem_of_lookup; eauto.
Qed.

(** X1. Whatever the flow graph, a network that [__init__] returns has
    its per-edge arrays in parallel: [_ixc], [_ax], [_zx], [_dd], [_dx],
    [_chi] and [_ksn] are as long as [_ix]; [_ksn] is all zeros, [_slp] is
    not assigned yet, and every giver and receiver is a cell index below
    [_ncells]. *)
Theorem init_arrays_parallel dem flow threshold thetaref winsize self :
  __init__ dem flow threshold thetaref winsize = Ok self →
  let n := length (_ix self) in
  length (_ixc self) = n ∧ length (_ax self) = n ∧ length (_zx self) = n ∧
  length (_dd self) = n ∧ length (_dx self) = n ∧
  (∃ chi, _chi self = Some chi ∧ length chi = n) ∧
  _ksn self = Some (zeros 0%R n) ∧ _slp self = None ∧
  Forall (fun c => c < _ncells self) (_ix self) ∧
  Forall (fun c => c < _ncells self) (_ixc self).
Proof.
  intros H. apply init_shape in H. cbv zeta in *. tauto.
Qed.

Lemma line_arrays_parallel_witness :
  ∃ self, __init__ line_dem line_flow 5 (45 / 100) 0 = Ok self ∧
          length (_dx self) = length (_ix self).
Proof.
  destruct (init_total line_dem line_flow 5 (45 / 100) 0 line_flow_wf)
    as [self Hself].
  exists self. split; [done|].
  by destruct (init_arrays_parallel _ _ _ _ _ _ Hself) as (_&_&_&_&?&_).
Defined.

(** X2. On a well-formed flow graph and terrain (edge arrays of one
    length with indices inside the raster, accumulation and elevation
    arrays as long as the raster, a shape that matches the number of
    cells) [__init__] returns, for every threshold and exponent; the
    network is well formed and has the shape and the cell count of the
    flow. *)
Theorem init_returns_wf_network dem flow threshold thetaref winsize :
  wf_flow dem flow →
  ∃ self, __init__ dem flow threshold thetaref winsize = Ok self ∧
          wf_network self ∧
          _dims self = Flow.get_dims flow ∧
          _ncells self = Flow.get_ncells flow.
Proof.
  intros Hwf. destruct (init_total dem flow threshold thetaref winsize Hwf)
    as [self Hself].
  exists self. split; [done|].
  destruct (init_shape _ _ _ _ _ _ Hself)
    as (Hn & Hd & _ & Hl & _ & _ & _ & _ & _ & _ & _ & Hix & Hixc & _).
  split_and!; [|done..]. split; [by split|].
  rewrite Hd, Hn. by destruct Hwf.
Qed.

Lemma line_flow_returns_witness :
  ∃ self, __init__ line_dem line_flow 5 (45 / 100) 0 = Ok self ∧
          wf_network self.
Proof.
  destruct (init_returns_wf_network line_dem line_flow 5 (45 / 100) 0
              line_flow_wf) as (self & Hself & Hwf & _).
  by exists self.
Defined.

Lemma select_edges_Raise flow t :
  (∃ g, g ∈ Flow._ix flow ∧ length (Flow.get_flow_accumulation flow) ≤ g)
  ∨ length (Flow._ixc flow) ≠ length (Flow._ix flow) →
  select_edges flow t = Raise IndexError.
Proof.
  intros Hbad. unfold select_edges. cbv zeta.
  destruct (take_at ((λ a : R, Rltb t a) <$> Flow.get_flow_accumulation flow)
              (Flow._ix flow)) as [I|e] eqn:HI.
  - cbn [mbind result_bind]. destruct Hbad as [(g & Hg & Hlen)|Hlen].
    { rewrite (take_at_out_of_range _ _ g) in HI; [done..|].
      by rewrite length_fmap. }
    apply take_at_length in HI. unfold compress.
    rewrite (decide_True (P := length I = length (Flow._ix flow))) by done.
    cbn [mbind result_bind]. rewrite decide_False by lia. done.
  - cbn [mbind result_bind]. destruct Hbad as [(g & Hg & Hlen)|Hlen].
    { rewrite (take_at_out_of_range _ _ g) in HI; [|done|].
      - by injection HI as <-.
      - by rewrite length_fmap. }
    by apply take_at_Raise in HI as ->.
Qed.

(** X3. [__init__] raises [IndexError], whatever its other arguments,
    when a giver of the flow graph lies outside the accumulation array, or
    when the two edge arrays of the flow differ in length. *)
Theorem init_rejects_malformed_flow dem flow threshold thetaref winsize :
  (∃ g, g ∈ Flow._ix flow ∧ length (Flow.get_flow_accumulation flow) ≤ g)
  ∨ length (Flow._ixc flow) ≠ length (Flow._ix flow) →
  __init__ dem flow threshold thetaref winsize = Raise IndexError.
Proof.
  intros Hbad. unfold __init__. cbv zeta.
  by rewrite (select_edges_Raise _ _ Hbad).
Qed.

Lemma stray_flow_rejected_witness :
  __init__ line_dem stray_flow 5 (45 / 100) 0 = Raise IndexError.
Proof.
  apply init_rejects_malformed_flow. left. exists 7. split.
  - by apply (bool_decide_unpack _).
  - simpl. lia.
Defined.

Lemma exceeds_mono fac t1 t2 e :
  (t1 <= t2)%R → exceeds fac t2 e → exceeds fac t1 e.
Proof. intros Ht (a & Ha & Hlt). exists a. split; [done|lra]. Qed.

(** X4. Raising the threshold in force never adds an edge: the edges of
    the network built with the higher threshold are a sub-sequence of the
    edges built with the lower one. The threshold in force for the
    argument 0 is [ncells * 0.005], so 0 is not the lowest threshold. *)
Theorem higher_threshold_selects_fewer_edges
    dem flow t1 t2 thetaref winsize self1 self2 :
  (effective_threshold (Flow.get_ncells flow) t1
   <= effective_threshold (Flow.get_ncells flow) t2)%R →
  __init__ dem flow t1 thetaref winsize = Ok self1 →
  __init__ dem flow t2 thetaref winsize = Ok self2 →
  zip (_ix self2) (_ixc self2) `sublist_of` zip (_ix self1) (_ixc self1).
Proof.
  intros Ht H1 H2.
  apply init_Ok in H1. cbv zeta in H1.
  destruct H1 as (ix1 & ixc1 & ? & ? & ? & ? & ? & ?
                  & Hsel1 & _ & _ & _ & _ & _ & ->).
  apply init_Ok in H2. cbv zeta in H2.
  destruct H2 as (ix2 & ixc2 & ? & ? & ? & ? & ? & ?
                  & Hsel2 & _ & _ & _ & _ & _ & ->).
  cbn [_ix _ixc set_ksn set_chi].
  apply select_edges_Ok in Hsel1 as (_ & _ & ->).
  apply select_edges_Ok in Hsel2 as (_ & _ & ->).
  apply filter_sublist_impl. intros e. by apply exceeds_mono.
Qed.

Lemma line_thresholds_witness :
  ∃ self1 self2,
    __init__ line_dem line_flow 5 (45 / 100) 0 = Ok self1 ∧
    __init__ line_dem line_flow 15 (45 / 100) 0 = Ok self2 ∧
    zip (_ix self2) (_ixc self2) `sublist_of` zip (_ix self1) (_ixc self1).
Proof.
  destruct (init_total line_dem line_flow 5 (45 / 100) 0 line_flow_wf)
    as [self1 H1].
  destruct (init_total line_dem line_flow 15 (45 / 100) 0 line_flow_wf)
    as [self2 H2].
  exists self1, self2. split_and!; [done..|].
  eapply (higher_threshold_selects_fewer_edges _ _ 5%R 15%R); [|done..].
  rewrite !effective_threshold_nonzero by lra. lra.
Defined.

(** X5. The edges of a constructed network are a sub-sequence of the
    edges of the flow, in the order of the flow; so the network has single
    receivers when the flow has, and its edges are upstream first when
    those of the flow are. *)
Theorem network_is_subgraph_of_flow dem flow threshold thetaref winsize self :
  __init__ dem flow threshold thetaref winsize = Ok self →
  zip (_ix self) (_ixc self) `sublist_of` zip (Flow._ix flow) (Flow._ixc flow)
  ∧ (NoDup (Flow._ix flow) → NoDup (_ix self))
  ∧ (topologically_sorted (Flow._ix flow) (Flow._ixc flow) →
     topologically_sorted (_ix self) (_ixc self)).
Proof.
  intros H. apply init_Ok in H. cbv zeta in H.
  destruct H as (ix & ixc & ? & ? & ? & ? & ? & ?
                 & Hsel & _ & _ & _ & _ & _ & ->).
  cbn [_ix _ixc set_ksn set_chi].
  pose proof (select_edges_graph _ _ _ _ Hsel) as (_ & _ & _ & Hnd & Hts).
  apply select_edges_Ok in Hsel as (_ & _ & ->).
  split_and!; [apply sublist_filter|done..].
Qed.

Lemma line_subgraph_witness :
  ∃ self, __init__ line_dem line_flow 15 (45 / 100) 0 = Ok self ∧
          NoDup (_ix self) ∧ topologically_sorted (_ix self) (_ixc self).
Proof.
  destruct (init_total line_dem line_flow 15 (45 / 100) 0 line_flow_wf)
    as [self Hself].
  exists self. split; [done|].
  destruct (network_is_subgraph_of_flow _ _ _ _ _ _ Hself) as (_ & Hnd & Hts).
  split; [apply Hnd, line_flow_NoDup | apply Hts, line_flow_sorted].
Defined.

Lemma zip_lookup_Some {A B} (l : list A) (k : list B) n x y :
  l !! n = Some x → k !! n = Some y → zip l k !! n = Some (x, y).
Proof.
  revert k n. induction l as [|a l IH]; intros [|b k] [|n]; try done.
  - by intros [= ->] [= ->].
  - simpl. apply IH.
Qed.

(** X6. Each edge of a constructed network carries the values of its
    giver cell: the accumulation there exceeds the threshold in force,
    [_ax] is that accumulation times the squared cell size, and [_zx] is
    the elevation of that cell. *)
Theorem init_samples_giver_cells dem flow threshold thetaref winsize self :
  __init__ dem flow threshold thetaref winsize = Ok self →
  ∀ n g, _ix self !! n = Some g →
    ∃ a z, Flow.get_flow_accumulation flow !! g = Some a ∧
           (effective_threshold (Flow.get_ncells flow) threshold < a)%R ∧
           DEM.read_array dem !! g = Some z ∧
           _ax self !! n = Some (a * Flow.get_cellsize flow ^ 2)%R ∧
           _zx self !! n = Some z.
Proof.
  intros H. apply init_Ok in H. cbv zeta in H.
  destruct H as (ix & ixc & fx & zx & ? & ? & ? & ?
                 & Hsel & Hfx & Hzx & _ & _ & _ & ->).
  cbn [_ix _ax _zx set_ksn set_chi]. intros n g Hg.
  apply select_edges_Ok in Hsel as (_ & Hlen & Hz).
  apply take_at_Ok in Hfx. apply take_at_Ok in Hzx.
  destruct (Forall2_lookup_l _ _ _ _ _ Hfx Hg) as (a & Ha & Hga).
  destruct (Forall2_lookup_l _ _ _ _ _ Hzx Hg) as (z & Hz' & Hgz).
  exists a, z. split_and!; try done.
  - destruct (lookup_lt_is_Some_2 ixc n) as [r Hr].
    { rewrite <- Hlen. by eapply lookup_lt_Some. }
    pose proof (zip_lookup_Some _ _ _ _ _ Hg Hr) as He. rewrite Hz in He.
    apply list_elem_of_lookup_2, list_elem_of_filter in He
      as [(a' & Ha' & Hlt) _].
    simpl in Ha'. by assert (a' = a) as -> by congruence.
  - by rewrite list_lookup_fmap, Ha.
Qed.

Lemma line_samples_witness :
  ∃ self a, __init__ line_dem line_flow 5 (45 / 100) 0 = Ok self ∧
            _ax self !! 0 = Some a ∧ (5 < a)%R.
Proof.
  destruct (init_total line_dem line_flow 5 (45 / 100) 0 line_flow_wf)
    as [self Hself].
  destruct (line_network_edges _ _ _ Hself) as [Hix _].
  destruct (init_samples_giver_cells _ _ _ _ _ _ Hself 0 0)
    as (a & z & Ha & Hlt & _ & Hax & _).
  { by rewrite Hix. }
  exists self, (a * Flow.get_cellsize line_flow ^ 2)%R.
  split_and!; [done..|].
  rewrite effective_threshold_nonzero in Hlt by lra. simpl. lra.
Defined.

(** ** Distances and chi *)

Lemma foldM_arange_rev_pres {S} (I : S → Prop)
    (step : S → nat → result S) s0 len s' :
  foldM step s0 (arange_rev len) = Ok s' →
  I s0 → (∀ k s s1, k < len → I s → step s k = Ok s1 → I s1) → I s'.
Proof.
  intros Hf H0 Hstep.
  apply (foldM_arange_rev_Ok_inv (fun _ => I) step s0 len s' Hf H0).
  intros k s s1 Hk. by apply Hstep.
Qed.

Lemma chi_fold_nonneg self thetaref a0 buf :
  (0 <= a0)%R → Forall (fun v => (0 <= v)%R) (_dd self) →
  foldM (chi_step a0 thetaref self) (zeros 0%R (_ncells self))
        (arange_rev (length (_ix self))) = Ok buf →
  Forall (fun v => (0 <= v)%R) buf.
Proof.
  intros Ha Hdd Hf.
  apply (foldM_arange_rev_pres (Forall (fun v => (0 <= v)%R)) _ _ _ _ Hf).
  - apply Forall_replicate. lra.
  - intros k s s1 _ Hs Hstep.
    apply chi_step_Ok in Hstep as (g & r & v & d & a & _ & _ & Hv & Hd & Hax & _ & ->).
    apply Forall_insert; [done|].
    assert (0 <= v)%R.
    { eapply Forall_forall in Hs; [done|]. apply list_elem_of_lookup; eauto. }
    assert (0 <= d)%R.
    { eapply Forall_forall in Hdd; [done|]. apply list_elem_of_lookup; eauto. }
    unfold chi_increment. rewrite Hd, Hax.
    pose proof (chi_term_nonneg a0 d a thetaref Ha). lra.
Qed.

Lemma take_at_Forall {A} (P : A → Prop) (a : list A) idx l :
  Forall P a → take_at a idx = Ok l → Forall P l.
Proof.
  intros Ha Hl%take_at_Ok. apply Forall_forall.
  intros x [n Hn]%list_elem_of_lookup.
  destruct (Forall2_lookup_r _ _ _ _ _ Hl Hn) as (i & _ & Hi).
  eapply Forall_forall in Ha; [done|]. apply list_elem_of_lookup; eauto.
Qed.

(** X7. [calculate_chi] with a non-negative [a0] on non-negative edge
    lengths and positive areas changes nothing but [_chi], which becomes
    an array as long as [_ix] without a negative entry, whatever the
    exponent and the order of the edges. *)
Theorem chi_is_nonnegative self thetaref a0 self' :
  (0 <= a0)%R → Forall (fun v => (0 <= v)%R) (_dd self) →
  Forall (fun a => (0 < a)%R) (_ax self) →
  calculate_chi self thetaref a0 = Ok self' →
  ∃ chi, self' = set_chi self chi ∧ length chi = length (_ix self) ∧
         Forall (fun v => (0 <= v)%R) chi.
Proof.
  intros Ha Hdd _ H.
  apply calculate_chi_Ok in H as (buf & chi & Hf & Ht & ->).
  exists chi. split_and!; [done|by eapply take_at_length|].
  eapply take_at_Forall; [|done]. by eapply chi_fold_nonneg.
Qed.

(** X8. In a constructed network the edge lengths [_dd] and the
    distances [_dx] are not negative, whatever the order of the edges of
    the flow; when the areas [_ax] are positive, the chi values are not
    negative either. *)
Theorem init_distances_nonnegative dem flow threshold thetaref winsize self :
  __init__ dem flow threshold thetaref winsize = Ok self →
  Forall (fun v => (0 <= v)%R) (_dd self) ∧
  Forall (fun v => (0 <= v)%R) (_dx self) ∧
  (Forall (fun a => (0 < a)%R) (_ax self) →
   ∃ chi, _chi self = Some chi ∧ Forall (fun v => (0 <= v)%R) chi).
Proof.
  intros H. pose proof (init_shape _ _ _ _ _ _ H) as Hs. cbv zeta in Hs.
  destruct Hs as (_&_&_&_&_&_&_&_&_&_&_&_&_& Hdd & Hdx).
  split_and!; [done..|]. intros _.
  apply init_Ok in H. cbv zeta in H.
  destruct H as (ix & ixc & fx & zx & di & dd & dx & chi
                 & _ & _ & _ & _ & _ & Hchi & ->).
  cbn [_dd _chi set_ksn set_chi] in *. exists chi. split; [done|].
  apply calculate_chi_Ok in Hchi as (buf & chi' & Hf & Ht & Heq).
  assert (chi' = chi) as -> by (by injection Heq).
  eapply take_at_Forall; [|done].
  eapply (chi_fold_nonneg _ thetaref 1); [lra| |done]. done.
Qed.

Lemma line_nonnegative_witness :
  ∃ self chi, __init__ line_dem line_flow 5 (45 / 100) 0 = Ok self ∧
              Forall (fun v => (0 <= v)%R) (_dx self) ∧
              _chi self = Some chi ∧ Forall (fun v => (0 <= v)%R) chi.
Proof.
  destruct (init_total line_dem line_flow 5 (45 / 100) 0 line_flow_wf)
    as [self Hself].
  assert (Hax : Forall (fun a => (0 < a)%R) (_ax self)).
  { eapply init_area_positive; [| |exact Hself]; simpl.
    - repeat constructor; lra.
    - lra. }
  destruct (init_distances_nonnegative _ _ _ _ _ _ Hself) as (_ & Hdx & Hchi).
  destruct (Hchi Hax) as (chi & Hc & Hpos).
  by exists self, chi.
Defined.

Lemma line_chi_nonnegative_witness :
  ∃ self' chi, calculate_chi line_network (1 / 2) 2 = Ok self' ∧
               _chi self' = Some chi ∧ Forall (fun v => (0 <= v)%R) chi.
Proof.
  destruct (calculate_chi_total line_network (1 / 2) 2) as [chi0 Hchi].
  { apply line_network_wf. }
  { done. }
  { done. }
  destruct (chi_is_nonnegative line_network (1 / 2) 2 _ ltac:(lra)
              ltac:(simpl; repeat constructor; lra)
              ltac:(simpl; repeat constructor; lra) Hchi)
    as (chi & Heq & _ & Hpos).
  exists (set_chi line_network chi0), chi. split_and!; [done| |done].
  by rewrite Heq.
Defined.

(** ** The reference area is a scale factor *)

Lemma chi_step_scale a0 thetaref self buf k buf1 :
  chi_step 1 thetaref self buf k = Ok buf1 →
  chi_step a0 thetaref self ((fun c => a0 * c)%R <$> buf) k
  = Ok ((fun c => a0 * c)%R <$> buf1).
Proof.
  intros H. apply chi_step_Ok in H
    as (g & r & v & d & a & Hg & Hr & Hv & Hd & Ha & Hlt & ->).
  unfold chi_step.
  rewrite (proj2 (getitem_Ok _ _ _) Hg). cbn [mbind result_bind].
  rewrite (proj2 (getitem_Ok _ _ _) Hr). cbn [mbind result_bind].
  rewrite (proj2 (getitem_Ok ((fun c => a0 * c)%R <$> buf) r (a0 * v)%R)).
  2:{ by rewrite list_lookup_fmap, Hv. }
  cbn [mbind result_bind].
  rewrite (proj2 (getitem_Ok _ _ _) Hd). cbn [mbind result_bind].
  rewrite (proj2 (getitem_Ok _ _ _) Ha). cbn [mbind result_bind].
  rewrite setitem_lt by (by rewrite length_fmap).
  f_equal. rewrite list_fmap_insert. f_equal.
  unfold chi_increment. rewrite Hd, Ha. unfold Rdiv. ring.
Qed.

Lemma chi_fold_scale a0 thetaref self l buf buf1 :
  foldM (chi_step 1 thetaref self) buf l = Ok buf1 →
  foldM (chi_step a0 thetaref self) ((fun c => a0 * c)%R <$> buf) l
  = Ok ((fun c => a0 * c)%R <$> buf1).
Proof.
  revert buf. induction l as [|k l IH]; intros buf; cbn [foldM].
  - by intros [= ->].
  - intros (b & Hb & Hl)%bind_Ok.
    rewrite (chi_step_scale _ _ _ _ _ _ Hb). cbn [mbind result_bind].
    by apply IH.
Qed.

(** X9. The reference area only scales: when [calculate_chi] returns
    with [a0 = 1], it returns with every [a0], and its chi is [a0] times
    the chi computed with 1. *)
Theorem chi_scales_with_a0 self thetaref a0 self1 :
  calculate_chi self thetaref 1 = Ok self1 →
  ∃ chi1, _chi self1 = Some chi1 ∧
          calculate_chi self thetaref a0
          = Ok (set_chi self ((fun c => a0 * c)%R <$> chi1)).
Proof.
  intros H. apply calculate_chi_Ok in H as (buf & chi & Hf & Ht & ->).
  exists chi. split; [done|]. unfold calculate_chi. cbv zeta.
  apply (chi_fold_scale a0) in Hf.
  replace ((fun c => a0 * c)%R <$> zeros 0%R (_ncells self))
    with (zeros 0%R (_ncells self)) in Hf.
  2:{ unfold zeros. rewrite fmap_replicate. f_equal. ring. }
  rewrite Hf. cbn [mbind result_bind].
  rewrite (proj2 (take_at_Ok _ _ ((fun c => a0 * c)%R <$> chi))); [done|].
  apply take_at_Ok in Ht. apply Forall2_fmap_r.
  eapply Forall2_impl; [exact Ht|]. intros i x Hx. simpl.
  by rewrite list_lookup_fmap, Hx.
Qed.

Lemma line_chi_scales_witness :
  ∃ self1 chi1, calculate_chi line_network (1 / 2) 1 = Ok self1 ∧
    _chi self1 = Some chi1 ∧
    calculate_chi line_network (1 / 2) 3
    = Ok (set_chi line_network ((fun c => 3 * c)%R <$> chi1)).
Proof.
  destruct (calculate_chi_total line_network (1 / 2) 1) as [chi0 Hchi].
  { apply line_network_wf. }
  { done. }
  { done. }
  destruct (chi_scales_with_a0 line_network (1 / 2) 3 _ Hchi)
    as (chi1 & H1 & H3).
  by exists (set_chi line_network chi0), chi1.
Defined.

(** ** With a zero exponent chi is the distance to the outlet *)

Lemma distance_chi_fold dims geot ix ixc a0 thetaref self l di dd0 s :
  _ix self = ix → _ixc self = ixc →
  (∀ k, k ∈ l → ∃ d a, _dd self !! k = Some d ∧ _ax self !! k = Some a ∧
       (a0 * d / Rpower a thetaref)%R = edge_length dims geot ix ixc k) →
  foldM (distance_step dims geot ix ixc) (di, dd0) l = Ok s →
  foldM (chi_step a0 thetaref self) di l = Ok s.1.
Proof.
  intros Hix Hixc. revert di dd0.
  induction l as [|k l IH]; intros di dd0 Hinc; cbn [foldM].
  - by intros [= <-].
  - intros (s1 & Hs1 & Hl)%bind_Ok.
    apply distance_step_Ok in Hs1
      as (g & r & v & Hg & Hr & Hv & Hk & Hgl & _ & ->).
    destruct (Hinc k) as (d & a & Hd & Ha & Heq).
    { apply elem_of_cons. by left. }
    assert (chi_step a0 thetaref self di k
            = Ok (<[g := (v + edge_length dims geot ix ixc k)%R]> di)) as ->.
    { unfold chi_step. rewrite Hix, Hixc.
      rewrite (proj2 (getitem_Ok _ _ _) Hg). cbn [mbind result_bind].
      rewrite (proj2 (getitem_Ok _ _ _) Hr). cbn [mbind result_bind].
      rewrite (proj2 (getitem_Ok _ _ _) Hv). cbn [mbind result_bind].
      rewrite (proj2 (getitem_Ok _ _ _) Hd). cbn [mbind result_bind].
      rewrite (proj2 (getitem_Ok _ _ _) Ha). cbn [mbind result_bind].
      rewrite setitem_lt by done. by rewrite Heq. }
    cbn [mbind result_bind]. eapply IH; [|done]. intros k' Hk'. apply Hinc. apply elem_of_cons. by right.
Qed.

(** X10. With exponent 0 chi is the distance to the outlet: a network
    built with [thetaref = 0] has [_chi] equal to [_dx]. *)
Theorem chi_at_theta_zero_is_distance dem flow threshold winsize self :
  __init__ dem flow threshold 0 winsize = Ok self →
  _chi self = Some (_dx self).
Proof.
  intros H. apply init_Ok in H. cbv zeta in H.
  destruct H as (ix & ixc & fx & zx & di & dd & dx & chi
                 & _ & Hfx & _ & Hfold & Hdx & Hchi & ->).
  cbn [_chi _dx set_ksn set_chi]. f_equal.
  pose proof (distance_scratch_final _ _ _ _ _ _ Hfold)
    as (_ & _ & _ & _ & Hdd & _). simpl in Hdd.
  apply take_at_length in Hfx.
  eapply (distance_chi_fold _ _ ix ixc 1 0
            (mkNetwork (Flow.get_size flow) (Flow.get_dims flow)
               (Flow.get_geotransform flow) (Flow.get_cellsize flow)
               (Flow.get_projection flow) (Flow.get_ncells flow) ix ixc
               ((fun a => a * Flow.get_cellsize flow ^ 2)%R <$> fx) zx dd dx
               None None None None)) in Hfold; [|done..|].
  - unfold calculate_chi in Hchi. cbv zeta in Hchi.
    cbn [_ix _ncells] in Hchi. rewrite Hfold in Hchi.
    cbn [mbind result_bind] in Hchi. simpl in Hchi. rewrite Hdx in Hchi.
    cbn [mbind result_bind] in Hchi. injection Hchi as <-. done.
  - intros k Hk. cbn [_dd _ax].
    assert (k < length ix) as Hlt.
    { unfold arange_rev in Hk.
      apply list_elem_of_In, in_rev, list_elem_of_In, elem_of_seq in Hk. lia. }
    destruct (lookup_lt_is_Some_2 fx k) as [a Ha]; [lia|].
    eexists _, _. split_and!; [by apply Hdd; [lia|]| |].
    + by rewrite list_lookup_fmap, Ha.
    + unfold Rpower. rewrite Rmult_0_l, exp_0. field.
Qed.

Lemma line_theta_zero_witness :
  ∃ self, __init__ line_dem line_flow 5 0 0 = Ok self ∧
          _chi self = Some (_dx self).
Proof.
  destruct (init_total line_dem line_flow 5 0 0 line_flow_wf) as [self Hself].
  exists self. split; [done|].
  by apply (chi_at_theta_zero_is_distance _ _ _ _ _ Hself).
Defined.

(** ** Chi at an edge into an outlet *)

Lemma chi_fold_untouched self thetaref a0 buf :
  foldM (chi_step a0 thetaref self) (zeros 0%R (_ncells self))
        (arange_rev (length (_ix self))) = Ok buf →
  ∀ c, c ∉ _ix self → c < length buf → buf !! c = Some 0%R.
Proof.
  intros Hf.
  apply (foldM_arange_rev_pres
           (fun buf => ∀ c, c ∉ _ix self → c < length buf → buf !! c = Some 0%R)
           _ _ _ _ Hf).
  - intros c _ Hc. unfold zeros in *. rewrite length_replicate in Hc.
    by apply lookup_replicate_2.
  - intros k s s1 _ Hs Hstep.
    apply chi_step_Ok in Hstep as (g & r & v & d & a & Hg & _ & _ & _ & _ & _ & ->).
    intros c Hc Hlt. rewrite length_insert in Hlt.
    rewrite list_lookup_insert_ne; [by apply Hs|].
    intros <-. apply Hc. apply list_elem_of_lookup. eauto.
Qed.

(** Both reverse passes at an edge into an outlet, chi with the real
    power. *)
Lemma init_outlet_edges dem flow threshold thetaref winsize self :
  NoDup (Flow._ix flow) →
  topologically_sorted (Flow._ix flow) (Flow._ixc flow) →
  __init__ dem flow threshold thetaref winsize = Ok self →
  ∀ n r, _ixc self !! n = Some r → r ∉ _ix self →
    ∃ d a chi, _dd self !! n = Some d ∧ _ax self !! n = Some a ∧
               _dx self !! n = Some d ∧
               _chi self = Some chi ∧
               chi !! n = Some (1 * d / Rpower a thetaref)%R.
Proof.
  intros Hnd Htopo H n r Hr Hnot.
  pose proof (init_distances _ _ _ _ _ _ Hnd Htopo H) as Hd. cbv zeta in Hd.
  destruct Hd as (Hlen & Hnd' & Htopo' & Hldd & Hdd & _).
  pose proof (init_shape _ _ _ _ _ _ H) as Hs. cbv zeta in Hs.
  destruct Hs as (_ & _ & _ & _ & Hlax & _).
  apply init_Ok in H. cbv zeta in H.
  destruct H as (ix & ixc & fx & zx & di & dd & dx & chi
                 & _ & _ & _ & Hfold & Hdx & Hchi & ->).
  cbn [_ix _ixc _dd _dx _ax _chi _dims _geot set_ksn set_chi] in *.
  destruct (lookup_lt_is_Some_2 ix n) as [g Hg].
  { rewrite Hlen. by eapply lookup_lt_Some. }
  destruct (Hdd n g r Hg Hr) as [Hddn _].
  destruct (lookup_lt_is_Some_2 ((fun a => a * Flow.get_cellsize flow ^ 2)%R <$> fx) n)
    as [a Ha].
  { rewrite Hlax. by eapply lookup_lt_Some. }
  eexists _, a, chi. split_and!; [done..| |done|].
  - pose proof (distance_scratch_final _ _ _ _ _ _ Hfold)
      as (Hl1 & _ & _ & _ & _ & _ & Hzero). simpl in Hl1, Hzero.
    eapply (foldM_arange_rev_Ok_inv
              (distances_done (Flow.get_dims flow) (Flow.get_geotransform flow)
                 (Flow.get_ncells flow) ix ixc)) in Hfold.
    + destruct Hfold as (_ & _ & Hacc & _). simpl in Hacc.
      eapply (accumulated_base _ ix ixc di dx n r Hacc); try done.
      intros c Hc Hlt. apply Hzero; [done|lia].
    + apply distances_done_init.
    + intros k s s1 _. by apply distances_done_step.
  - apply calculate_chi_Ok in Hchi as (buf & chi' & Hf & Ht & Heq).
    assert (chi' = chi) as -> by (by injection Heq).
    pose proof (chi_fold_untouched _ _ _ _ Hf) as Hzero.
    match type of Hf with
    | foldM (chi_step _ _ ?s) _ _ = _ =>
        eapply (foldM_arange_rev_Ok_inv (chi_done s thetaref 1)) in Hf
    end.
    + destruct Hf as (_ & Hacc & _). cbn [_ix _ixc] in *.
      pose proof (accumulated_base _ ix ixc buf chi n r Hacc Hzero Hlen Ht Hr Hnot)
        as Hn.
      unfold chi_increment in Hn. cbn [_dd _ax] in Hn.
      by rewrite Hddn, Ha in Hn.
    + unfold chi_done, zeros. split; [by rewrite length_replicate|]. split.
      * intros n' g' r' Hn' Hg'. apply lookup_lt_Some in Hg'. simpl in *. lia.
      * intros n' ??. lia.
    + intros k s s1 _. by apply chi_done_step.
Qed.

(** X11. At an edge into an outlet, a receiver that gives to no cell,
    [_dx] is the length of the edge itself and, when the area of the edge
    is positive, chi is the term of the edge itself,
    [1 * _dd[n] / _ax[n] ** thetaref]; for a flow with single receivers
    and edges upstream first. *)
Theorem outlet_edge_values dem flow threshold thetaref winsize self :
  NoDup (Flow._ix flow) →
  topologically_sorted (Flow._ix flow) (Flow._ixc flow) →
  __init__ dem flow threshold thetaref winsize = Ok self →
  ∀ n r, _ixc self !! n = Some r → r ∉ _ix self →
    ∃ d a chi, _dd self !! n = Some d ∧ _ax self !! n = Some a ∧
               _dx self !! n = Some d ∧
               _chi self = Some chi ∧
               ((0 < a)%R → chi !! n = Some (1 * d / Rpower a thetaref)%R).
Proof.
  intros Hnd Htopo H n r Hr Hnot.
  destruct (init_outlet_edges _ _ _ _ _ _ Hnd Htopo H n r Hr Hnot)
    as (d & a & chi & ? & ? & ? & ? & ?).
  by exists d, a, chi.
Qed.

Lemma line_outlet_edge_witness :
  ∃ self d a chi,
    __init__ line_dem line_flow 5 (45 / 100) 0 = Ok self ∧
    _dd self !! 1 = Some d ∧ _dx self !! 1 = Some d ∧
    _ax self !! 1 = Some a ∧ _chi self = Some chi ∧
    chi !! 1 = Some (1 * d / Rpower a (45 / 100))%R.
Proof.
  destruct (init_total line_dem line_flow 5 (45 / 100) 0 line_flow_wf)
    as [self Hself].
  destruct (line_network_edges _ _ _ Hself) as [Hix Hixc].
  assert (Hax : Forall (fun a => (0 < a)%R) (_ax self)).
  { eapply init_area_positive; [| |exact Hself]; simpl.
    - repeat constructor; lra.
    - lra. }
  destruct (outlet_edge_values _ _ _ _ _ _
              line_flow_NoDup line_flow_sorted Hself 1 2)
    as (d & a & chi & Hdd & Ha & Hdx & Hchi & Hc).
  - by rewrite Hixc.
  - rewrite Hix. by apply (bool_decide_unpack _).
  - exists self, d, a, chi. split_and!; try done. apply Hc.
    eapply Forall_forall in Hax; [done|]. by eapply list_elem_of_lookup_2.
Defined.

(** ** A threshold that no cell passes *)

(** X12. When no accumulation value exceeds the threshold in force,
    [__init__] on a well-formed flow returns a network without edges: all
    its arrays, [_chi] and [_ksn] included, are empty. *)
Theorem threshold_above_accumulation_gives_empty_network
    dem flow threshold thetaref winsize :
  wf_flow dem flow →
  Forall (fun a => (a <= effective_threshold (Flow.get_ncells flow) threshold)%R)
         (Flow.get_flow_accumulation flow) →
  ∃ self, __init__ dem flow threshold thetaref winsize = Ok self ∧
          _ix self = [] ∧ _ixc self = [] ∧ _ax self = [] ∧ _zx self = [] ∧
          _dd self = [] ∧ _dx self = [] ∧
          _chi self = Some [] ∧ _ksn self = Some [].
Proof.
  intros Hwf Hfac.
  destruct (init_total dem flow threshold thetaref winsize Hwf) as [self Hself].
  exists self. split; [done|].
  pose proof (init_shape _ _ _ _ _ _ Hself) as Hs. cbv zeta in Hs.
  destruct Hs as (_ & _ & _ & Hixc & Hax & Hzx & Hdd & Hdx
                  & (chi & Hchi & Hlchi) & Hksn & _).
  assert (_ix self = []) as Hix.
  { apply init_Ok in Hself. cbv zeta in Hself.
    destruct Hself as (ix & ixc & ? & ? & ? & ? & ? & ?
                       & Hsel & _ & _ & _ & _ & _ & ->).
    cbn [_ix set_ksn set_chi]. apply select_edges_Ok in Hsel as (_ & Hlen & Hz).
    rewrite filter_none in Hz.
    - apply (f_equal length) in Hz. rewrite length_zip in Hz. simpl in Hz.
      apply length_zero_iff_nil. lia.
    - intros e _ (a & Ha & Hlt).
      eapply Forall_forall in Hfac; [|by eapply list_elem_of_lookup_2].
      simpl in Hfac. lra. }
  rewrite Hix in *. simpl in *.
  split_and!; try done; try (by apply length_zero_iff_nil).
  rewrite Hchi. f_equal. by apply length_zero_iff_nil.
Qed.

Lemma line_empty_network_witness :
  ∃ self, __init__ line_dem line_flow 100 (45 / 100) 0 = Ok self ∧
          _ix self = [] ∧ _chi self = Some [].
Proof.
  destruct (threshold_above_accumulation_gives_empty_network
              line_dem line_flow 100 (45 / 100) 0 line_flow_wf)
    as (self & Hself & Hix & _ & _ & _ & _ & _ & Hchi & _).
  { rewrite effective_threshold_nonzero by lra. simpl.
    repeat constructor; lra. }
  by exists self.
Defined.

(** ** Distance and chi as sums along the flow path *)

Lemma path_sum_total (ix ixc : list nat) (w xs : list R) :
  length ix = length ixc → topologically_sorted ix ixc →
  length w = length ix →
  (∀ n r d, ixc !! n = Some r → r ∉ ix → w !! n = Some d →
            xs !! n = Some d) →
  (∀ n m c d, ixc !! n = Some c → ix !! m = Some c → w !! n = Some d →
              ∃ xm, xs !! m = Some xm ∧ xs !! n = Some (d + xm)%R) →
  ∀ n, n < length ix → ∃ s, path_sum ix ixc w n s ∧ xs !! n = Some s.
Proof.
  intros Hlen Hsorted Hw Hbase Hstep.
  assert (Hind : ∀ k n, length ix - n ≤ k → n < length ix →
                        ∃ s, path_sum ix ixc w n s ∧ xs !! n = Some s).
  { induction k as [|k IH]; intros n Hk Hn; [lia|].
    destruct (lookup_lt_is_Some_2 ixc n) as [r Hr]; [lia|].
    destruct (lookup_lt_is_Some_2 w n) as [d Hd]; [lia|].
    destruct (decide (r ∈ ix)) as [[m Hm]%list_elem_of_lookup|Hnot].
    - pose proof (Hsorted n m r Hr Hm) as Hnm.
      destruct (IH m) as (s & Hs & Hxs).
      { lia. }
      { by eapply lookup_lt_Some. }
      destruct (Hstep n m r d Hr Hm Hd) as (xm & Hxm & Hxn).
      assert (xm = s) as -> by congruence.
      exists (d + s)%R. split; [by eapply path_sum_step|done].
    - exists d. split; [by eapply path_sum_outlet|]. by eapply Hbase. }
  intros n Hn. by apply (Hind (length ix) n); [lia|].
Qed.

(** X13. [_dx] is the distance to the outlet along the flow path: for
    every edge of a network built from a flow with single receivers and
    edges upstream first, [_dx[n]] is the sum of the edge lengths [_dd]
    from edge [n] down to the edge into an outlet. *)
Theorem dx_is_the_length_of_the_flow_path
    dem flow threshold thetaref winsize self :
  NoDup (Flow._ix flow) →
  topologically_sorted (Flow._ix flow) (Flow._ixc flow) →
  __init__ dem flow threshold thetaref winsize = Ok self →
  ∀ n, n < length (_ix self) →
    ∃ s, path_sum (_ix self) (_ixc self) (_dd self) n s ∧
         _dx self !! n = Some s.
Proof.
  intros Hnd Htopo H.
  pose proof (init_distances _ _ _ _ _ _ Hnd Htopo H) as Hd. cbv zeta in Hd.
  destruct Hd as (Hlen & _ & Hsorted & Hldd & Hdd & Hrec).
  apply path_sum_total; try done.
  - intros n r d Hr Hnot Hdn.
    destruct (init_outlet_distance _ _ _ _ _ _ Hnd Htopo H n r Hr Hnot)
      as (d' & Hd' & Hdx). congruence.
  - intros n m c d Hn Hm Hdn.
    destruct (Hrec n m c Hn Hm) as (dn & dm & Hxn & Hxm & Heq).
    exists dm. split; [done|]. rewrite Hxn. f_equal.
    destruct (lookup_lt_is_Some_2 (_ix self) n) as [g Hg].
    { rewrite Hlen. by eapply lookup_lt_Some. }
    destruct (Hdd n g c Hg Hn) as [Hddn _].
    assert (d = edge_length (_dims self) (_geot self) (_ix self) (_ixc self) n)
      as -> by congruence.
    lra.
Qed.

Lemma line_path_length_witness :
  ∃ self s, __init__ line_dem line_flow 5 (45 / 100) 0 = Ok self ∧
            path_sum (_ix self) (_ixc self) (_dd self) 0 s ∧
            _dx self !! 0 = Some s.
Proof.
  destruct (init_total line_dem line_flow 5 (45 / 100) 0 line_flow_wf)
    as [self Hself].
  destruct (line_network_edges _ _ _ Hself) as [Hix _].
  destruct (dx_is_the_length_of_the_flow_path _ _ _ _ _ _
              line_flow_NoDup line_flow_sorted Hself 0) as (s & Hs & Hdx).
  { rewrite Hix. simpl. lia. }
  by exists self, s.
Defined.

(** X14. The chi of a constructed network with positive areas is the
    sum, from the edge down to the edge into an outlet, of the terms
    [1 * _dd[k] / _ax[k] ** thetaref]; for a flow with single receivers and
    edges upstream first. *)
Theorem chi_is_the_sum_along_the_flow_path
    dem flow threshold thetaref winsize self :
  NoDup (Flow._ix flow) →
  topologically_sorted (Flow._ix flow) (Flow._ixc flow) →
  __init__ dem flow threshold thetaref winsize = Ok self →
  Forall (fun a => (0 < a)%R) (_ax self) →
  ∃ chi, _chi self = Some chi ∧
    ∀ n, n < length (_ix self) →
      ∃ s, path_sum (_ix self) (_ixc self)
             (zip_with (fun d a => 1 * d / Rpower a thetaref)%R
                       (_dd self) (_ax self)) n s ∧
           chi !! n = Some s.
Proof.
  intros Hnd Htopo H _.
  pose proof (init_distances _ _ _ _ _ _ Hnd Htopo H) as Hd. cbv zeta in Hd.
  destruct Hd as (Hlen & Hnd' & Hsorted & Hldd & _ & _).
  pose proof (init_shape _ _ _ _ _ _ H) as Hs. cbv zeta in Hs.
  destruct Hs as (_ & _ & _ & _ & Hlax & _).
  pose proof (init_outlet_edges _ _ _ _ _ _ Hnd Htopo H) as Hout.
  apply init_Ok in H. cbv zeta in H.
  destruct H as (ix & ixc & fx & zx & di & dd & dx & chi
                 & _ & _ & _ & _ & _ & Hchi & ->).
  cbn [_ix _ixc _dd _dx _ax _chi set_ksn set_chi] in *.
  exists chi. split; [done|].
  apply calculate_chi_upstream in Hchi as (chi' & Heq & Hrec); [|done..].
  assert (chi' = chi) as -> by (by injection Heq). cbn [_ix _ixc _dd _ax] in Hrec.
  apply path_sum_total; try done.
  - rewrite length_zip_with. lia.
  - intros n r d Hr Hnot Hdn.
    destruct (Hout n r Hr Hnot) as (d' & a & chi0 & Hd' & Ha & _ & [= <-] & Hc).
    rewrite lookup_zip_with, Hd', Ha in Hdn. simpl in Hdn. congruence.
  - intros n m c d Hn Hm Hdn.
    destruct (Hrec n m c Hn Hm) as (cn & cm & d' & a & Hcn & Hcm & Hd' & Ha & Heq').
    rewrite lookup_zip_with, Hd', Ha in Hdn. simpl in Hdn. injection Hdn as <-.
    exists cm. split; [done|]. rewrite Hcn, Heq'. f_equal. lra.
Qed.

Lemma line_chi_path_witness :
  ∃ self chi s, __init__ line_dem line_flow 5 (45 / 100) 0 = Ok self ∧
                _chi self = Some chi ∧ chi !! 0 = Some s.
Proof.
  destruct (init_total line_dem line_flow 5 (45 / 100) 0 line_flow_wf)
    as [self Hself].
  destruct (line_network_edges _ _ _ Hself) as [Hix _].
  assert (Hax : Forall (fun a => (0 < a)%R) (_ax self)).
  { eapply init_area_positive; [| |exact Hself]; simpl.
    - repeat constructor; lra.
    - lra. }
  destruct (chi_is_the_sum_along_the_flow_path _ _ _ _ _ _
              line_flow_NoDup line_flow_sorted Hself Hax)
    as (chi & Hchi & Hsum).
  destruct (Hsum 0) as (s & _ & Hs).
  { rewrite Hix. simpl. lia. }
  by exists self, chi, s.
Defined.

(** ** Points of interest *)

Lemma ascending_filter_seq (P : nat → Prop) `{!∀ c, Decision (P c)} s n :
  ascending (filter P (seq s n)).
Proof.
  revert s. induction n as [|n IH]; intros s; [by intros i j a b _ ?|].
  cbn [seq]. rewrite filter_cons. destruct (decide (P s)); [|apply IH].
  intros [|i] [|j] a b Hij Ha Hb; try lia; simpl in *.
  - injection Ha as <-.
    apply list_elem_of_lookup_2, list_elem_of_filter in Hb as [_ Hb].
    apply elem_of_seq in Hb. lia.
  - eapply (IH (S s) i j); [lia|done..].
Qed.

Lemma ascending_NoDup l : ascending l → NoDup l.
Proof.
  intros Hl. apply NoDup_alt. intros i j x Hi Hj.
  destruct (Nat.lt_trichotomy i j) as [Hlt|[->|Hlt]]; [|done|].
  - pose proof (Hl i j x x Hlt Hi Hj). lia.
  - pose proof (Hl j i x x Hlt Hj Hi). lia.
Qed.

Lemma stream_poi_cell_of_mask {F} (self : Network F) kind
    (P : nat → Prop) `{!∀ c, Decision (P c)} m :
  kind ∈ ["heads"; "confluences"; "outlets"] →
  (_dims self).1 * (_dims self).2 = _ncells self →
  poi_mask self kind = Ok m → length m = _ncells self →
  (∀ c, c < _ncells self → m !! c = Some (bool_decide (P c))) →
  get_stream_poi self kind "CELL"
  = Ok (RowCol ((fun i => (i / (_dims self).2, i mod (_dims self).2))
                  <$> filter P (seq 0 (_ncells self)))).
Proof.
  intros Hk Hdims Hm Hl Hmc. unfold get_stream_poi.
  rewrite (decide_True (P := kind ∈ _)) by done.
  rewrite (decide_True (P := "CELL" ∈ ["CELL"; "XY"; "IND"]))
    by (by apply (bool_decide_unpack _)).
  rewrite Hm. cbn [mbind result_bind]. unfold reshape.
  rewrite decide_True by congruence. cbn [mbind result_bind].
  rewrite (where2_positions P) by (by rewrite Hl).
  rewrite decide_True by done. rewrite Hl. do 2 f_equal.
  apply (zip_with_fmap_same pair).
Qed.

Lemma stream_poi_ind_Linear {F} (self : Network F) kind l :
  stream_poi_ind self kind = Ok l →
  get_stream_poi self kind "IND" = Ok (Linear l).
Proof.
  unfold stream_poi_ind. destruct (get_stream_poi self kind "IND") as [p|e];
    [|done]. cbn [mbind result_bind]. destruct p; try done. by intros [= ->].
Qed.

Lemma stream_poi_xy_MapXY {F} (self : Network F) kind l :
  stream_poi_xy self kind = Ok l →
  get_stream_poi self kind "XY" = Ok (MapXY l).
Proof.
  unfold stream_poi_xy. destruct (get_stream_poi self kind "XY") as [p|e];
    [|done]. cbn [mbind result_bind]. destruct p; try done. by intros [= ->].
Qed.

Lemma poi_mask_kinds {F} (self : Network F) kind :
  wf_edges (_ncells self) (_ix self) (_ixc self) →
  kind ∈ ["heads"; "confluences"; "outlets"] →
  ∃ (P : nat → Prop) (HP : ∀ c, Decision (P c)) m,
    poi_mask self kind = Ok m ∧ length m = _ncells self ∧
    (∀ c, c < _ncells self → m !! c = Some (bool_decide (P c))) ∧
    (∀ c, P c → c ∈ _ix self ∨ c ∈ _ixc self).
Proof.
  intros Hwf Hk. repeat (apply elem_of_cons in Hk as [->|Hk]).
  - destruct (poi_mask_heads self Hwf) as (m & Hm & Hl & Hmc).
    exists (head self), _, m. split_and!; try done. by intros c [_ ?].
  - destruct (poi_mask_confluences self Hwf) as (m & Hm & Hl & Hmc).
    exists (confluence self), _, m. split_and!; try done.
    intros c Hc. right. unfold confluence in Hc.
    destruct (decide (c ∈ _ixc self)) as [|Hn]; [done|].
    apply in_degree_0 in Hn. lia.
  - destruct (poi_mask_outlets self Hwf) as (m & Hm & Hl & Hmc).
    exists (outlet self), _, m. split_and!; try done. by intros c [_ ?].
  - by apply elem_of_nil in Hk.
Qed.

(** X15. For each kind of point, the three coordinate forms of
    [get_stream_poi] on a well-formed network list the same cells in the
    same, strictly increasing order of their index: CELL is the row and the
    column of the IND indices, XY their map coordinates; every point is a
    channel cell of the raster. *)
Theorem poi_coordinates_agree {F} (self : Network F) (kind : string) :
  wf_network self →
  kind ∈ ["heads"; "confluences"; "outlets"] →
  ∃ l, get_stream_poi self kind "IND" = Ok (Linear l) ∧
       get_stream_poi self kind "CELL"
       = Ok (RowCol ((fun i => (i / (_dims self).2, i mod (_dims self).2))
                       <$> l)) ∧
       get_stream_poi self kind "XY"
       = Ok (MapXY ((fun i => cell_2_xy (_geot self) (i / (_dims self).2)
                                 (i mod (_dims self).2)) <$> l)) ∧
       ascending l ∧
       Forall (fun c => c < _ncells self ∧ (c ∈ _ix self ∨ c ∈ _ixc self)) l.
Proof.
  intros [Hwf Hdims] Hk.
  destruct (poi_mask_kinds self kind Hwf Hk) as (P & HP & m & Hm & Hl & Hmc & Hch).
  exists (filter P (seq 0 (_ncells self))). split_and!.
  - apply stream_poi_ind_Linear. by eapply stream_poi_ind_of_mask.
  - by eapply stream_poi_cell_of_mask.
  - apply stream_poi_xy_MapXY. by eapply stream_poi_xy_of_mask.
  - apply ascending_filter_seq.
  - apply Forall_forall. intros c [Hc Hs]%list_elem_of_filter.
    apply elem_of_seq in Hs. split; [lia|by apply Hch].
Qed.

Lemma y_network_poi_witness :
  ∃ l, get_stream_poi (y_network None) "outlets" "IND" = Ok (Linear l) ∧
       ascending l.
Proof.
  destruct (poi_coordinates_agree (y_network None) "outlets"
              (y_network_wf None) ltac:(by apply (bool_decide_unpack _)))
    as (l & Hl & _ & _ & Hasc & _).
  by exists l.
Defined.

(** ** The three kinds of points, in terms of the edge arrays *)

Lemma stream_poi_ind_outlets {F} (self : Network F) :
  wf_network self →
  stream_poi_ind self "outlets"
  = Ok (filter (outlet self) (seq 0 (_ncells self))).
Proof.
  intros [Hwf Hdims].
  destruct (poi_mask_outlets self Hwf) as (m & Hm & Hl & Hmc).
  eapply stream_poi_ind_of_mask; [|done..]. by apply (bool_decide_unpack _).
Qed.

Lemma out_degree_0 ix c : out_degree ix c = 0 ↔ c ∉ ix.
Proof. apply in_degree_0. Qed.

Lemma in_degree_two_inv ixc c :
  1 < in_degree ixc c →
  ∃ n m, n ≠ m ∧ ixc !! n = Some c ∧ ixc !! m = Some c.
Proof.
  unfold in_degree. induction ixc as [|r ixc IH]; [simpl; lia|].
  rewrite filter_cons. destruct (decide (r = c)) as [->|Hne].
  - simpl. intros Hlt.
    assert (c ∈ ixc) as [m Hm]%list_elem_of_lookup.
    { destruct (decide (c ∈ ixc)) as [|Hn]; [done|].
      apply in_degree_0 in Hn. unfold in_degree in Hn. lia. }
    exists 0, (S m). done.
  - intros (n & m & Hnm & Hn & Hm)%IH. exists (S n), (S m).
    split; [lia|done].
Qed.

(** X16. On a well-formed network in which every cell gives at most
    once, the heads that [get_stream_poi] returns, as indices, are exactly
    the cells that give and do not receive, in increasing order. *)
Theorem heads_are_givers_without_inflow {F} (self : Network F) :
  wf_network self → NoDup (_ix self) →
  ∃ l, stream_poi_ind self "heads" = Ok l ∧ ascending l ∧
       ∀ c, c ∈ l ↔ c ∈ _ix self ∧ c ∉ _ixc self.
Proof.
  intros Hwf _. exists (filter (head self) (seq 0 (_ncells self))).
  split; [by apply stream_poi_ind_heads|].
  split; [apply ascending_filter_seq|]. intros c.
  rewrite list_elem_of_filter, elem_of_seq. unfold head, channel_cell.
  rewrite in_degree_0. destruct Hwf as [[_ Hix _] _]. split.
  - intros [[Hn [?|?]] _]; done.
  - intros [Hc Hn]. split; [by auto|].
    eapply Forall_forall in Hix; [|done]. simpl in Hix. lia.
Qed.

(** X17. On a well-formed network in which every cell gives at most
    once, the outlets that [get_stream_poi] returns, as indices, are
    exactly the cells that receive and do not give, in increasing
    order. *)
Theorem outlets_are_receivers_without_outflow {F} (self : Network F) :
  wf_network self → NoDup (_ix self) →
  ∃ l, stream_poi_ind self "outlets" = Ok l ∧ ascending l ∧
       ∀ c, c ∈ l ↔ c ∈ _ixc self ∧ c ∉ _ix self.
Proof.
  intros Hwf _. exists (filter (outlet self) (seq 0 (_ncells self))).
  split; [by apply stream_poi_ind_outlets|].
  split; [apply ascending_filter_seq|]. intros c.
  rewrite list_elem_of_filter, elem_of_seq. unfold outlet, channel_cell.
  rewrite out_degree_0. destruct Hwf as [[_ _ Hixc] _]. split.
  - intros [[Hn [?|?]] _]; done.
  - intros [Hc Hn]. split; [by auto|].
    eapply Forall_forall in Hixc; [|done]. simpl in Hixc. lia.
Qed.

(** X18. On a well-formed network in which every cell gives at most
    once, the confluences that [get_stream_poi] returns, as indices, are
    exactly the cells that are the receiver of two different edges, in
    increasing order. *)
Theorem confluences_receive_two_edges {F} (self : Network F) :
  wf_network self → NoDup (_ix self) →
  ∃ l, stream_poi_ind self "confluences" = Ok l ∧ ascending l ∧
       ∀ c, c ∈ l ↔ ∃ n m, n ≠ m ∧ _ixc self !! n = Some c
                             ∧ _ixc self !! m = Some c.
Proof.
  intros Hwf _. exists (filter (confluence self) (seq 0 (_ncells self))).
  split; [by apply stream_poi_ind_confluences|].
  split; [apply ascending_filter_seq|]. intros c.
  rewrite list_elem_of_filter, elem_of_seq. unfold confluence.
  destruct Hwf as [[_ _ Hixc] _]. split.
  - intros [Hc _]. by apply in_degree_two_inv.
  - intros (n & m & Hnm & Hn & Hm). split; [by eapply in_degree_two|].
    eapply Forall_forall in Hixc; [|by eapply list_elem_of_lookup_2].
    simpl in Hixc. lia.
Qed.

Lemma y_network_heads_witness :
  stream_poi_ind (y_network None) "heads" = Ok [0; 1; 7].
Proof.
  destruct (heads_are_givers_without_inflow (y_network None)
              (y_network_wf None) (y_network_single None))
    as (l & Hl & _ & _).
  rewrite Hl. f_equal. vm_compute in Hl. by injection Hl as <-.
Defined.

Lemma y_network_outlets_witness :
  stream_poi_ind (y_network None) "outlets" = Ok [6].
Proof.
  destruct (outlets_are_receivers_without_outflow (y_network None)
              (y_network_wf None) (y_network_single None))
    as (l & Hl & _ & _).
  rewrite Hl. f_equal. vm_compute in Hl. by injection Hl as <-.
Defined.

Lemma y_network_confluences_witness :
  stream_poi_ind (y_network None) "confluences" = Ok [2; 6].
Proof.
  destruct (confluences_receive_two_edges (y_network None)
              (y_network_wf None) (y_network_single None))
    as (l & Hl & _ & _).
  rewrite Hl. f_equal. vm_compute in Hl. by injection Hl as <-.
Defined.

(** ** A network with edges has a head and an outlet *)

Lemma first_giver_last_receiver {F} (self : Network F) :
  wf_network self →
  topologically_sorted (_ix self) (_ixc self) →
  _ix self ≠ [] →
  ∃ h o,
    _ix self !! 0 = Some h ∧ h ∈ filter (head self) (seq 0 (_ncells self)) ∧
    last (_ixc self) = Some o ∧
    o ∈ filter (outlet self) (seq 0 (_ncells self)).
Proof.
  intros Hwf Hsorted Hne.
  pose proof Hwf as [[Hlen Hix Hixc] _].
  destruct (_ix self) as [|h ix] eqn:Eix; [done|].
  destruct (lookup_lt_is_Some_2 (_ixc self) (length ix)) as [o Ho].
  { rewrite Hlen. simpl. lia. }
  exists h, o. split; [done|]. split; [|split].
  - apply list_elem_of_filter. split.
    + split.
      * apply in_degree_0. intros [n Hn]%list_elem_of_lookup.
        pose proof (Hsorted n 0 h Hn eq_refl). lia.
      * left. rewrite Eix. apply elem_of_cons. by left.
    + apply elem_of_seq. apply Forall_cons in Hix as [? _]. lia.
  - rewrite last_lookup. rewrite Hlen. simpl. done.
  - apply list_elem_of_filter. split.
    + split.
      * apply out_degree_0. rewrite Eix. intros [m Hm]%list_elem_of_lookup.
        pose proof (Hsorted (length ix) m o Ho Hm) as Hlt.
        apply lookup_lt_Some in Hm. simpl in Hm. lia.
      * right. by eapply list_elem_of_lookup_2.
    + apply elem_of_seq.
      eapply Forall_forall in Hixc; [|by eapply list_elem_of_lookup_2].
      simpl in Hixc. lia.
Qed.

(** X19. A well-formed network with at least one edge, edges upstream
    first, has a head and an outlet: its first giver is among the heads
    that [get_stream_poi] returns and its last receiver among the
    outlets. *)
Theorem sorted_network_has_head_and_outlet {F} (self : Network F) :
  wf_network self →
  topologically_sorted (_ix self) (_ixc self) →
  _ix self ≠ [] →
  ∃ heads outlets h o,
    stream_poi_ind self "heads" = Ok heads ∧
    stream_poi_ind self "outlets" = Ok outlets ∧
    _ix self !! 0 = Some h ∧ h ∈ heads ∧
    last (_ixc self) = Some o ∧ o ∈ outlets.
Proof.
  intros Hwf Hsorted Hne.
  destruct (first_giver_last_receiver self Hwf Hsorted Hne)
    as (h & o & Hh & Hhin & Ho & Hoin).
  exists (filter (head self) (seq 0 (_ncells self))),
         (filter (outlet self) (seq 0 (_ncells self))), h, o.
  split; [by apply stream_poi_ind_heads|].
  split; [by apply stream_poi_ind_outlets|]. done.
Qed.

Lemma y_network_head_outlet_witness :
  ∃ heads outlets,
    stream_poi_ind (y_network None) "heads" = Ok heads ∧
    stream_poi_ind (y_network None) "outlets" = Ok outlets ∧
    7 ∈ heads ∧ 6 ∈ outlets.
Proof.
  destruct (sorted_network_has_head_and_outlet (y_network None)
              (y_network_wf None) (y_network_sorted None) ltac:(done))
    as (heads & outlets & h & o & Hh & Ho & Eh & Hin & Eo & Hon).
  injection Eh as <-. injection Eo as <-. by exists heads, outlets.
Defined.

(** ** Snapping *)

Lemma Rltb_false a b : Rltb a b = false ↔ (b <= a)%R.
Proof. unfold Rltb. destruct (Rlt_dec a b); split; intros; try done; lra. Qed.

Lemma argmin_from_spec (pre row : list R) bp b :
  bp < length pre → pre !! bp = Some b →
  (∀ j v, pre !! j = Some v → (b <= v)%R) →
  (∀ j v, j < bp → pre !! j = Some v → (b < v)%R) →
  let r := argmin_from bp b (length pre) row in
  ∃ m, (pre ++ row) !! r = Some m ∧
       (∀ j v, (pre ++ row) !! j = Some v → (m <= v)%R) ∧
       (∀ j v, j < r → (pre ++ row) !! j = Some v → (m < v)%R).
Proof.
  revert pre bp b. induction row as [|x row IH]; intros pre bp b Hbp Hb Hle Hlt.
  - cbn [argmin_from]. rewrite app_nil_r. by exists b.
  - cbn [argmin_from]. cbv zeta.
    replace (pre ++ x :: row) with ((pre ++ [x]) ++ row)
      by (by rewrite <- app_assoc).
    replace (S (length pre)) with (length (pre ++ [x]))
      by (rewrite length_app; simpl; lia).
    destruct (Rltb x b) eqn:Hx.
    + apply Rltb_true in Hx. apply IH.
      * rewrite length_app. simpl. lia.
      * by rewrite list_lookup_middle.
      * intros j v Hj. apply lookup_app_Some in Hj as [Hj|[_ Hj]].
        -- pose proof (Hle j v Hj). lra.
        -- apply list_lookup_singleton_Some in Hj as [_ <-]. lra.
      * intros j v Hjl Hj. rewrite lookup_app_l in Hj by done.
        pose proof (Hle j v Hj). lra.
    + apply Rltb_false in Hx. apply IH.
      * rewrite length_app. simpl. lia.
      * by rewrite lookup_app_l.
      * intros j v Hj. apply lookup_app_Some in Hj as [Hj|[_ Hj]].
        -- by apply (Hle j v).
        -- by apply list_lookup_singleton_Some in Hj as [_ <-].
      * intros j v Hjl Hj. rewrite lookup_app_l in Hj by lia.
        by apply (Hlt j v).
Qed.

Lemma argmin_row_spec (row : list R) :
  row ≠ [] →
  let r := match row with
           | [] => 0
           | x :: row' => argmin_from 0 x 1 row'
           end in
  ∃ m, row !! r = Some m ∧
       (∀ j v, row !! j = Some v → (m <= v)%R) ∧
       (∀ j v, j < r → row !! j = Some v → (m < v)%R).
Proof.
  destruct row as [|x row]; [done|]. intros _.
  apply (argmin_from_spec [x] row 0 x); simpl; [lia|done| |].
  - intros [|j] v; [|done]. intros [= <-]. lra.
  - intros j v Hj. lia.
Qed.

Lemma distance_rows (pts poi : list (R * R)) :
  zip_with (fun x y =>
              zip_with (fun xc yc => sqrt ((x - xc) ^ 2 + (y - yc) ^ 2)%R)
                       (fst <$> poi) (snd <$> poi))
           (fst <$> pts) (snd <$> pts)
  = (fun p => planar_distance p <$> poi) <$> pts.
Proof.
  rewrite zip_with_fmap_same. apply list_fmap_ext. intros _ p _.
  by rewrite zip_with_fmap_same.
Qed.

(** What [snap_points] returns once the reference set is known. *)
Lemma snap_points_spec (self : Network R) pts kind poi :
  snap_reference self (snap_kind kind) = Ok poi → poi ≠ [] →
  ∃ out, snap_points self pts kind = Ok out ∧ length out = length pts ∧
    ∀ j p, pts !! j = Some p →
      ∃ i q, out !! j = Some q ∧ poi !! i = Some q ∧
        (∀ q', q' ∈ poi → (planar_distance p q <= planar_distance p q')%R) ∧
        (∀ i' q', i' < i → poi !! i' = Some q' →
                  (planar_distance p q < planar_distance p q')%R).
Proof.
  intros Href Hne. unfold snap_points. cbv zeta. rewrite Href.
  cbn [mbind result_bind]. rewrite distance_rows. unfold argmin_axis1.
  rewrite decide_False by (by destruct poi). cbn [mbind result_bind].
  rewrite <- list_fmap_compose.
  set (f := (fun row : list R => match row with
                                 | [] => 0
                                 | x :: row' => argmin_from 0 x 1 row'
                                 end) ∘ (fun p => planar_distance p <$> poi)).
  assert (Hf : ∀ p, ∃ q, poi !! f p = Some q ∧
             (∀ q', q' ∈ poi → (planar_distance p q <= planar_distance p q')%R) ∧
             (∀ i' q', i' < f p → poi !! i' = Some q' →
                       (planar_distance p q < planar_distance p q')%R)).
  { intros p.
    pose proof (argmin_row_spec (planar_distance p <$> poi)) as Hr.
    cbv zeta in Hr.
    change (match planar_distance p <$> poi with
            | [] => 0
            | x :: row' => argmin_from 0 x 1 row'
            end) with (f p) in Hr.
    destruct Hr as (m & Hm & Hle & Hlt); [by destruct poi|].
    apply list_lookup_fmap_Some in Hm as (q & -> & Hq).
    exists q. split_and!; [done| |].
    - intros q' [i' Hi']%list_elem_of_lookup. apply (Hle i').
      by rewrite list_lookup_fmap, Hi'.
    - intros i' q' Hi' Hq'. apply (Hlt i'); [done|].
      by rewrite list_lookup_fmap, Hq'. }
  destruct (take_at_total poi (f <$> pts)) as (out & Hout & Hlen).
  { apply Forall_fmap, Forall_forall. intros p _. simpl.
    destruct (Hf p) as (q & Hq & _). by eapply lookup_lt_Some. }
  exists out. rewrite length_fmap in Hlen. split_and!; [done..|].
  intros j p Hp. destruct (Hf p) as (q & Hq & Hle & Hlt).
  exists (f p), q. split_and!; [|done..].
  apply take_at_Ok in Hout.
  assert ((f <$> pts) !! j = Some (f p)) as Hj
    by (by rewrite list_lookup_fmap, Hp).
  destruct (Forall2_lookup_l _ _ _ _ _ Hout Hj) as (q' & Hq' & Hpq).
  congruence.
Qed.

(** X20. With a non-empty reference set [snap_points] returns one point
    for each input point: a reference point at the least planar distance
    from the input point, and of several at that distance the one that
    comes first in the reference set. *)
Theorem snap_points_returns_nearest (self : Network R)
    (input_points : list (R * R)) (kind : string) (poi : list (R * R)) :
  snap_reference self (snap_kind kind) = Ok poi → poi ≠ [] →
  ∃ out, snap_points self input_points kind = Ok out ∧
    length out = length input_points ∧
    ∀ j p, input_points !! j = Some p →
      ∃ i q, out !! j = Some q ∧ poi !! i = Some q ∧
        (∀ q', q' ∈ poi → (planar_distance p q <= planar_distance p q')%R) ∧
        (∀ i' q', i' < i → poi !! i' = Some q' →
                  (planar_distance p q < planar_distance p q')%R).
Proof. apply snap_points_spec. Qed.

Lemma planar_distance_zero p q : planar_distance p q = 0%R → p = q.
Proof.
  unfold planar_distance. intros H.
  apply sqrt_eq_0 in H.
  2:{ apply Rplus_le_le_0_compat; apply pow2_ge_0. }
  destruct p as [x y], q as [x' y']. simpl in H.
  pose proof (pow2_ge_0 (x - x')) as Hx. pose proof (pow2_ge_0 (y - y')) as Hy.
  assert ((x - x') ^ 2 = 0)%R as Hx0 by lra.
  assert ((y - y') ^ 2 = 0)%R as Hy0 by lra.
  rewrite <- Rsqr_pow2 in Hx0, Hy0. apply Rsqr_eq_0 in Hx0, Hy0.
  f_equal; lra.
Qed.

Lemma planar_distance_refl p : planar_distance p p = 0%R.
Proof.
  unfold planar_distance. rewrite !Rminus_diag. 
  replace (0 ^ 2 + 0 ^ 2)%R with 0%R by ring. apply sqrt_0.
Qed.

Lemma planar_distance_nonneg p q : (0 <= planar_distance p q)%R.
Proof. apply sqrt_pos. Qed.

(** X21. A point of the reference set snaps to itself. *)
Theorem snap_points_fixes_reference_points (self : Network R)
    (kind : string) (poi : list (R * R)) (p : R * R) :
  snap_reference self (snap_kind kind) = Ok poi → p ∈ poi →
  snap_points self [p] kind = Ok [p].
Proof.
  intros Href Hp.
  destruct (snap_points_spec self [p] kind poi Href) as (out & Hout & Hlen & Hnear).
  { intros ->. by apply elem_of_nil in Hp. }
  rewrite Hout. f_equal.
  destruct (Hnear 0 p eq_refl) as (i & q & Hq & _ & Hle & _).
  specialize (Hle p Hp). rewrite planar_distance_refl in Hle.
  pose proof (planar_distance_nonneg p q).
  assert (p = q) as <- by (apply planar_distance_zero; lra).
  destruct out as [|o [|o' out]]; try done. simpl in Hq. by injection Hq as ->.
Qed.

Lemma line_channel_reference :
  snap_reference line_network (snap_kind "channel")
  = Ok [(INR 0, INR 0); (INR 1, INR 0)].
Proof. reflexivity. Qed.

Lemma line_snap_nearest_witness :
  ∃ out, snap_points line_network [(0, 0)%R; (5, 1)%R] "channel" = Ok out ∧
         length out = 2.
Proof.
  destruct (snap_points_returns_nearest line_network [(0, 0)%R; (5, 1)%R]
              "channel" _ line_channel_reference ltac:(done))
    as (out & Hout & Hlen & _).
  by exists out.
Defined.

Lemma line_snap_fixed_witness :
  snap_points line_network [(INR 1, INR 0)] "channel" = Ok [(INR 1, INR 0)].
Proof.
  apply (snap_points_fixes_reference_points line_network "channel" _ _
           line_channel_reference).
  apply elem_of_cons. right. apply elem_of_cons. by left.
Defined.

Lemma channel_xy_Ok {F} (self : Network F) :
  wf_network self →
  channel_xy self
  = Ok ((fun g => cell_2_xy (_geot self) (g / (_dims self).2)
                    (g mod (_dims self).2)) <$> _ix self).
Proof.
  intros [[_ Hix _] Hdims]. unfold channel_xy.
  induction Hix as [|g ix Hg _ IH]; [done|].
  cbn [forM]. rewrite IH. unfold ind_2_cell at 1.
  rewrite decide_True by lia. done.
Qed.

Lemma snap_reference_channel (self : Network R) kind :
  kind ∉ ["heads"; "confluences"; "outlets"] →
  snap_reference self (snap_kind kind) = channel_xy self.
Proof.
  intros Hk. unfold snap_reference, snap_kind.
  destruct (decide (kind ∈ ["channel"; "heads"; "confluences"; "outlets"]))
    as [Hin|Hnin].
  - by rewrite decide_False.
  - rewrite decide_False; [done|]. by apply (bool_decide_unpack _).
Qed.

(** X22. With the kind channel, or any kind that is none of heads,
    confluences and outlets, [snap_points] on a well-formed network with
    edges returns, for every input point, the map coordinates of a cell of
    [_ix]: the reference set holds the givers only. *)
Theorem snap_to_channel_uses_givers (self : Network R)
    (input_points : list (R * R)) (kind : string) :
  wf_network self → _ix self ≠ [] →
  kind ∉ ["heads"; "confluences"; "outlets"] →
  ∃ out, snap_points self input_points kind = Ok out ∧
    length out = length input_points ∧
    ∀ q, q ∈ out →
      ∃ g, g ∈ _ix self ∧
           q = cell_2_xy (_geot self) (g / (_dims self).2) (g mod (_dims self).2).
Proof.
  intros Hwf Hne Hk.
  destruct (snap_points_spec self input_points kind
              ((fun g => cell_2_xy (_geot self) (g / (_dims self).2)
                           (g mod (_dims self).2)) <$> _ix self))
    as (out & Hout & Hlen & Hnear).
  { rewrite snap_reference_channel by done. by apply channel_xy_Ok. }
  { by destruct (_ix self). }
  exists out. split_and!; [done..|].
  intros q [j Hj]%list_elem_of_lookup.
  destruct (lookup_lt_is_Some_2 input_points j) as [p Hp].
  { rewrite <- Hlen. by eapply lookup_lt_Some. }
  destruct (Hnear j p Hp) as (i & q' & Hq' & Hi & _).
  assert (q' = q) as -> by congruence.
  apply list_lookup_fmap_Some in Hi as (g & -> & Hg).
  exists g. split; [by eapply list_elem_of_lookup_2|done].
Qed.

Lemma line_snap_channel_witness :
  ∃ out, snap_points line_network [(7, 7)%R] "nearest" = Ok out ∧
         length out = 1.
Proof.
  destruct (snap_to_channel_uses_givers line_network [(7, 7)%R] "nearest"
              line_network_wf ltac:(done)
              ltac:(by apply (bool_decide_unpack _)))
    as (out & Hout & Hlen & _).
  by exists out.
Defined.

(** ** Snapping to heads and outlets *)

(** X23. On a well-formed network with at least one edge, in which
    every cell gives at most once and the edges are upstream first,
    [snap_points] with the kind heads or outlets returns for every input
    point the map coordinates of a head, or of an outlet: these reference
    sets are not empty. *)
Theorem snapping_to_heads_or_outlets_returns (self : Network R)
    (input_points : list (R * R)) (kind : string) :
  wf_network self → NoDup (_ix self) →
  topologically_sorted (_ix self) (_ixc self) →
  _ix self ≠ [] →
  kind ∈ ["heads"; "outlets"] →
  ∃ out, snap_points self input_points kind = Ok out ∧
    length out = length input_points ∧
    ∀ q, q ∈ out →
      ∃ c, (if decide (kind = "heads") then head self c else outlet self c) ∧
           q = cell_2_xy (_geot self) (c / (_dims self).2) (c mod (_dims self).2).
Proof.
  intros Hwf _ Hsorted Hne Hk.
  destruct (first_giver_last_receiver self Hwf Hsorted Hne)
    as (h & o & _ & Hh & _ & Ho).
  destruct (stream_poi_xy_kinds self Hwf) as (Hheads & _ & Houtlets).
  set (xy := fun i => cell_2_xy (_geot self) (i / (_dims self).2)
                        (i mod (_dims self).2)) in *.
  assert (∃ (P : nat → Prop) (HP : ∀ c, Decision (P c)) c0,
            snap_reference self (snap_kind kind)
            = Ok (xy <$> filter P (seq 0 (_ncells self))) ∧
            c0 ∈ filter P (seq 0 (_ncells self)) ∧
            ∀ c, P c → if decide (kind = "heads") then head self c
                       else outlet self c)
    as (P & HP & c0 & Href & Hc0 & HPk).
  { repeat (apply elem_of_cons in Hk as [->|Hk]).
    - exists (head self), _, h. split_and!; [exact Hheads|done..].
    - exists (outlet self), _, o. split_and!; [exact Houtlets|done..].
    - by apply elem_of_nil in Hk. }
  destruct (snap_points_spec self input_points kind _ Href)
    as (out & Hout & Hlen & Hnear).
  { intros Hnil. apply fmap_nil_inv in Hnil. rewrite Hnil in Hc0.
    by apply elem_of_nil in Hc0. }
  exists out. split_and!; [done..|].
  intros q [j Hj]%list_elem_of_lookup.
  destruct (lookup_lt_is_Some_2 input_points j) as [p Hp].
  { rewrite <- Hlen. by eapply lookup_lt_Some. }
  destruct (Hnear j p Hp) as (i & q' & Hq' & Hi & _).
  assert (q' = q) as -> by congruence.
  apply list_lookup_fmap_Some in Hi as (c & -> & Hc).
  apply list_elem_of_lookup_2, list_elem_of_filter in Hc as [Hc _].
  exists c. split; [by apply HPk|done].
Qed.

Lemma line_snap_outlet_witness :
  ∃ out, snap_points line_network [(0, 0)%R] "outlets" = Ok out ∧
         length out = 1.
Proof.
  destruct (snapping_to_heads_or_outlets_returns line_network [(0, 0)%R]
              "outlets" line_network_wf) as (out & Hout & Hlen & _).
  - by apply (bool_decide_unpack _).
  - simpl. rewrite !topologically_sorted_cons. split_and!; try done.
    + by intros [=]%list_elem_of_singleton.
    + apply not_elem_of_nil.
  - done.
  - by apply (bool_decide_unpack _).
  - by exists out.
Defined.

(** ** The auxiliary array of [calculate_slope] *)

Lemma ixcix_fold (ncells : nat) (ix : list nat) :
  Forall (fun c => c < ncells) ix →
  ∃ ixcix,
    foldM (fun a (p : nat * nat) => setitem a p.2 p.1) (zeros 0 ncells)
          (zip (seq 0 (length ix)) ix) = Ok ixcix ∧
    length ixcix = ncells ∧
    (∀ c, c < ncells → c ∉ ix → ixcix !! c = Some 0) ∧
    (NoDup ix → ∀ n g, ix !! n = Some g → ixcix !! g = Some n).
Proof.
  intros Hix.
  destruct (foldM_enumerate_inv
              (fun k a => length a = ncells ∧
                 (∀ c, c < ncells → (∀ n, n < k → ix !! n ≠ Some c) →
                       a !! c = Some 0) ∧
                 (NoDup ix → ∀ n g, n < k → ix !! n = Some g →
                       a !! g = Some n))
              (fun a (p : nat * nat) => setitem a p.2 p.1) ix (zeros 0 ncells))
    as (ixcix & Hfold & Hl & Hz & Hinv).
  - unfold zeros. rewrite length_replicate. split_and!; [done| |].
    + intros c Hc _. by apply lookup_replicate_2.
    + intros _ n g Hn. lia.
  - intros k g a Hg (Hl & Hz & Hinv). cbn [fst snd].
    assert (g < ncells) as Hgl.
    { eapply Forall_forall in Hix; [done|]. by eapply list_elem_of_lookup_2. }
    rewrite setitem_lt by lia. eexists. split; [done|].
    rewrite length_insert. split_and!; [done| |].
    + intros c Hc Hn. rewrite list_lookup_insert_ne.
      * apply Hz; [done|]. intros n Hlt. apply Hn. lia.
      * intros <-. by apply (Hn k); [lia|].
    + intros Hnd n g' Hn Hg'. destruct (decide (n = k)) as [->|Hne].
      * assert (g' = g) as -> by congruence.
        rewrite list_lookup_insert_eq by lia. done.
      * rewrite list_lookup_insert_ne.
        -- apply Hinv; [done|lia|done].
        -- intros <-. apply Hne. by eapply NoDup_lookup.
  - exists ixcix. split_and!; [done..| |].
    + intros c Hc Hn. apply Hz; [done|]. intros n _ Hx. apply Hn.
      by eapply list_elem_of_lookup_2.
    + intros Hnd n g Hg. apply Hinv; [done| |done]. by eapply lookup_lt_Some.
Qed.

(** ** Sorting by insertion *)

Section Argsort.
Context {F : Type} `{Arith F}.

Lemma insert_sorted_Permutation (keys : list F) i ki l :
  insert_sorted keys i ki l ≡ₚ i :: l.
Proof.
  induction l as [|j l IH]; [done|]. cbn [insert_sorted].
  destruct (keys !! j) as [kj|]; [|done].
  destruct (ltb kj ki); [|done]. rewrite IH. apply Permutation_swap.
Qed.

Lemma argsort_Permutation (keys : list F) :
  argsort keys ≡ₚ seq 0 (length keys).
Proof.
  unfold argsort.
  assert (Hgen : ∀ (idx : list nat), length idx = length keys →
            foldr (fun (p : nat * F) l => insert_sorted keys p.1 p.2 l) []
                  (zip idx keys) ≡ₚ idx).
  { intros idx. generalize keys at 1 3 as ks. revert idx.
    induction idx as [|i idx IH]; intros [|k ks] Hlen; try done.
    simpl in Hlen. cbn [zip zip_with foldr fst snd].
    rewrite insert_sorted_Permutation. f_equiv. apply IH. lia. }
  apply Hgen. by rewrite length_seq.
Qed.

End Argsort.

Lemma insert_sorted_sorted (keys : list R) i ki l :
  keys !! i = Some ki →
  Forall (fun j => j < length keys) l →
  key_sorted keys l →
  key_sorted keys (insert_sorted keys i ki l).
Proof.
  intros Hi. induction l as [|j l IH]; intros Hr Hs; cbn [insert_sorted].
  { done. }
  apply Forall_cons in Hr as [Hjr Hr]. destruct Hs as [Hj Hs].
  destruct (lookup_lt_is_Some_2 keys j Hjr) as [kj Hkj]. rewrite Hkj.
  cbn [ltb Arith_R]. destruct (Rltb kj ki) eqn:Hlt.
  - apply Rltb_true in Hlt. split; [|by apply IH].
    rewrite insert_sorted_Permutation. constructor; [|done].
    exists kj, ki. split_and!; [done..|lra].
  - apply Rltb_false in Hlt. split; [|done].
    constructor; [by exists ki, kj|].
    eapply Forall_impl; [exact Hj|]. intros x (kj' & kx & Hj' & Hx & Hle).
    exists ki, kx. split_and!; [done..|].
    assert (kj' = kj) as -> by congruence. lra.
Qed.

Lemma argsort_sorted (keys : list R) : key_sorted keys (argsort keys).
Proof.
  unfold argsort.
  assert (Hgen : ∀ (idx : list nat) (ks : list R),
            Forall2 (fun i k => keys !! i = Some k) idx ks →
            let r := foldr (fun (p : nat * R) l => insert_sorted keys p.1 p.2 l)
                           [] (zip idx ks) in
            key_sorted keys r ∧ r ≡ₚ idx).
  { intros idx ks. induction 1 as [|i k idx ks Hk Hrest IH]; [done|].
    cbv zeta in *. cbn [zip zip_with foldr fst snd]. destruct IH as [IHs IHp].
    split.
    - apply insert_sorted_sorted; [done| |done]. rewrite IHp.
      apply Forall_forall. intros j [n Hn]%list_elem_of_lookup.
      destruct (Forall2_lookup_l _ _ _ _ _ Hrest Hn) as (kj & _ & Hkj).
      by eapply lookup_lt_Some.
    - rewrite insert_sorted_Permutation. by f_equiv. }
  apply Hgen. apply Forall2_same_length_lookup_2; [by rewrite length_seq|].
  intros n i k Hi Hk. apply lookup_seq in Hi as [-> _]. done.
Qed.

Lemma key_sorted_lookup keys l i j a b :
  key_sorted keys l → i < j → l !! i = Some a → l !! j = Some b →
  key_le keys a b.
Proof.
  revert i j. induction l as [|x l IH]; intros i j Hs Hij Ha Hb; [done|].
  destruct Hs as [Hx Hs]. destruct j as [|j]; [lia|]. simpl in Hb.
  destruct i as [|i].
  - injection Ha as ->. eapply Forall_forall in Hx; [done|].
    by eapply list_elem_of_lookup_2.
  - simpl in Ha. eapply (IH i j); [done|lia|done..].
Qed.

Lemma take_at_nth (a : list nat) idx l :
  take_at a idx = Ok l → l = (fun i => nth i a 0) <$> idx.
Proof.
  intros Hl%take_at_Ok. induction Hl as [|i x idx l Hx _ IH]; [done|].
  rewrite fmap_cons, <- IH. f_equal. symmetry. by apply nth_lookup_Some.
Qed.

Lemma fmap_nth_seq (a : list nat) :
  (fun i => nth i a 0) <$> seq 0 (length a) = a.
Proof.
  apply list_eq. intros i. rewrite list_lookup_fmap.
  destruct (decide (i < length a)) as [Hlt|Hge].
  - rewrite lookup_seq_lt by done. simpl.
    destruct (lookup_lt_is_Some_2 a i Hlt) as [x Hx]. rewrite Hx.
    f_equal. by apply nth_lookup_Some.
  - rewrite lookup_seq_ge by lia. simpl. symmetry. apply lookup_ge_None. lia.
Qed.

Section Setup.
Context {F : Type} `{Arith F}.

Lemma slope_setup_Ok (self : Network F) ixcix heads :
  slope_setup self = Ok (ixcix, heads) →
  ∃ heads0 pos elev,
    foldM (fun a (p : nat * nat) => setitem a p.2 p.1)
          (zeros 0 (_ncells self))
          (zip (seq 0 (length (_ix self))) (_ix self)) = Ok ixcix ∧
    stream_poi_ind self "heads" = Ok heads0 ∧
    take_at ixcix heads0 = Ok pos ∧
    take_at (_zx self) pos = Ok elev ∧
    take_at heads0 (argsort ((fun z => sub (of_Z 0) z) <$> elev)) = Ok heads.
Proof.
  unfold slope_setup. cbv zeta. intros Hs.
  apply bind_Ok in Hs as (ixcix' & Hfold & Hs).
  apply bind_Ok in Hs as (heads0 & Hh & Hs).
  apply bind_Ok in Hs as (pos & Hpos & Hs).
  apply bind_Ok in Hs as (elev & Helev & Hs).
  apply bind_Ok in Hs as (heads' & Hheads & Hs).
  injection Hs as -> ->. by exists heads0, pos, elev.
Qed.

Lemma permuted_take_at (a idx l : list nat) :
  idx ≡ₚ seq 0 (length a) → take_at a idx = Ok l → l ≡ₚ a.
Proof.
  intros Hp Hl%take_at_nth. rewrite Hl, Hp. by rewrite fmap_nth_seq.
Qed.

Lemma slope_setup_spec (self : Network F) :
  wf_network self → NoDup (_ix self) →
  length (_zx self) = length (_ix self) →
  ∃ ixcix heads,
    slope_setup self = Ok (ixcix, heads) ∧
    length ixcix = _ncells self ∧
    (∀ n g, _ix self !! n = Some g → ixcix !! g = Some n) ∧
    (∀ c, c < _ncells self → c ∉ _ix self → ixcix !! c = Some 0) ∧
    (topologically_sorted (_ix self) (_ixc self) →
     ∀ r, r ∈ _ixc self → ixcix !! r = Some 0 ↔ r ∉ _ix self) ∧
    heads ≡ₚ filter (head self) (seq 0 (_ncells self)).
Proof.
  intros Hwf Hnd Hzx. pose proof Hwf as [[Hlen Hix Hixc] Hdims].
  destruct (ixcix_fold (_ncells self) (_ix self) Hix)
    as (ixcix & Hfold & Hl & Hz & Hinv). specialize (Hinv Hnd).
  set (heads0 := filter (head self) (seq 0 (_ncells self))).
  assert (Hh : ∀ h, h ∈ heads0 → h < _ncells self ∧ h ∈ _ix self).
  { intros h [[Hin Hch] Hs]%list_elem_of_filter. apply elem_of_seq in Hs.
    split; [lia|]. apply in_degree_0 in Hin. by destruct Hch. }
  destruct (take_at_total ixcix heads0) as (pos & Hpos & Hlpos).
  { apply Forall_forall. intros h Hin. rewrite Hl. by apply Hh. }
  destruct (take_at_total (_zx self) pos) as (elev & Helev & Hlelev).
  { apply Forall_forall. intros p [k Hk]%list_elem_of_lookup.
    apply take_at_Ok in Hpos.
    destruct (Forall2_lookup_r _ _ _ _ _ Hpos Hk) as (h & Hh0 & Hp).
    destruct (Hh h) as [_ [n Hn]%list_elem_of_lookup];
      [by eapply list_elem_of_lookup_2|].
    rewrite (Hinv n h Hn) in Hp. injection Hp as <-.
    rewrite Hzx. by eapply lookup_lt_Some. }
  set (spos := argsort ((fun z => sub (of_Z 0) z) <$> elev)).
  assert (Hsp : spos ≡ₚ seq 0 (length heads0)).
  { unfold spos. rewrite argsort_Permutation, length_fmap. by rewrite Hlelev, Hlpos. }
  destruct (take_at_total heads0 spos) as (heads & Hheads & _).
  { rewrite Hsp. apply Forall_forall. intros i Hi%elem_of_seq. lia. }
  exists ixcix, heads. split_and!; try done.
  - unfold slope_setup. cbv zeta. rewrite Hfold. cbn [mbind result_bind].
    rewrite (stream_poi_ind_heads self Hwf). cbn [mbind result_bind].
    fold heads0. rewrite Hpos. cbn [mbind result_bind].
    rewrite Helev. cbn [mbind result_bind]. fold spos. by rewrite Hheads.
  - intros Hsorted r [n Hn]%list_elem_of_lookup. split.
    + intros H0 [m Hm]%list_elem_of_lookup.
      rewrite (Hinv m r Hm) in H0. injection H0 as ->.
      pose proof (Hsorted n 0 r Hn Hm). lia.
    + intros Hnot. apply Hz; [|done].
      eapply Forall_forall in Hixc; [|by eapply list_elem_of_lookup_2].
      done.
  - by eapply permuted_take_at.
Qed.

(** X24. On a well-formed network with single receivers and [_zx] as
    long as [_ix], the set-up of [calculate_slope] returns. [ixcix] maps
    each giver to its position in [_ix] and every other cell to 0; when the
    edges are upstream first, a receiver has [ixcix] 0 exactly when it
    gives to no cell, which is what the traversal tests. The heads to visit
    are a permutation of the heads of the network. *)
Theorem ixcix_inverts_givers (self : Network F) :
  wf_network self → NoDup (_ix self) →
  length (_zx self) = length (_ix self) →
  ∃ ixcix heads,
    slope_setup self = Ok (ixcix, heads) ∧
    length ixcix = _ncells self ∧
    (∀ n g, _ix self !! n = Some g → ixcix !! g = Some n) ∧
    (∀ c, c < _ncells self → c ∉ _ix self → ixcix !! c = Some 0) ∧
    (topologically_sorted (_ix self) (_ixc self) →
     ∀ r, r ∈ _ixc self → ixcix !! r = Some 0 ↔ r ∉ _ix self) ∧
    heads ≡ₚ filter (head self) (seq 0 (_ncells self)).
Proof. apply slope_setup_spec. Qed.

End Setup.

Lemma y_network_ixcix_witness :
  ∃ ixcix heads, slope_setup (y_network None) = Ok (ixcix, heads) ∧
                 ixcix !! 7 = Some 0 ∧ ixcix !! 6 = Some 0.
Proof.
  destruct (ixcix_inverts_givers (y_network None) (y_network_wf None)
              (y_network_single None) eq_refl)
    as (ixcix & heads & Hs & _ & Hinv & Hz & _).
  exists ixcix, heads. split_and!; [done| |].
  - by apply (Hinv 0 7).
  - apply Hz; [simpl; lia|]. by apply (bool_decide_unpack _).
Defined.

(** ** The heads are visited from the highest to the lowest *)

(** X25. The heads are visited from the highest to the lowest: in the
    head array that the set-up of [calculate_slope] returns, a head is not
    lower than any head after it. *)
Theorem heads_sorted_by_descending_elevation (self : Network R) ixcix heads :
  Forall (fun c => c < _ncells self) (_ix self) → NoDup (_ix self) →
  slope_setup self = Ok (ixcix, heads) →
  ∀ i j hi hj ni nj zi zj,
    i < j → heads !! i = Some hi → heads !! j = Some hj →
    _ix self !! ni = Some hi → _ix self !! nj = Some hj →
    _zx self !! ni = Some zi → _zx self !! nj = Some zj →
    (zj <= zi)%R.
Proof.
  intros Hix Hnd Hs i j hi hj ni nj zi zj Hij Hhi Hhj Hni Hnj Hzi Hzj.
  apply slope_setup_Ok in Hs
    as (heads0 & pos & elev & Hfold & _ & Hpos & Helev & Hheads).
  destruct (ixcix_fold (_ncells self) (_ix self) Hix)
    as (ixcix' & Hfold' & _ & _ & Hinv).
  assert (ixcix' = ixcix) as -> by congruence. specialize (Hinv Hnd).
  set (keys := (fun z => sub (of_Z 0) z) <$> elev) in *.
  apply take_at_Ok in Hheads, Hpos, Helev.
  destruct (Forall2_lookup_r _ _ _ _ _ Hheads Hhi) as (si & Hsi & Hi0).
  destruct (Forall2_lookup_r _ _ _ _ _ Hheads Hhj) as (sj & Hsj & Hj0).
  destruct (key_sorted_lookup keys _ i j si sj (argsort_sorted keys) Hij Hsi Hsj)
    as (ki & kj & Hki & Hkj & Hle).
  assert (Hkey : ∀ s h n z k, heads0 !! s = Some h → _ix self !! n = Some h →
                   _zx self !! n = Some z → keys !! s = Some k → k = (0 - z)%R).
  { intros s h n z k Hh Hn Hz Hk. unfold keys in Hk.
    apply list_lookup_fmap_Some in Hk as (e & -> & He).
    destruct (Forall2_lookup_l _ _ _ _ _ Hpos Hh) as (p & Hp & Hhp).
    rewrite (Hinv n h Hn) in Hhp. injection Hhp as <-.
    destruct (Forall2_lookup_l _ _ _ _ _ Helev Hp) as (e' & He' & Hne).
    assert (e' = e) as -> by congruence.
    assert (e = z) as -> by congruence. done. }
  rewrite (Hkey si hi ni zi ki) in Hle by done.
  rewrite (Hkey sj hj nj zj kj) in Hle by done. lra.
Qed.

Lemma fork_network_wf : wf_network fork_network.
Proof. split; [split|]; simpl; try done; repeat constructor. Qed.

Lemma fork_heads_witness :
  ∃ ixcix heads hi hj zi zj,
    slope_setup fork_network = Ok (ixcix, heads) ∧
    heads !! 0 = Some hi ∧ heads !! 1 = Some hj ∧
    _zx fork_network !! hi = Some zi ∧ _zx fork_network !! hj = Some zj ∧
    (zj <= zi)%R.
Proof.
  destruct (slope_setup_spec fork_network fork_network_wf
              ltac:(by apply (bool_decide_unpack _)) eq_refl)
    as (ixcix & heads & Hs & _ & _ & _ & _ & Hp).
  change (filter (head fork_network) (seq 0 (_ncells fork_network)))
    with [0; 1] in Hp.
  pose proof (Permutation_length Hp) as Hlen.
  destruct heads as [|a [|b [|c heads]]]; try done.
  assert (a ∈ [0; 1]) as Ha by (rewrite <- Hp; apply elem_of_cons; by left).
  assert (b ∈ [0; 1]) as Hb
    by (rewrite <- Hp; apply elem_of_cons; right; apply elem_of_cons; by left).
  assert (Hix : Forall (fun c => c < _ncells fork_network) (_ix fork_network))
    by (simpl; repeat constructor).
  assert (Hnd : NoDup (_ix fork_network)) by (by apply (bool_decide_unpack _)).
  pose proof (heads_sorted_by_descending_elevation fork_network ixcix [a; b]
                Hix Hnd Hs 0 1 a b a b) as Hle.
  repeat (apply elem_of_cons in Ha as [->|Ha]);
    [| |by apply elem_of_nil in Ha];
    (repeat (apply elem_of_cons in Hb as [->|Hb]);
       [| |by apply elem_of_nil in Hb]);
    eexists ixcix, _, _, _, _, _;
    (split_and!; [exact Hs|reflexivity..|]);
    (eapply Hle; [lia|reflexivity..]).
Defined.

(** ** A network without edges *)

(** X26. On a well-formed network without edges [calculate_slope]
    returns without entering a traversal, for every window size, and sets
    [_slp] to the empty array. *)
Theorem calculate_slope_without_edges {F} `{Arith F} (self : Network F)
    (fuel : nat) (npoints : Z) :
  wf_network self → _ix self = [] →
  calculate_slope fuel self npoints = Ok (set_slp self []).
Proof.
  intros Hwf Hix. unfold calculate_slope, slope_setup. cbv zeta.
  rewrite (stream_poi_ind_heads self Hwf). rewrite Hix.
  rewrite filter_none.
  2:{ intros c _ [_ Hc]. by apply (empty_network_no_channel self c Hwf Hix). }
  done.
Qed.

Lemma empty_network_slope_witness :
  calculate_slope 0 empty_network 5 = Ok (set_slp empty_network []).
Proof.
  by apply (calculate_slope_without_edges empty_network 0 5 empty_network_wf).
Defined.

(** ** The channel raster, once the cell list exists *)

(** X27. If the attribute [_chcells] holds a list of cells of the
    raster, [get_streams] returns an array of the shape of the raster with
    1 at the listed cells and 0 elsewhere, and with [asgrid] the grid that
    wraps that array, with nodata 0 and type int8. *)
Theorem get_streams_marks_listed_cells {F} (self : Network F)
    (cells : list nat) :
  _chcells self = Some cells →
  (_dims self).1 * (_dims self).2 = _ncells self →
  Forall (fun c => c < _ncells self) cells →
  ∃ w, get_streams self false = Ok (AsArray (mk_array2 (_dims self) w)) ∧
       get_streams self true
       = Ok (AsGrid (mk_Grid (_dims self) (_ncells self) (Some 0%Z)
                       (mk_array2 (_dims self) w) "int8")) ∧
       length w = _ncells self ∧
       ∀ c, c < _ncells self →
            w !! c = Some (if decide (c ∈ cells) then 1%Z else 0%Z).
Proof.
  intros Hch Hdims Hcells. unfold get_streams. cbv zeta. rewrite Hch.
  cbn [getattr mbind result_bind].
  destruct (put_at_Ok (zeros 0%Z (_ncells self)) cells 1%Z)
    as (w & Hw & Hl & Hwc).
  { unfold zeros. by rewrite length_replicate. }
  unfold zeros in Hl. rewrite length_replicate in Hl.
  rewrite Hw. cbn [mbind result_bind]. unfold reshape.
  rewrite decide_True by congruence. cbn [mbind result_bind].
  exists w. split_and!; [done..|].
  intros c Hc. rewrite Hwc. unfold zeros. rewrite length_replicate.
  destruct (decide (c ∈ cells)).
  - by rewrite decide_True.
  - rewrite decide_False by tauto. by apply lookup_replicate_2.
Qed.

Lemma y_network_streams_witness :
  ∃ w, get_streams (y_network (Some [0; 1; 2])) false
       = Ok (AsArray (mk_array2 (2, 4) w)) ∧ w !! 1 = Some 1%Z
       ∧ w !! 5 = Some 0%Z.
Proof.
  destruct (get_streams_marks_listed_cells (y_network (Some [0; 1; 2]))
              [0; 1; 2] eq_refl eq_refl
              ltac:(simpl; repeat constructor; lia))
    as (w & Hw & _ & _ & Hwc).
  exists w. split_and!; [done| |].
  - rewrite Hwc by (simpl; lia). done.
  - rewrite Hwc by (simpl; lia). done.
Defined.

(** ** Stream order at a confluence of two edges *)

Lemma strahler_step_Ok ix ixc ord vis n s' :
  strahler_step ix ixc (ord, vis) n = Ok s' →
  ∃ r g o_r o_g vr,
    ixc !! n = Some r ∧ ix !! n = Some g ∧ ord !! r = Some o_r ∧
    ord !! g = Some o_g ∧ vis !! r = Some vr ∧
    s' = if decide (Z.land (if decide (o_r = o_g) then 1 else 0) vr ≠ 0)%Z
         then (<[r := int8 (o_r + 1)]> ord, vis)
         else (<[r := Z.max o_g o_r]> ord, <[r := 1%Z]> vis).
Proof.
  unfold strahler_step. intros H.
  apply bind_Ok in H as (r & Hr%getitem_Ok & H).
  apply bind_Ok in H as (g & Hg%getitem_Ok & H).
  apply bind_Ok in H as (o_r & Hor%getitem_Ok & H).
  apply bind_Ok in H as (o_g & Hog%getitem_Ok & H).
  apply bind_Ok in H as (vr & Hvr%getitem_Ok & H).
  exists r, g, o_r, o_g, vr. split_and!; try done.
  destruct (decide (Z.land (if decide (o_r = o_g) then 1 else 0) vr ≠ 0)%Z).
  - apply bind_Ok in H as (ord' & [_ ->]%setitem_Ok & H). by injection H as <-.
  - apply bind_Ok in H as (ord' & [_ ->]%setitem_Ok & H).
    apply bind_Ok in H as (vis' & [_ ->]%setitem_Ok & H). by injection H as <-.
Qed.

Lemma shreeve_step_Ok ix ixc ord vis n s' :
  shreeve_step ix ixc (ord, vis) n = Ok s' →
  ∃ r g o_r o_g vr,
    ixc !! n = Some r ∧ ix !! n = Some g ∧ ord !! r = Some o_r ∧
    ord !! g = Some o_g ∧ vis !! r = Some vr ∧
    s' = if decide (vr ≠ 0)%Z
         then (<[r := int8 (o_r + o_g)]> ord, vis)
         else (<[r := Z.max o_g o_r]> ord, <[r := 1%Z]> vis).
Proof.
  unfold shreeve_step. intros H.
  apply bind_Ok in H as (r & Hr%getitem_Ok & H).
  apply bind_Ok in H as (vr & Hvr%getitem_Ok & H).
  destruct (decide (vr ≠ 0)%Z).
  - apply bind_Ok in H as (o_r & Hor%getitem_Ok & H).
    apply bind_Ok in H as (g & Hg%getitem_Ok & H).
    apply bind_Ok in H as (o_g & Hog%getitem_Ok & H).
    apply bind_Ok in H as (ord' & [_ ->]%setitem_Ok & H). injection H as <-.
    exists r, g, o_r, o_g, vr. by rewrite decide_True.
  - apply bind_Ok in H as (g & Hg%getitem_Ok & H).
    apply bind_Ok in H as (o_g & Hog%getitem_Ok & H).
    apply bind_Ok in H as (o_r & Hor%getitem_Ok & H).
    apply bind_Ok in H as (ord' & [_ ->]%setitem_Ok & H).
    apply bind_Ok in H as (vis' & [_ ->]%setitem_Ok & H). injection H as <-.
    exists r, g, o_r, o_g, vr. by rewrite decide_False.
Qed.

Section Order.
Context (ix ixc : list nat).
Context (step : list Z * list Z → nat → result (list Z * list Z)).
Context (upd updv : Z → Z → Z → Z).
Hypothesis step_Ok : ∀ ord vis n s',
  step (ord, vis) n = Ok s' →
  ∃ r g o_r o_g vr,
    ixc !! n = Some r ∧ ix !! n = Some g ∧ ord !! r = Some o_r ∧
    ord !! g = Some o_g ∧ vis !! r = Some vr ∧
    s' = (<[r := upd o_r o_g vr]> ord, <[r := updv o_r o_g vr]> vis).

Lemma order_fold_length l s s' :
  foldM step s l = Ok s' → length s'.1 = length s.1.
Proof.
  revert s. induction l as [|n l IH]; intros [ord vis]; cbn [foldM].
  - by intros [= <-].
  - intros (s1 & Hs1 & Hl)%bind_Ok.
    apply step_Ok in Hs1 as (r & g & o_r & o_g & vr & _ & _ & _ & _ & _ & ->).
    rewrite (IH _ Hl). simpl. by rewrite length_insert.
Qed.

Lemma order_fold_frame l s s' c :
  foldM step s l = Ok s' → (∀ n, n ∈ l → ixc !! n ≠ Some c) →
  s'.1 !! c = s.1 !! c ∧ s'.2 !! c = s.2 !! c.
Proof.
  revert s. induction l as [|n l IH]; intros [ord vis]; cbn [foldM].
  - by intros [= <-].
  - intros (s1 & Hs1 & Hl)%bind_Ok Hn.
    apply step_Ok in Hs1 as (r & g & o_r & o_g & vr & Hr & _ & _ & _ & _ & ->).
    destruct (IH _ Hl) as [H1 H2].
    { intros n' Hn'. apply Hn, elem_of_cons. by right. }
    assert (r ≠ c) as Hne.
    { intros ->. by apply (Hn n); [apply elem_of_cons; left|]. }
    rewrite H1, H2. simpl. by rewrite !list_lookup_insert_ne.
Qed.

Lemma order_at_two_edges len s0 sE n1 n2 g1 g2 r a b :
  topologically_sorted ix ixc →
  foldM step s0 (seq 0 len) = Ok sE →
  n1 < n2 → n2 < len →
  ix !! n1 = Some g1 → ixc !! n1 = Some r →
  ix !! n2 = Some g2 → ixc !! n2 = Some r →
  (∀ n, ixc !! n = Some r → n = n1 ∨ n = n2) →
  (∀ c, c < length s0.1 → s0.2 !! c = Some 0%Z) →
  sE.1 !! g1 = Some a → sE.1 !! g2 = Some b →
  ∃ i_r, s0.1 !! r = Some i_r ∧
         sE.1 !! r = Some (upd (upd i_r a 0) b (updv i_r a 0)).
Proof.
  intros Hsorted Hfold Hlt Hlen Hg1 Hr1 Hg2 Hr2 Honly Hv0 Ha Hb.
  assert (Hseq : seq 0 len
                 = seq 0 n1 ++ n1 :: seq (S n1) (n2 - S n1)
                     ++ n2 :: seq (S n2) (len - S n2)).
  { replace len with (n1 + (1 + ((n2 - S n1) + (1 + (len - S n2))))) at 1
      by lia.
    rewrite seq_app. f_equal. rewrite seq_app. simpl. f_equal.
    rewrite seq_app. f_equal.
    - f_equal. lia.
    - replace (n1 + 1 + (n2 - S n1)) with n2 by lia. done. }
  rewrite Hseq in Hfold. rewrite foldM_app in Hfold.
  apply bind_Ok in Hfold as (sA & HA & Hfold). cbn [foldM] in Hfold.
  pose proof Hfold as Hrest.
  apply bind_Ok in Hfold as (sB & HB & Hfold). rewrite foldM_app in Hfold.
  apply bind_Ok in Hfold as (sC & HC & Hfold). cbn [foldM] in Hfold.
  pose proof Hfold as Hrest2.
  apply bind_Ok in Hfold as (sD & HD & HE).
  (* the first stretch leaves the confluence as it was *)
  destruct (order_fold_frame _ _ _ r HA) as [HAr HAv].
  { intros n Hn%elem_of_seq Hx. destruct (Honly n Hx); lia. }
  pose proof (order_fold_length _ _ _ HA) as HAl.
  (* the order of the first giver is final before its edge *)
  assert (sA.1 !! g1 = Some a) as HAg.
  { rewrite <- Ha.
    change (foldM step sA (n1 :: seq (S n1) (n2 - S n1)
                           ++ n2 :: seq (S n2) (len - S n2)) = Ok sE)
      in Hrest.
    symmetry. eapply order_fold_frame; [exact Hrest|].
    intros n Hn Hx. pose proof (Hsorted n n1 g1 Hx Hg1).
    apply elem_of_cons in Hn as [->|Hn]; [lia|].
    apply elem_of_app in Hn as [Hn%elem_of_seq|Hn]; [lia|].
    apply elem_of_cons in Hn as [->|Hn%elem_of_seq]; lia. }
  destruct sA as [ordA visA]. simpl in HAr, HAv, HAg.
  apply step_Ok in HB as (r' & g' & o_r & o_g & vr & Hr' & Hg' & Hor & Hog
                          & Hvr & ->).
  assert (r' = r) as -> by congruence. assert (g' = g1) as -> by congruence.
  assert (o_g = a) as -> by congruence.
  assert (r < length ordA) as Hrl by (by eapply lookup_lt_Some).
  assert (r < length visA) as Hrv by (by eapply lookup_lt_Some).
  simpl in HAl. rewrite Hv0 in HAv by lia.
  assert (vr = 0%Z) as -> by congruence.
  exists o_r. split; [congruence|]. rename o_r into i_r.
  (* the second stretch *)
  destruct (order_fold_frame _ _ _ r HC) as [HCr HCv].
  { intros n Hn%elem_of_seq Hx. destruct (Honly n Hx); lia. }
  simpl in HCr, HCv. rewrite list_lookup_insert_eq in HCr, HCv by done.
  assert (sC.1 !! g2 = Some b) as HCg.
  { rewrite <- Hb.
    change (foldM step sC (n2 :: seq (S n2) (len - S n2)) = Ok sE) in Hrest2.
    symmetry. eapply order_fold_frame; [exact Hrest2|].
    intros n Hn Hx. pose proof (Hsorted n n2 g2 Hx Hg2).
    apply elem_of_cons in Hn as [->|Hn%elem_of_seq]; lia. }
  destruct sC as [ordC visC]. simpl in HCr, HCv, HCg.
  apply step_Ok in HD as (r'' & g'' & o_r & o_g & vr & Hr'' & Hg'' & Hor' & Hog'
                          & Hvr' & ->).
  assert (r'' = r) as -> by congruence. assert (g'' = g2) as -> by congruence.
  assert (o_r = upd i_r a 0) as -> by congruence.
  assert (o_g = b) as -> by congruence.
  assert (vr = updv i_r a 0) as -> by congruence.
  (* the rest *)
  destruct (order_fold_frame _ _ _ r HE) as [HEr _].
  { intros n Hn%elem_of_seq Hx. destruct (Honly n Hx); lia. }
  rewrite HEr. simpl. apply list_lookup_insert_eq. by eapply lookup_lt_Some.
Qed.

End Order.

Lemma put_at_values {A} (a : list A) idx v a' :
  put_at a idx v = Ok a' →
  length a' = length a ∧ ∀ c x, a' !! c = Some x → x = v ∨ a !! c = Some x.
Proof.
  unfold put_at. revert a. induction idx as [|i idx IH]; intros a; cbn [foldM].
  - intros [= <-]. auto.
  - intros (a1 & [Hi ->]%setitem_Ok & H)%bind_Ok.
    apply IH in H as [Hl Hx]. rewrite length_insert in Hl. split; [done|].
    intros c x Hc. destruct (Hx c x Hc) as [?|Hin]; [by left|].
    destruct (decide (c = i)) as [->|Hne].
    + rewrite list_lookup_insert_eq in Hin by done. left. congruence.
    + rewrite list_lookup_insert_ne in Hin by done. by right.
Qed.

Lemma get_stream_order_Ok {F} (self : Network F) kind arr :
  kind ∈ ["strahler"; "shreeve"] →
  get_stream_order self kind false = Ok (Some (AsArray arr)) →
  ∃ cells ord0 vis,
    _chcells self = Some cells ∧
    put_at (zeros 0%Z (_ncells self)) cells 1%Z = Ok ord0 ∧
    (if decide (kind = "strahler")
     then foldM (strahler_step (_ix self) (_ixc self))
                (ord0, zeros 0%Z (_ncells self)) (seq 0 (length (_ix self)))
     else foldM (shreeve_step (_ix self) (_ixc self))
                (ord0, zeros 0%Z (_ncells self)) (seq 0 (length (_ix self))))
    = Ok (ravel arr, vis).
Proof.
  intros Hk. unfold get_stream_order. rewrite decide_True by done. cbv zeta.
  intros H.
  apply bind_Ok in H as (cells & Hc & H).
  apply bind_Ok in H as (ord0 & Hord & H).
  apply bind_Ok in H as ([ord vis] & Hfold & H).
  apply bind_Ok in H as (arr' & Hre & H). injection H as <-.
  unfold reshape in Hre. case_decide; [|done]. injection Hre as <-.
  exists cells, ord0, vis. split_and!; [|done..].
  unfold getattr in Hc. destruct (_chcells self); [by injection Hc as ->|done].
Qed.

(** X28. When [get_stream_order] returns an array, edges upstream first,
    then at a cell that receives exactly two edges, the giver of the first
    having an order of at least 1: Strahler gives [a + 1] in int8 when both
    givers have the order [a] and the larger of the two orders otherwise;
    Shreeve gives the sum of the two orders in int8. *)
Theorem order_at_a_confluence_of_two {F} (self : Network F) (kind : string)
    (arr : array2 Z) (n1 n2 g1 g2 r : nat) (a b : Z) :
  kind ∈ ["strahler"; "shreeve"] →
  topologically_sorted (_ix self) (_ixc self) →
  get_stream_order self kind false = Ok (Some (AsArray arr)) →
  n1 < n2 →
  _ix self !! n1 = Some g1 → _ixc self !! n1 = Some r →
  _ix self !! n2 = Some g2 → _ixc self !! n2 = Some r →
  (∀ n, _ixc self !! n = Some r → n = n1 ∨ n = n2) →
  ravel arr !! g1 = Some a → ravel arr !! g2 = Some b → (1 <= a)%Z →
  ravel arr !! r
  = Some (if decide (kind = "strahler")
          then (if decide (a = b) then int8 (a + 1) else Z.max b a)
          else int8 (a + b)).
Proof.
  intros Hk Hsorted Hres Hlt Hg1 Hr1 Hg2 Hr2 Honly Ha Hb Hpos.
  apply get_stream_order_Ok in Hres as (cells & ord0 & vis & _ & Hord & Hfold);
    [|done].
  apply put_at_values in Hord as [Hl0 Hval].
  unfold zeros in Hl0. rewrite length_replicate in Hl0.
  assert (n2 < length (_ix self)) as Hn2 by (by eapply lookup_lt_Some).
  assert (Hv0 : ∀ c, c < length ord0 →
                     zeros 0%Z (_ncells self) !! c = Some 0%Z).
  { intros c Hc. apply lookup_replicate_2. lia. }
  assert (Hinit : ∀ i_r, ord0 !! r = Some i_r → (i_r <= 1)%Z).
  { intros i_r Hi. destruct (Hval r i_r Hi) as [->|Hz]; [lia|].
    apply lookup_replicate in Hz as [-> _]. lia. }
  assert (Hstep : ∀ ord vis0 n s',
    strahler_step (_ix self) (_ixc self) (ord, vis0) n = Ok s' →
    ∃ r g o_r o_g vr,
      _ixc self !! n = Some r ∧ _ix self !! n = Some g ∧ ord !! r = Some o_r ∧
      ord !! g = Some o_g ∧ vis0 !! r = Some vr ∧
      s' = (<[r := (fun o_r o_g vr =>
                      if decide (Z.land (if decide (o_r = o_g) then 1 else 0)
                                        vr ≠ 0)%Z
                      then int8 (o_r + 1) else Z.max o_g o_r) o_r o_g vr]> ord,
            <[r := (fun o_r o_g vr =>
                      if decide (Z.land (if decide (o_r = o_g) then 1 else 0)
                                        vr ≠ 0)%Z
                      then vr else 1%Z) o_r o_g vr]> vis0)).
  { intros ord vis0 n s' Hs.
    apply strahler_step_Ok in Hs as (r' & g & o_r & o_g & vr & ? & ? & ? & ?
                                     & Hvr & ->).
    exists r', g, o_r, o_g, vr. split_and!; try done. cbv beta.
    destruct (decide (Z.land _ vr ≠ 0)%Z); [|done]. by rewrite (list_insert_id vis0 r' vr). }
  assert (Hstep' : ∀ ord vis0 n s',
    shreeve_step (_ix self) (_ixc self) (ord, vis0) n = Ok s' →
    ∃ r g o_r o_g vr,
      _ixc self !! n = Some r ∧ _ix self !! n = Some g ∧ ord !! r = Some o_r ∧
      ord !! g = Some o_g ∧ vis0 !! r = Some vr ∧
      s' = (<[r := (fun o_r o_g vr =>
                      if decide (vr ≠ 0)%Z then int8 (o_r + o_g)
                      else Z.max o_g o_r) o_r o_g vr]> ord,
            <[r := (fun o_r o_g vr =>
                      if decide (vr ≠ 0)%Z then vr else 1%Z) o_r o_g vr]> vis0)).
  { intros ord vis0 n s' Hs.
    apply shreeve_step_Ok in Hs as (r' & g & o_r & o_g & vr & ? & ? & ? & ?
                                    & Hvr & ->).
    exists r', g, o_r, o_g, vr. split_and!; try done. cbv beta.
    destruct (decide (vr ≠ 0)%Z); [|done]. by rewrite (list_insert_id vis0 r' vr). }
  destruct (decide (kind = "strahler")) as [->|Hne].
  - destruct (order_at_two_edges (_ix self) (_ixc self)
                (strahler_step (_ix self) (_ixc self))
                (fun o_r o_g vr =>
                   if decide (Z.land (if decide (o_r = o_g) then 1 else 0) vr ≠ 0)%Z
                   then int8 (o_r + 1) else Z.max o_g o_r)
                (fun o_r o_g vr =>
                   if decide (Z.land (if decide (o_r = o_g) then 1 else 0) vr ≠ 0)%Z
                   then vr else 1%Z)
                Hstep _ _ _ n1 n2 g1 g2 r a b Hsorted Hfold)
      as (i_r & Hi & Hfin); try done.
    simpl in Hfin. rewrite Hfin. f_equal. specialize (Hinit i_r Hi).
    rewrite Z.land_0_r. rewrite (decide_False (P := (0 ≠ 0)%Z)) by (intros Hx; by apply Hx).
    replace (Z.max a i_r) with a by lia.
    destruct (decide (a = b)); reflexivity.
  - destruct (order_at_two_edges (_ix self) (_ixc self)
                (shreeve_step (_ix self) (_ixc self))
                (fun o_r o_g vr =>
                   if decide (vr ≠ 0)%Z then int8 (o_r + o_g)
                   else Z.max o_g o_r)
                (fun o_r o_g vr => if decide (vr ≠ 0)%Z then vr else 1%Z)
                Hstep' _ _ _ n1 n2 g1 g2 r a b Hsorted Hfold)
      as (i_r & Hi & Hfin); try done.
    simpl in Hfin. rewrite Hfin. f_equal. specialize (Hinit i_r Hi).
    by replace (Z.max a i_r) with a by lia.
Qed.

Lemma y_network_order_witness :
  ∃ arr,
    get_stream_order (y_network (Some [0; 1; 2; 3; 4; 5; 6; 7])) "shreeve" false
      = Ok (Some (AsArray arr)) ∧
    ravel arr !! 2 = Some 2%Z.
Proof.
  exists (mk_array2 (2, 4) [1; 1; 2; 2; 2; 2; 3; 1]%Z). split; [reflexivity|].
  apply (order_at_a_confluence_of_two
           (y_network (Some [0; 1; 2; 3; 4; 5; 6; 7])) "shreeve"
           (mk_array2 (2, 4) [1; 1; 2; 2; 2; 2; 3; 1]%Z) 1 2 0 1 2 1 1);
    try reflexivity; try lia.
  - by apply (bool_decide_unpack _).
  - apply y_network_sorted.
  - intros n Hn.
    do 7 (destruct n as [|n]; [first [by left | by right | done]|]). done.
Defined.

(** ** From the flow graph to the segments *)

(** X29. From the flow graph to the segments: on a well-formed flow
    with edges upstream first and fewer than 2^31 cells, [__init__]
    returns a network on which [get_stream_segments] returns an array of
    the shape of the raster, where exactly the channel cells carry a
    positive id. *)
Theorem constructed_network_has_segments
    dem flow threshold thetaref winsize :
  wf_flow dem flow →
  topologically_sorted (Flow._ix flow) (Flow._ixc flow) →
  (Z.of_nat (Flow.get_ncells flow) < 2 ^ 31)%Z →
  ∃ self seg,
    __init__ dem flow threshold thetaref winsize = Ok self ∧
    get_stream_segments self false
      = Ok (AsArray (mk_array2 (Flow.get_dims flow) seg)) ∧
    length seg = Flow.get_ncells flow ∧
    ∀ c, c < Flow.get_ncells flow →
      (c ∈ _ix self ∨ c ∈ _ixc self ↔ ∃ id, seg !! c = Some id ∧ (0 < id)%Z).
Proof.
  intros Hwf Hsorted Hsmall.
  destruct (init_total dem flow threshold thetaref winsize Hwf) as [self Hself].
  destruct (init_shape _ _ _ _ _ _ Hself)
    as (Hn & Hd & _ & Hl & _ & _ & _ & _ & _ & _ & _ & Hix & Hixc & _).
  assert (Hwfn : wf_network self).
  { split; [by split|]. rewrite Hd, Hn. by destruct Hwf. }
  assert (Hsorted' : topologically_sorted (_ix self) (_ixc self)).
  { pose proof Hself as H. apply init_Ok in H. cbv zeta in H.
    destruct H as (ix & ixc & ? & ? & ? & ? & ? & ?
                   & Hsel & _ & _ & _ & _ & _ & ->).
    cbn [_ix _ixc set_ksn set_chi].
    by apply select_edges_graph in Hsel as (_ & _ & _ & _ & Hts); apply Hts. }
  destruct (segment_labels_propagated self Hwfn Hsorted') as (seg & Hseg & Hprop).
  { by rewrite Hn. }
  exists self, seg. split; [done|].
  pose proof Hprop as (Hlen & _ & _ & Hz & _).
  split_and!.
  - unfold get_stream_segments. rewrite Hseg. cbn [mbind result_bind].
    unfold reshape. destruct Hwfn as [_ Hdims].
    rewrite decide_True by congruence. by rewrite Hd.
  - by rewrite Hlen.
  - intros c Hc. split.
    + intros Hch. by eapply channel_cell_label.
    + intros (id & Hid & Hpos).
      destruct (decide (channel_cell self c)) as [|Hnc]; [done|].
      rewrite Hz in Hid.
      * injection Hid as <-. lia.
      * by rewrite Hn.
      * intros [_ [[_ Hh]|Hcf]]%elem_of_boundaries; [done|].
        apply Hnc. right. unfold confluence in Hcf.
        destruct (decide (c ∈ _ixc self)) as [|Hnin]; [done|].
        apply in_degree_0 in Hnin. lia.
      * intros n _ Hx. apply Hnc. right. apply list_elem_of_lookup. eauto.
Qed.

Lemma line_flow_segments_witness :
  ∃ self seg,
    __init__ line_dem line_flow 5 (45 / 100) 0 = Ok self ∧
    get_stream_segments self false = Ok (AsArray (mk_array2 (1, 3) seg)).
Proof.
  destruct (constructed_network_has_segments line_dem line_flow 5 (45 / 100) 0
              line_flow_wf line_flow_sorted ltac:(simpl; lia))
    as (self & seg & Hself & Hseg & _).
  by exists self, seg.
Defined.
